(** * whisper-script: segmentation planner and ordered reassembly

    A shallow embedding of the parts of
    [src/preprocessing/audio_splitter.py] and [pipelines/multilang_batch.py]
    that decide how a recording is cut into windows, how the surviving
    windows are numbered and named, and how the per-segment transcripts are
    put back in order.

    Conventions of the embedding:
    - Python [float] seconds are rationals in canonical form ([Qc]), so
      that [=] is Leibniz equality; every finite double is such a rational
      and the comparisons of Python are the comparisons of [Qc].  The
      operations [+], [-] and [/] round their exact result: the rounding
      is a parameter of the embedding ([arithmetic]), instantiated by the
      rounding of IEEE 754 binary64 ([binary64]) and by no rounding at all
      ([ideal]).  Infinities, NaN and results of magnitude [2^1024] or
      more are outside the model.
    - A [while] loop whose termination depends on the data takes a fuel
      argument and answers [None] when the fuel runs out.
    - An uncaught Python exception is the [Raise] outcome of [result].
    - The answers of external tools (ffmpeg, the file system) are inputs. *)

From Stdlib Require Import QArith Qcanon Qround Qpower Lqa Lia ZArith Arith.
From Stdlib Require Import Bool List.
From Stdlib Require Import Ascii String DecimalString Permutation.
From Stdlib Require OrdersEx DecimalNat FinFun.
From Stdlib Require Import Sorted.
From Stdlib Require Floats.SpecFloat.
Import ListNotations.


(* ================================================================== *)
(** * Part I: definitions *)
(* ================================================================== *)

(** ** Seconds *)

Module Time.

Definition time : Type := Qc.

Definition leb (x y : time) : bool := Qle_bool x y.
Definition ltb (x y : time) : bool := negb (Qle_bool y x).
Definition geb (x y : time) : bool := leb y x.
Definition gtb (x y : time) : bool := ltb y x.
Definition eqb (x y : time) : bool := Qeq_bool x y.

Definition two : time := Q2Qc 2.

(** Python's [min(a, b)]: the first argument unless the second is
    strictly smaller. *)
Definition py_min (a b : time) : time := if ltb b a then b else a.

(** The integer [n] as a number of seconds. *)
Definition of_nat (n : nat) : time := Q2Qc (inject_Z (Z.of_nat n)).

(** The arithmetic of Python's [float]: [round] is what the machine makes
    of the exact result of an operation. *)
Class arithmetic : Type := { round : time -> time }.

Definition add {A : arithmetic} (x y : time) : time := round (x + y)%Qc.
Definition sub {A : arithmetic} (x y : time) : time := round (x - y)%Qc.
Definition div {A : arithmetic} (x y : time) : time := round (x / y)%Qc.

(** A number written in decimal in the source or in a text, as [float]
    reads it. *)
Definition sec {A : arithmetic} (q : Q) : time := round (Q2Qc q).

(** Arithmetic without rounding. *)
Definition ideal : arithmetic := {| round := fun x => x |}.

End Time.

Import Time.
Open Scope Qc_scope.

(** ** IEEE 754 binary64 on the rationals

    Rounding to nearest, ties to even, with 53 bits of precision and the
    exponent of the subnormal numbers as the least exponent. *)

Module Binary64.

Definition precision : Z := 53.
Definition least_exponent : Z := -1074.

(** [floor (log2 (n / d))] for positive [n] and [d]. *)
Definition floor_log2 (n d : Z) : Z :=
  let k := (Z.log2 n - Z.log2 d)%Z in
  if Qle_bool (Qpower 2 k) (n # Z.to_pos d) then k else (k - 1)%Z.

(** The integer nearest to [n / d], the even one of two that are equally
    near. *)
Definition nearest_even (n d : Z) : Z :=
  let q := (n / d)%Z in
  match (2 * (n mod d) ?= d)%Z with
  | Lt => q
  | Gt => (q + 1)%Z
  | Eq => if Z.even q then q else (q + 1)%Z
  end.

(** The double nearest to [n / d], for positive [n] and [d]: a multiple
    [m * 2^e] with [m] of at most 53 bits. *)
Definition round_positive (n d : Z) : Q :=
  let e := Z.max (floor_log2 n d - (precision - 1)) least_exponent in
  let m := nearest_even (n * 2 ^ Z.max (- e) 0) (d * 2 ^ Z.max e 0) in
  (inject_Z m * Qpower 2 e)%Q.

Definition round53 (x : time) : time :=
  match Qnum x with
  | Z0 => x
  | Zpos n => Q2Qc (round_positive (Zpos n) (Zpos (Qden x)))
  | Zneg n => Q2Qc (- round_positive (Zpos n) (Zpos (Qden x)))
  end.

(** The unit roundoff [2^-53], the least positive normal number
    [2^-1022], and [2^52]. *)
Definition epsilon : Q := Qpower 2 (-53).
Definition least_normal : time := Q2Qc (Qpower 2 (-1022)).
Definition two_to_52 : time := Q2Qc (Qpower 2 52).

(** *** The reference implementation of the Standard Library

    [SpecFloat] computes on sign, mantissa and exponent; the numbers below
    are used to check [round53] against it. *)

Definition value_of (f : SpecFloat.spec_float) : Q :=
  match f with
  | SpecFloat.S754_finite s m e =>
      ((if s then - inject_Z (Zpos m) else inject_Z (Zpos m)) * Qpower 2 e)%Q
  | _ => 0%Q
  end.

(** [n / 10^k] as the reference implementation divides two integers that
    it represents exactly: the double a decimal literal denotes. *)
Definition reference_number (d : Z * Z) : SpecFloat.spec_float :=
  SpecFloat.SFdiv 53 1024
    (SpecFloat.binary_normalize 53 1024 (fst d) 0 false)
    (SpecFloat.binary_normalize 53 1024 (10 ^ snd d) 0 false).

Definition decimal_of (d : Z * Z) : Q :=
  (inject_Z (fst d) / inject_Z (10 ^ snd d))%Q.

(** Whether an operation of the model gives on the doubles [x] and [y]
    what the reference implementation gives. *)
Definition agrees
           (model : time -> time -> time)
           (reference : SpecFloat.spec_float -> SpecFloat.spec_float ->
                        SpecFloat.spec_float)
           (xy : (Z * Z) * (Z * Z)) : bool :=
  let '(x, y) := xy in
  Qeq_bool
    (this (model (round53 (Q2Qc (decimal_of x)))
                 (round53 (Q2Qc (decimal_of y)))))
    (value_of (reference (reference_number x) (reference_number y))).

(** Pairs of decimal numbers [(n, k)] standing for [n / 10^k]. *)
Definition samples : list ((Z * Z) * (Z * Z)) :=
  [((1, 1), (2, 1)); ((3, 1), (1, 1)); ((27, 1), (3, 0));
   ((296, 1), (31, 0)); ((596, 1), (61, 0)); ((603, 1), (303, 1));
   ((272, 1), (328, 1)); ((95, 0), (100, 0)); ((599, 0), (599, 1));
   ((1, 0), (3, 0)); ((-7, 1), (3, 0)); ((123456789, 3), (987654321, 9));
   ((1, 300), (3, 0)); ((1, 300), (1, 22)); ((1, 0), (1, 16));
   ((9007199254740993, 0), (1, 0)); ((301, 1), (600, 0))]%Z.

End Binary64.

(** The arithmetic of the machine. *)
Definition binary64 : arithmetic := {| round := Binary64.round53 |}.

(** ** [audio_splitter.py]: the planner *)

Module SilenceSegment.
(** [@dataclass class SilenceSegment]. *)
Record t : Type := mk { start : time; end_ : time; duration : time }.
End SilenceSegment.

Module AudioSplitter.

(** A planned window [(start_time, end_time)], read as the half-open
    range [[start_time, end_time)]. *)
Definition window : Type := (time * time)%type.

(** The [while current < total_duration] loop of the branch taken when no
    silence was detected.  The state is [(segments, current)]. *)
Fixpoint tile_loop {A : arithmetic} (fuel : nat)
         (total_duration max_segment_length : time)
         (segments : list window) (current : time) : option (list window) :=
  if ltb current total_duration then
    match fuel with
    | O => None
    | S fuel' =>
        let end_ := py_min (add current max_segment_length) total_duration in
        tile_loop fuel' total_duration max_segment_length
                  (segments ++ [(current, end_)]) end_
    end
  else Some segments.

(** The midpoint of a silence, the candidate split point. *)
Definition split_point_of {A : arithmetic} (silence : SilenceSegment.t)
  : time :=
  div (add (SilenceSegment.start silence) (SilenceSegment.end_ silence)) two.

(** One iteration of [for silence in silences].  The state is
    [(segments, current_start)]. *)
Definition split_step {A : arithmetic}
           (min_segment_length max_segment_length : time)
           (st : list window * time) (silence : SilenceSegment.t)
  : list window * time :=
  let '(segments, current_start) := st in
  let split_point := split_point_of silence in
  let segment_duration := sub split_point current_start in
  if geb segment_duration min_segment_length then
    (segments ++ [(current_start, split_point)], split_point)
  else if geb segment_duration max_segment_length then
    (segments ++ [(current_start, split_point)], split_point)
  else (segments, current_start).

(** The same iteration without the [elif] that forces a split. *)
Definition split_step_no_override {A : arithmetic}
           (min_segment_length : time)
           (st : list window * time) (silence : SilenceSegment.t)
  : list window * time :=
  let '(segments, current_start) := st in
  let split_point := split_point_of silence in
  let segment_duration := sub split_point current_start in
  if geb segment_duration min_segment_length then
    (segments ++ [(current_start, split_point)], split_point)
  else (segments, current_start).

Definition walk {A : arithmetic}
           (min_segment_length max_segment_length : time)
           (silences : list SilenceSegment.t) (st : list window * time)
  : list window * time :=
  fold_left (split_step min_segment_length max_segment_length) silences st.

(** The [# Add final segment] step after the loop. *)
Definition add_final (total_duration : time) (st : list window * time)
  : list window :=
  let '(segments, current_start) := st in
  if ltb current_start total_duration
  then segments ++ [(current_start, total_duration)]
  else segments.

Definition calculate_split_points {A : arithmetic} (fuel : nat)
           (silences : list SilenceSegment.t) (total_duration : time)
           (min_segment_length max_segment_length : time)
  : option (list window) :=
  match silences with
  | [] => tile_loop fuel total_duration max_segment_length [] 0
  | _ :: _ =>
      Some (add_final total_duration
              (walk min_segment_length max_segment_length silences ([], 0)))
  end.

End AudioSplitter.

(** ** Properties of window lists *)

Module Windows.
Import AudioSplitter.

Definition w_start (w : window) : time := fst w.
Definition w_end (w : window) : time := snd w.
(** The length of a window as the code computes it
    ([duration = end_time - start_time]). *)
Definition w_length {A : arithmetic} (w : window) : time :=
  sub (w_end w) (w_start w).


Definition starts_at (a : time) (ws : list window) : Prop :=
  exists w rest, ws = w :: rest /\ w_start w = a.

Definition ends_at (b : time) (ws : list window) : Prop :=
  exists front w, ws = front ++ [w] /\ w_end w = b.

Definition gapless (ws : list window) : Prop :=
  forall i w1 w2,
    nth_error ws i = Some w1 -> nth_error ws (S i) = Some w2 ->
    w_end w1 = w_start w2.



(** [chain a ws b]: the windows of [ws] lead from [a] to [b] without a gap,
    none running backwards. *)
Fixpoint chain (a : time) (ws : list window) (b : time) : Prop :=
  match ws with
  | [] => a = b
  | w :: ws' => w_start w = a /\ a <= w_end w /\ chain (w_end w) ws' b
  end.

(** [linked a ws b]: the windows of [ws] lead from [a] to [b], each one
    starting where the one before it ends. *)
Fixpoint linked (a : time) (ws : list window) (b : time) : Prop :=
  match ws with
  | [] => a = b
  | w :: ws' => w_start w = a /\ linked (w_end w) ws' b
  end.

(** A window of the tiling loop: it starts before the end of the
    recording and ends where [min(current + max_segment_length,
    total_duration)] puts it. *)
Definition tile {A : arithmetic} (total_duration max_segment_length : time)
           (w : window) : Prop :=
  w_start w < total_duration /\
  w_end w = py_min (add (w_start w) max_segment_length) total_duration.

(** Silences inside the recording, reported in chronological order. *)
Definition within (total_duration : time) (s : SilenceSegment.t) : Prop :=
  0 <= SilenceSegment.start s /\ SilenceSegment.start s <= total_duration /\
  0 <= SilenceSegment.end_ s /\ SilenceSegment.end_ s <= total_duration.

Fixpoint chronological (silences : list SilenceSegment.t) : Prop :=
  match silences with
  | [] => True
  | s :: rest =>
      match rest with
      | [] => True
      | s' :: _ =>
          SilenceSegment.start s <= SilenceSegment.start s' /\
          SilenceSegment.end_ s <= SilenceSegment.end_ s'
      end /\ chronological rest
  end.

(** Midpoints that never go back below the running start. *)
Fixpoint ascending_from (c : time) (ms : list time) : Prop :=
  match ms with
  | [] => True
  | m :: ms' => c <= m /\ ascending_from m ms'
  end.

(** The walk as the specification words it: commit [[current_start, m)]
    at a midpoint [m] exactly when [m - current_start >= min_len], and
    close with the remainder [[current_start, total)]. *)
Fixpoint plan_by_midpoints {A : arithmetic} (min_len total_duration : time)
         (silences : list SilenceSegment.t) (current_start : time)
  : list window :=
  match silences with
  | [] =>
      if ltb current_start total_duration
      then [(current_start, total_duration)] else []
  | s :: rest =>
      let m := split_point_of s in
      if geb (sub m current_start) min_len
      then (current_start, m) :: plan_by_midpoints min_len total_duration rest m
      else plan_by_midpoints min_len total_duration rest current_start
  end.

Definition window_eqb (w1 w2 : window) : bool :=
  eqb (fst w1) (fst w2) && eqb (snd w1) (snd w2).

Fixpoint windows_eqb (l1 l2 : list window) : bool :=
  match l1, l2 with
  | [], [] => true
  | w1 :: l1', w2 :: l2' => window_eqb w1 w2 && windows_eqb l1' l2'
  | _, _ => false
  end.

Definition plan_eqb (o : option (list window)) (l : list window) : bool :=
  match o with
  | Some l' => windows_eqb l' l
  | None => false
  end.

(** The silence ffmpeg reports from [a] to [b], as [detect_silences]
    stores it. *)
Definition silence {A : arithmetic} (a b : Q) : SilenceSegment.t :=
  SilenceSegment.mk (sec a) (sec b) (sub (sec b) (sec a)).

(** The plan for a recording of one second cut into tiles of a tenth of a
    second, as binary64 computes it: eleven windows, the last one of
    about [1e-16] seconds. *)
Definition tenths : list window :=
  map (fun w => (sec (A := binary64) (fst w), sec (A := binary64) (snd w)))
      [(0, 0.1); (0.1, 0.2); (0.2, 0.30000000000000004);
       (0.30000000000000004, 0.4); (0.4, 0.5); (0.5, 0.6); (0.6, 0.7);
       (0.7, 0.7999999999999999); (0.7999999999999999, 0.8999999999999999);
       (0.8999999999999999, 0.9999999999999999);
       (0.9999999999999999, 1)]%Q.

End Windows.

(** ** Python strings *)

Module PyStr.
Local Open Scope string_scope.

Definition newline : string := String (ascii_of_nat 10) EmptyString.

Definition is_empty (s : string) : bool :=
  match s with EmptyString => true | String _ _ => false end.

(** [sub in s]. *)
Fixpoint contains (sub s : string) : bool :=
  String.prefix sub s ||
  match s with
  | EmptyString => false
  | String _ s' => contains sub s'
  end.

(** [s.endswith(suffix)]. *)
Fixpoint endswith (suffix s : string) : bool :=
  String.eqb suffix s ||
  match s with
  | EmptyString => false
  | String _ s' => endswith suffix s'
  end.

(** [s.split(sep)] for a non-empty [sep]: [skip] counts the characters of
    a matched separator still to be passed over, [cur] is the piece being
    read. *)
Fixpoint split_from (sep : string) (skip : nat) (cur : string) (s : string)
  : list string :=
  match s with
  | EmptyString => [cur]
  | String c s' =>
      match skip with
      | S k => split_from sep k cur s'
      | O =>
          if String.prefix sep s
          then cur :: split_from sep (String.length sep - 1) "" s'
          else split_from sep 0 (cur ++ String c "") s'
      end
  end.

Definition split (sep s : string) : list string := split_from sep 0 "" s.

(** The ASCII characters for which [str.isspace] holds. *)
Definition ascii_space (c : ascii) : bool :=
  let n := nat_of_ascii c in
  ((9 <=? n) && (n <=? 13) || (28 <=? n) && (n <=? 32))%nat.

Definition byte_is (n : nat) (c : ascii) : bool :=
  Nat.eqb (nat_of_ascii c) n.

Definition byte_in (lo hi : nat) (c : ascii) : bool :=
  let n := nat_of_ascii c in ((lo <=? n) && (n <=? hi))%nat.

(** The number of bytes of the white-space character at the head of [s],
    [0] when [s] does not start with one.  The text is UTF-8; the
    characters for which [str.isspace] holds are the ASCII ones and
    U+0085, U+00A0, U+1680, U+2000 to U+200A, U+2028, U+2029, U+202F,
    U+205F and U+3000. *)
Definition space_width (s : string) : nat :=
  match s with
  | EmptyString => 0
  | String c s1 =>
      if ascii_space c then 1
      else
        match s1 with
        | EmptyString => 0
        | String d s2 =>
            if byte_is 194 c then
              if byte_is 133 d || byte_is 160 d then 2 else 0
            else
              match s2 with
              | EmptyString => 0
              | String e _ =>
                  if byte_is 225 c then
                    if byte_is 154 d && byte_is 128 e then 3 else 0
                  else if byte_is 226 c then
                    if byte_is 128 d &&
                       (byte_in 128 138 e || byte_is 168 e || byte_is 169 e
                        || byte_is 175 e)
                    then 3
                    else if byte_is 129 d && byte_is 159 e then 3 else 0
                  else if byte_is 227 c then
                    if byte_is 128 d && byte_is 128 e then 3 else 0
                  else 0
              end
        end
  end.

(** [s.lstrip()]: [skip] counts the bytes of a white-space character
    still to be passed over. *)
Fixpoint lstrip_from (skip : nat) (s : string) : string :=
  match s with
  | EmptyString => EmptyString
  | String c s' =>
      match skip with
      | S k => lstrip_from k s'
      | O =>
          match space_width s with
          | O => s
          | S k => lstrip_from k s'
          end
      end
  end.

Definition lstrip (s : string) : string := lstrip_from 0 s.

(** Whether [s] holds white space only. *)
Definition blank (s : string) : bool := is_empty (lstrip s).

(** [s.rstrip()]: what precedes the longest blank suffix. *)
Fixpoint rstrip (s : string) : string :=
  match s with
  | EmptyString => EmptyString
  | String c s' => if blank s then EmptyString else String c (rstrip s')
  end.

(** [s.strip()]. *)
Definition strip (s : string) : string := rstrip (lstrip s).

(** [s.split()]: the maximal runs of characters that are not white
    space. *)
Fixpoint words_from (skip : nat) (cur : string) (s : string) : list string :=
  match s with
  | EmptyString => if is_empty cur then [] else [cur]
  | String c s' =>
      match skip with
      | S k => words_from k cur s'
      | O =>
          match space_width s with
          | S k =>
              if is_empty cur then words_from k "" s'
              else cur :: words_from k "" s'
          | O => words_from 0 (cur ++ String c "") s'
          end
      end
  end.

Definition words (s : string) : list string := words_from 0 "" s.

(** *** [float(s)] on finite decimal literals

    [[sign] (digits [. [digits]] | . digits) [(e|E) [sign] digits]].
    Every string outside this grammar is rejected; Python does the same
    except for the spellings of infinity and NaN and for digit groups
    separated by underscores.  The value is the decimal number rounded
    once, as Python rounds it. *)

Definition digit_of (c : ascii) : option Z :=
  let n := nat_of_ascii c in
  if ((48 <=? n) && (n <=? 57))%nat then Some (Z.of_nat (n - 48)) else None.

(** Reads a run of digits: the number read so far, how many digits were
    read, and the rest of the input. *)
Fixpoint take_digits (acc : Z) (count : nat) (s : string)
  : Z * nat * string :=
  match s with
  | EmptyString => (acc, count, s)
  | String c s' =>
      match digit_of c with
      | Some d => take_digits (10 * acc + d) (S count) s'
      | None => (acc, count, s)
      end
  end.

Definition take_sign (s : string) : bool * string :=
  match s with
  | String "-" s' => (true, s')
  | String "+" s' => (false, s')
  | _ => (false, s)
  end.

Definition take_exponent (s : string) : option Z :=
  match s with
  | EmptyString => Some 0%Z
  | String c s' =>
      if (Ascii.eqb c "e" || Ascii.eqb c "E")%char then
        let '(neg, s1) := take_sign s' in
        let '(e, n, rest) := take_digits 0 0 s1 in
        if ((0 <? n)%nat && is_empty rest)%bool
        then Some (if neg then (- e)%Z else e) else None
      else None
  end.

Definition float {A : arithmetic} (s : string) : option time :=
  let '(neg, s0) := take_sign s in
  let '(int_part, n_int, s1) := take_digits 0 0 s0 in
  let '(mantissa, n_frac, s2) :=
    match s1 with
    | String "." s1' => take_digits int_part 0 s1'
    | _ => (int_part, 0%nat, s1)
    end in
  if (0 <? n_int + n_frac)%nat then
    match take_exponent s2 with
    | Some e =>
        let q := (inject_Z mantissa * Qpower 10 (e - Z.of_nat n_frac))%Q in
        Some (sec (if neg then (- q)%Q else q))
    | None => None
    end
  else None.

End PyStr.

(** ** [audio_splitter.py]: the silence event parser *)

Inductive exn : Type := ValueError | IndexError.

Inductive result (A : Type) : Type :=
| Ok (a : A)
| Raise (e : exn).
Arguments Ok {A} a.
Arguments Raise {A} e.

Definition bind {A B : Type} (r : result A) (k : A -> result B) : result B :=
  match r with
  | Ok a => k a
  | Raise e => Raise e
  end.

Notation "x <- r ;; k" := (bind r (fun x => k))
  (at level 61, r at next level, right associativity).

Module SilenceParser.
Import PyStr.
Local Open Scope string_scope.

Section WithFloat.

Context {A : arithmetic}.

(** Python's [float(str)]: [None] stands for [ValueError]. *)
Variable float : string -> option time.

(** [float(s.strip().split()[0])]. *)
Definition first_float (s : string) : result time :=
  match words (strip s) with
  | [] => Raise IndexError
  | token :: _ =>
      match float token with
      | Some x => Ok x
      | None => Raise ValueError
      end
  end.

(** The state of the scan: [(silences, silence_start)]. *)
Definition scan : Type := (list SilenceSegment.t * option time)%type.

(** The body of [for line in result.stderr.split('\n')]. *)
Definition parse_line (st : scan) (line : string) : result scan :=
  let '(silences, silence_start) := st in
  if contains "silencedetect" line then
    if contains "silence_start" line then
      let parts := split "silence_start:" line in
      if (1 <? List.length parts)%nat then
        x <- first_float (nth 1 parts "") ;;
        Ok (silences, Some x)
      else Ok st
    else
      match contains "silence_end" line, silence_start with
      | true, Some started =>
          let parts := split "silence_end:" line in
          if (1 <? List.length parts)%nat then
            let end_part := split "|" (strip (nth 1 parts "")) in
            silence_end <- first_float (nth 0 end_part "") ;;
            let duration := sub silence_end started in
            Ok ((silences ++
                   [SilenceSegment.mk started silence_end duration])%list,
                None)
          else Ok st
      | _, _ => Ok st
      end
  else Ok st.

Fixpoint parse_lines (st : scan) (lines : list string) : result scan :=
  match lines with
  | [] => Ok st
  | line :: rest => st' <- parse_line st line ;; parse_lines st' rest
  end.

(** [detect_silences], from the text ffmpeg wrote to stderr. *)
Definition detect_silences (stderr : string)
  : result (list SilenceSegment.t) :=
  st <- parse_lines ([], None) (split newline stderr) ;;
  Ok (fst st).

(** The text handed to [float] on a line, when the scan in state
    [silence_start] reads a number from it. *)
Definition numeric_payload (silence_start : option time) (line : string)
  : option string :=
  if contains "silencedetect" line then
    if contains "silence_start" line then
      match split "silence_start:" line with
      | _ :: payload :: _ => Some payload
      | _ => None
      end
    else
      match contains "silence_end" line, silence_start with
      | true, Some _ =>
          match split "silence_end:" line with
          | _ :: payload :: _ => Some (nth 0 (split "|" (strip payload)) "")
          | _ => None
          end
      | _, _ => None
      end
  else None.

(** A line is a marker line when it carries the tag and one of the two
    markers. *)
Definition marker_line (line : string) : bool :=
  contains "silencedetect" line &&
  (contains "silence_start" line || contains "silence_end" line).

(** The texts the scan hands to [float], line after line, for as long
    as each of them parses; [pending] tells whether a start is pending
    when the scan reaches the first of the lines. *)
Fixpoint payloads_read (pending : bool) (lines : list string) : list string :=
  match lines with
  | [] => []
  | line :: rest =>
      match numeric_payload (if pending then Some 0 else None) line with
      | Some payload =>
          payload :: payloads_read (contains "silence_start" line) rest
      | None => payloads_read pending rest
      end
  end.

(** [float] accepts the first word of the text. *)
Definition parses (payload : string) : Prop :=
  exists x, first_float payload = Ok x.

End WithFloat.

(** Three lines of ffmpeg output around one silence, and the same with a
    start marker whose number is not a number. *)
Definition stderr_good : string :=
  "size=N/A time=00:03:00.00 bitrate=N/A" ++ newline ++
  "[silencedetect @ 0x5581] silence_start: 40" ++ newline ++
  "[silencedetect @ 0x5581] silence_end: 42 | silence_duration: 2".

Definition stderr_bad : string :=
  "[silencedetect @ 0x5581] silence_start: N/A" ++ newline ++ stderr_good.

(** An end marker without a number, met when no start is pending. *)
Definition stderr_stray_end : string :=
  "[silencedetect @ 0x5581] silence_end: N/A" ++ newline ++ stderr_good.

End SilenceParser.

(** ** [audio_splitter.py]: filtering, extraction and numbering *)

Module AudioSegment.
(** [@dataclass class AudioSegment]. *)
Record t : Type := mk {
  filename : string;
  start_time : time;
  end_time : time;
  duration : time;
  segment_index : nat
}.
End AudioSegment.

Module Extractor.
Import AudioSplitter.
Local Open Scope string_scope.

(** What the external tools answer for one input file. *)
Record tools : Type := {
  (** [ffprobe]: the duration of the file. *)
  probed_duration : time;
  (** [detect_silences]: the silences ffmpeg reports for the file. *)
  detected_silences : list SilenceSegment.t;
  (** The sum of the [silence_duration] values ffmpeg reports for the
      range that starts at the first argument and lasts the second. *)
  silence_in : time -> time -> time;
  (** [split_audio_segment output_file start_time duration]: whether the
      stream copy exits with status zero. *)
  split_audio_segment : string -> time -> time -> bool
}.

Definition calculate_segment_silence_ratio {A : arithmetic} (t : tools)
           (start_time duration : time) : time :=
  let total_silence := silence_in t start_time duration in
  if gtb duration 0 then div total_silence duration else 0.

Definition decimal (n : nat) : string :=
  NilEmpty.string_of_uint (Nat.to_uint n).

Fixpoint zeros (n : nat) : string :=
  match n with
  | O => ""
  | S n' => String "0" (zeros n')
  end.

(** [f"{n:03d}"]: decimal, padded with zeros to at least three digits. *)
Definition format_03d (n : nat) : string :=
  let digits := decimal n in
  zeros (3 - String.length digits) ++ digits.

(** [f"segment_{segment_index:03d}.wav"]. *)
Definition segment_filename (segment_index : nat) : string :=
  "segment_" ++ format_03d segment_index ++ ".wav".

(** What the loop reports for a window: [SKIP], [OK] followed by a
    record, or [OK] followed by a failed extraction. *)
Inductive outcome : Type := Skipped | Kept | Failed.

(** The state of the loop: [(segments_metadata, segment_index)] and the
    outcomes reported so far. *)
Definition run : Type := (list AudioSegment.t * nat * list outcome)%type.

(** The body of [for start_time, end_time in split_points]. *)
Definition process_window {A : arithmetic} (t : tools)
           (silence_ratio_threshold : time)
           (st : run) (w : window) : run :=
  let '(segments_metadata, segment_index, log) := st in
  let '(start_time, end_time) := w in
  let duration := sub end_time start_time in
  let silence_ratio := calculate_segment_silence_ratio t start_time duration in
  if gtb silence_ratio silence_ratio_threshold then
    (segments_metadata, segment_index, (log ++ [Skipped])%list)
  else
    let output_filename := segment_filename segment_index in
    if split_audio_segment t output_filename start_time duration then
      ((segments_metadata ++
          [AudioSegment.mk output_filename start_time end_time duration
             segment_index])%list,
       S segment_index, (log ++ [Kept])%list)
    else (segments_metadata, segment_index, (log ++ [Failed])%list).

Definition process_windows {A : arithmetic} (t : tools)
           (silence_ratio_threshold : time)
           (split_points : list window) : run :=
  fold_left (process_window t silence_ratio_threshold) split_points
            ([], 1%nat, []).

Definition process_audio_file {A : arithmetic} (fuel : nat) (t : tools)
           (min_segment_length max_segment_length : time)
           (silence_ratio_threshold : time)
  : option (list AudioSegment.t) :=
  match calculate_split_points fuel (detected_silences t) (probed_duration t)
          min_segment_length max_segment_length with
  | Some split_points =>
      Some (fst (fst (process_windows t silence_ratio_threshold split_points)))
  | None => None
  end.

(** *** What the statements below speak about *)

(** The ratio the loop measures for a window. *)
Definition ratio_of {A : arithmetic} (t : tools) (w : window) : time :=
  calculate_segment_silence_ratio t (fst w) (sub (snd w) (fst w)).

Definition is_kept (o : outcome) : bool :=
  match o with Kept => true | _ => false end.

Definition count_kept (log : list outcome) : nat :=
  List.length (filter is_kept log).

(** The outcome of a window when [segment_index] is the next free index. *)
Definition outcome_of {A : arithmetic} (t : tools)
           (silence_ratio_threshold : time)
           (segment_index : nat) (w : window) : outcome :=
  if gtb (ratio_of t w) silence_ratio_threshold then Skipped
  else if split_audio_segment t (segment_filename segment_index)
            (fst w) (sub (snd w) (fst w))
       then Kept else Failed.

(** The windows reported as kept, in window order. *)
Definition kept_windows (split_points : list window) (log : list outcome)
  : list window :=
  map fst (filter (fun p => is_kept (snd p)) (combine split_points log)).

Definition window_of (s : AudioSegment.t) : window :=
  (AudioSegment.start_time s, AudioSegment.end_time s).

Definition records_of (st : run) : list AudioSegment.t := fst (fst st).
Definition next_index_of (st : run) : nat := snd (fst st).
Definition log_of (st : run) : list outcome := snd st.

(** The numbering invariant of the loop after the windows
    [split_points]. *)
Definition well_numbered {A : arithmetic} (t : tools)
           (silence_ratio_threshold : time)
           (split_points : list window) (st : run) : Prop :=
  let k := count_kept (log_of st) in
  List.length (records_of st) = k /\
  next_index_of st = S k /\
  map AudioSegment.segment_index (records_of st) = seq 1 k /\
  map AudioSegment.filename (records_of st) = map segment_filename (seq 1 k) /\
  map window_of (records_of st) = kept_windows split_points (log_of st) /\
  List.length (log_of st) = List.length split_points /\
  (forall i w,
      nth_error split_points i = Some w ->
      nth_error (log_of st) i
      = Some (outcome_of t silence_ratio_threshold
                (S (count_kept (firstn i (log_of st)))) w)).

(** A tool set for one window of 100 s in which ffmpeg finds
    [silent] seconds of silence, and whose stream copy succeeds. *)
Definition one_window_tools {A : arithmetic} (silent : Q) : tools :=
  {| probed_duration := sec 100;
     detected_silences := [];
     silence_in := fun _ _ => sec silent;
     split_audio_segment := fun _ _ _ => true |}.

(** A recording of 180 s with three detected silences, planned as
    [[0,41), [41,100.5), [100.5,141), [141,180)] for [min_len = 30]: ffmpeg
    finds 59 s of silence in the window that starts at 41 and none in the
    others, and the stream copy fails for the window that starts at
    100.5. *)
Definition meeting_tools {A : arithmetic} : tools :=
  {| probed_duration := sec 180;
     detected_silences := [Windows.silence 40 42; Windows.silence 100 101;
                           Windows.silence 140 142];
     silence_in := fun start_time _ =>
                     if eqb start_time (sec 41) then sec 59 else 0;
     split_audio_segment := fun _ start_time _ =>
                              negb (eqb start_time (sec 100.5)) |}.

(** The same recording when every stream copy succeeds. *)
Definition quiet_middle_tools {A : arithmetic} : tools :=
  {| probed_duration := sec 180;
     detected_silences := [Windows.silence 40 42; Windows.silence 100 101;
                           Windows.silence 140 142];
     silence_in := fun start_time _ =>
                     if eqb start_time (sec 41) then sec 59 else 0;
     split_audio_segment := fun _ _ _ => true |}.

End Extractor.

(** ** [multilang_batch.py]: reassembly of the transcripts *)

Module Reassembler.
Import PyStr.
Local Open Scope string_scope.

(** A file of the transcripts directory: its text, or a file whose
    reading raises. *)
Inductive file : Type :=
| Readable (text : string)
| Unreadable.

(** The transcripts directory, in the order the file system lists it. *)
Definition directory : Type := list (string * file).

Fixpoint lookup (name : string) (dir : directory) : option file :=
  match dir with
  | [] => None
  | (n, f) :: dir' => if String.eqb n name then Some f else lookup name dir'
  end.

(** [Path(p).name]: the last component of the path. *)
Definition path_name (p : string) : string :=
  List.last
    (filter (fun c => negb (is_empty c || String.eqb c ".")) (split "/" p))
    "".

(** [name.rfind('.')], counted from position [i] of the whole name. *)
Fixpoint rfind_dot (i : nat) (s : string) : option nat :=
  match s with
  | EmptyString => None
  | String c s' =>
      match rfind_dot (S i) s' with
      | Some j => Some j
      | None => if Ascii.eqb c "." then Some i else None
      end
  end.

(** [Path(p).stem]. *)
Definition stem (p : string) : string :=
  let name := path_name p in
  match rfind_dot 0 name with
  | Some i =>
      if ((0 <? i) && (i <? String.length name - 1))%nat
      then String.substring 0 i name else name
  | None => name
  end.

(** A record of the ledger as [merge_transcripts] reads it:
    [seg['filename']], [seg.get('start_time', 0)], [seg.get('end_time', 0)]. *)
Module Seg.
Record t : Type := mk {
  filename : string;
  start_time : option time;
  end_time : option time
}.
End Seg.

(** The JSON object of [metadata.json]; each key may be absent. *)
Record metadata : Type := {
  source_file : option string;
  total_segments : option nat;
  segments : option (list Seg.t)
}.

Definition is_some {A : Type} (o : option A) : bool :=
  match o with Some _ => true | None => false end.

(** A [dict] is true unless it is empty. *)
Definition truthy (m : metadata) : bool :=
  is_some (source_file m) || is_some (total_segments m) || is_some (segments m).

(** [asdict(seg)] and [save_metadata]. *)
Definition asdict (s : AudioSegment.t) : Seg.t :=
  Seg.mk (AudioSegment.filename s)
         (Some (AudioSegment.start_time s)) (Some (AudioSegment.end_time s)).

Definition save_metadata (segs : list AudioSegment.t) (source : string)
  : metadata :=
  {| source_file := Some source;
     total_segments := Some (List.length segs);
     segments := Some (map asdict segs) |}.

(** The entries of [merged_parts]. *)
Inductive part : Type :=
| HeaderTimed (filename : string) (start_time end_time : time)
| HeaderPlain (name : string)
| Text (content : string)
| Blank.

(** What the function prints on the way. *)
Inductive message : Type :=
| CouldNotLoadMetadata
| FoundSegments (n : nat)
| FoundTranscriptFiles (n : nat)
| TranscriptNotFound (name : string)
| CouldNotRead (name : string)
| Saved
| CouldNotWrite
| NoContent.

Definition get_or (default : time) (o : option time) : time :=
  match o with Some x => x | None => default end.

Definition transcript_name (filename : string) : string :=
  stem filename ++ ".txt".

(** The body of [for seg in segments]; the state is
    [(merged_parts, log)]. *)
Definition merge_seg (dir : directory) (st : list part * list message)
           (seg : Seg.t) : list part * list message :=
  let '(merged_parts, log) := st in
  let txt_file := transcript_name (Seg.filename seg) in
  match lookup txt_file dir with
  | Some (Readable text) =>
      let content := strip text in
      if negb (is_empty content) then
        let start_time := get_or 0 (Seg.start_time seg) in
        let end_time := get_or 0 (Seg.end_time seg) in
        ((merged_parts ++
            [HeaderTimed (Seg.filename seg) start_time end_time;
             Text content; Blank])%list, log)
      else (merged_parts, log)
  | Some Unreadable => (merged_parts, (log ++ [CouldNotRead txt_file])%list)
  | None => (merged_parts, (log ++ [TranscriptNotFound txt_file])%list)
  end.

(** [glob("segment_*.txt")] on a file name. *)
Definition glob_match (name : string) : bool :=
  String.prefix "segment_" name && endswith ".txt" name &&
  (12 <=? String.length name)%nat.

Definition glob (dir : directory) : list string :=
  filter glob_match (map fst dir).

(** The order of [sorted] on the names of one directory: code point by
    code point. *)
Definition name_ltb (a b : string) : bool :=
  match OrdersEx.String_as_OT.compare a b with Lt => true | _ => false end.

(** [sorted]: a stable sort that only asks whether one element is less
    than another. *)
Fixpoint insert (x : string) (l : list string) : list string :=
  match l with
  | [] => [x]
  | y :: l' => if name_ltb y x then y :: insert x l' else x :: y :: l'
  end.

Fixpoint sorted (l : list string) : list string :=
  match l with
  | [] => []
  | x :: l' => insert x (sorted l')
  end.

(** The body of [for txt_file in txt_files]. *)
Definition merge_file (dir : directory) (st : list part * list message)
           (name : string) : list part * list message :=
  let '(merged_parts, log) := st in
  match lookup name dir with
  | Some (Readable text) =>
      let content := strip text in
      if negb (is_empty content)
      then ((merged_parts ++ [HeaderPlain name; Text content; Blank])%list, log)
      else (merged_parts, log)
  | _ => (merged_parts, (log ++ [CouldNotRead name])%list)
  end.

Record merged : Type := {
  ok : bool;
  merged_parts : list part;
  written : option (list part);
  log : list message
}.

(** [metadata['segments']] when [metadata and 'segments' in metadata]. *)
Definition ledger_segments (metadata : option metadata)
  : option (list Seg.t) :=
  match metadata with
  | Some m => if truthy m && is_some (segments m) then segments m else None
  | None => None
  end.

(** [merge_transcripts].  [loaded] is what opening and parsing
    [metadata.json] gave ([None] when either raised), [dir] the
    transcripts directory and [write_ok] whether writing the merged file
    succeeds. *)
Definition merge_transcripts (loaded : option metadata) (dir : directory)
           (write_ok : bool) : merged :=
  let '(metadata, log0) :=
    match loaded with
    | Some m => (Some m, [])
    | None => (None, [CouldNotLoadMetadata])
    end in
  let '(parts, log1) :=
    match ledger_segments metadata with
    | Some segs =>
        fold_left (merge_seg dir) segs
                  ([], (log0 ++ [FoundSegments (List.length segs)])%list)
    | None =>
        let txt_files := sorted (glob dir) in
        fold_left (merge_file dir) txt_files
          ([], (log0 ++ [FoundTranscriptFiles (List.length txt_files)])%list)
    end in
  if negb (match parts with [] => true | _ => false end) then
    if write_ok
    then {| ok := true; merged_parts := parts; written := Some parts;
            log := (log1 ++ [Saved])%list |}
    else {| ok := false; merged_parts := parts; written := None;
            log := (log1 ++ [CouldNotWrite])%list |}
  else {| ok := false; merged_parts := parts; written := None;
          log := (log1 ++ [NoContent])%list |}.

(** *** What the statements below speak about *)

(** The stripped text of a transcript, when it can be read and is not
    empty. *)
Definition text_of (dir : directory) (name : string) : option string :=
  match lookup name dir with
  | Some (Readable text) =>
      if negb (is_empty (strip text)) then Some (strip text) else None
  | _ => None
  end.

Definition has_text (dir : directory) (seg : Seg.t) : bool :=
  is_some (text_of dir (transcript_name (Seg.filename seg))).

(** The labelled block of a ledger record. *)
Definition block_of (dir : directory) (seg : Seg.t) : list part :=
  match text_of dir (transcript_name (Seg.filename seg)) with
  | Some content =>
      [HeaderTimed (Seg.filename seg) (get_or 0 (Seg.start_time seg))
         (get_or 0 (Seg.end_time seg));
       Text content; Blank]
  | None => []
  end.

(** The warning a ledger record gives rise to. *)
Definition warning_of (dir : directory) (seg : Seg.t) : list message :=
  match lookup (transcript_name (Seg.filename seg)) dir with
  | Some (Readable _) => []
  | Some Unreadable => [CouldNotRead (transcript_name (Seg.filename seg))]
  | None => [TranscriptNotFound (transcript_name (Seg.filename seg))]
  end.

(** The block and the warning of a transcript file in the fallback. *)
Definition file_block (dir : directory) (name : string) : list part :=
  match text_of dir name with
  | Some content => [HeaderPlain name; Text content; Blank]
  | None => []
  end.

Definition file_warning (dir : directory) (name : string) : list message :=
  match lookup name dir with
  | Some (Readable _) => []
  | _ => [CouldNotRead name]
  end.

(** The transcript texts of a document, in order. *)
Definition texts (parts : list part) : list string :=
  flat_map (fun p => match p with Text c => [c] | _ => [] end) parts.

(** The transcript the transcriber writes for segment [segment_index]. *)
Definition segment_transcript (segment_index : nat) : string :=
  transcript_name (Extractor.segment_filename segment_index).

(** Ascending order of segment indices. *)
Fixpoint insert_index (x : nat) (l : list nat) : list nat :=
  match l with
  | [] => [x]
  | y :: l' => if (y <? x)%nat then y :: insert_index x l' else x :: y :: l'
  end.

Fixpoint sort_indices (l : list nat) : list nat :=
  match l with
  | [] => []
  | x :: l' => insert_index x (sort_indices l')
  end.

(** The largest index that [f"{n:03d}"] writes with three digits. *)
Definition last_padded : nat := 999.

Definition used_fallback (r : merged) : Prop :=
  exists n, In (FoundTranscriptFiles n) (log r).

Definition used_ledger (r : merged) : Prop :=
  exists n, In (FoundSegments n) (log r).

(** A ledger of two records and a directory that holds the transcript of
    the second only. *)
Definition two_records : metadata :=
  {| source_file := Some "meeting.wav";
     total_segments := Some 2%nat;
     segments := Some [Seg.mk "segment_001.wav" (Some 0) (Some (Q2Qc 41));
                       Seg.mk "segment_002.wav" (Some (Q2Qc 41)) None] |}.

Definition second_only : directory :=
  [("segment_002.txt", Readable "  hello  ")].

(** U+3000 (ideographic space) followed by U+00A0 (no-break space), in
    UTF-8: a text that [str.strip] empties. *)
Definition wide_blank : string :=
  String (ascii_of_nat 227) (String (ascii_of_nat 128)
    (String (ascii_of_nat 128) (String (ascii_of_nat 194)
      (String (ascii_of_nat 160) "")))).

(** A directory listed out of order, with a transcript that cannot be
    read, one that holds white space only, and files that are not
    transcripts. *)
Definition mixed_directory : directory :=
  [("segment_010.txt", Readable "ten");
   ("notes.txt", Readable "not a transcript");
   ("segment_002.txt", Readable ("  two" ++ wide_blank));
   ("segment_003.txt", Readable wide_blank);
   ("segment_002.wav", Readable "RIFF");
   ("segment_001.txt", Unreadable)].

(** A ledger of three records for [mixed_directory]. *)
Definition three_records : metadata :=
  {| source_file := Some "meeting.wav";
     total_segments := Some 3%nat;
     segments := Some [Seg.mk "segment_002.wav" (Some 0) (Some (Q2Qc 41));
                       Seg.mk "segment_003.wav" (Some (Q2Qc 41))
                         (Some (Q2Qc 100));
                       Seg.mk "segment_010.wav" (Some (Q2Qc 100)) None] |}.

Definition empty_ledger : metadata :=
  {| source_file := Some "meeting.wav";
     total_segments := Some 0%nat;
     segments := Some [] |}.

End Reassembler.

(** ** Further notions used by the statements of Part II *)

Module Counting.
Import PyStr.

(** How many of the lines contain [sub]. *)
Definition lines_with (sub : string) (lines : list string) : nat :=
  List.length (filter (contains sub) lines).

(** Whether a start is pending in a state of the scan. *)
Definition pending (st : SilenceParser.scan) : nat :=
  match snd st with Some _ => 1%nat | None => 0%nat end.

End Counting.

Module Cuts.
Import AudioSplitter Windows.

(** Where a window of the plan may start: at 0 or at the midpoint of a
    detected silence. *)
Definition cut_start {A : arithmetic} (silences : list SilenceSegment.t)
           (x : time) : Prop :=
  x = 0 \/ exists s, In s silences /\ x = split_point_of s.

(** Where a window of the plan may end: at the end of the recording or at
    the midpoint of a detected silence. *)
Definition cut_end {A : arithmetic} (silences : list SilenceSegment.t)
           (total_duration : time) (x : time) : Prop :=
  x = total_duration \/ exists s, In s silences /\ x = split_point_of s.

Definition well_cut {A : arithmetic} (silences : list SilenceSegment.t)
           (total_duration : time) (w : window) : Prop :=
  cut_start silences (w_start w) /\ cut_end silences total_duration (w_end w).

End Cuts.

Module Decode.

(** The number a run of decimal digits denotes, leading zeros allowed. *)
Definition index_of_digits (s : string) : option nat :=
  option_map Nat.of_uint (NilEmpty.uint_of_string s).

(** One record ends before the next one starts. *)
Definition before (r1 r2 : AudioSegment.t) : Prop :=
  AudioSegment.end_time r1 <= AudioSegment.start_time r2.

End Decode.

Module NameOrder.
Import Reassembler.

(** [a <= b] in the order of [sorted]: [b] is not less than [a]. *)
Definition name_le (a b : string) : Prop := name_ltb b a = false.

End NameOrder.

Module Blocks.
Import Reassembler.

(** The block the merged document holds for an extracted segment. *)
Definition record_block (dir : directory) (r : AudioSegment.t) : list part :=
  match text_of dir (transcript_name (AudioSegment.filename r)) with
  | Some content =>
      [HeaderTimed (AudioSegment.filename r) (AudioSegment.start_time r)
         (AudioSegment.end_time r);
       Text content; Blank]
  | None => []
  end.

(** A block is empty or a header, a non-empty text and a blank line. *)
Definition shaped (b : list part) : Prop :=
  b = [] \/
  exists h c,
    b = [h; Text c; Blank] /\ PyStr.is_empty c = false /\
    forall c', h <> Text c'.

End Blocks.

(** ** [multilang_batch.py]: the batch around the reassembly *)

Module Batch.
Import PyStr Reassembler.
Local Open Scope string_scope.

(** [audio_extensions], a Python set. *)
Definition audio_extensions : list string :=
  [".wav"; ".mp3"; ".m4a"; ".flac"; ".aac"; ".ogg"].

(** [find_audio_files]: [extensions] is the set in the order in which Python
    happens to iterate it, [names] the directory in listing order;
    [glob(f'*{ext}')] keeps the names that end with [ext]. *)
Definition find_audio_files (extensions names : list string) : list string :=
  sorted (flat_map (fun ext => filter (endswith ext) names) extensions).

(** A file of the segments directory: its size, and whether [stat] and
    [unlink] succeed on it. *)
Record entry : Type := { size : nat; removable : bool }.

(** [glob("segment_*.wav")] on a file name. *)
Definition glob_wav (name : string) : bool :=
  String.prefix "segment_" name && endswith ".wav" name &&
  (12 <=? String.length name)%nat.

(** One file seen by [cleanup_segments]; the state is the files left in
    the directory, [removed_count] and [removed_size]. *)
Definition cleanup_step (st : list (string * entry) * nat * nat)
           (f : string * entry) : list (string * entry) * nat * nat :=
  let '(left_over, removed_count, removed_size) := st in
  if glob_wav (fst f) then
    if removable (snd f)
    then (left_over, S removed_count, (removed_size + size (snd f))%nat)
    else ((left_over ++ [f])%list, removed_count, removed_size)
  else ((left_over ++ [f])%list, removed_count, removed_size).

(** [cleanup_segments]: the directory afterwards, the bytes removed and the
    returned flag [removed_count > 0]. *)
Definition cleanup_segments (dir : list (string * entry))
  : list (string * entry) * nat * bool :=
  let '(left_over, removed_count, removed_size) :=
    fold_left cleanup_step dir ([], 0%nat, 0%nat) in
  (left_over, removed_size, (0 <? removed_count)%nat).

(** Whether [cleanup_segments] removes a file. *)
Definition removed (f : string * entry) : bool :=
  glob_wav (fst f) && removable (snd f).

(** A [result] dictionary of the pipeline, as [merge_all_transcripts] reads
    it.  [merged_file] is [None] when the result has no [segments_dir],
    [Some None] when [merged_transcript.txt] does not exist there. *)
Record pipeline_result : Type := {
  file : string;
  success : bool;
  merged_file : option (option Reassembler.file)
}.

(** An entry of [transcript_data]. *)
Record meeting : Type := {
  filename : string;
  meeting_name : string;
  date_str : string;
  content : string
}.

(** The date label read from [meeting_YYYYMMDD_HHMMSS]. *)
Definition date_of (meeting_name : string) : string :=
  let parts := split "_" meeting_name in
  if (3 <=? List.length parts)%nat then
    let date_part := nth (List.length parts - 2) parts "" in
    let time_part := nth (List.length parts - 1) parts "" in
    let year := String.substring 0 4 date_part in
    let month := String.substring 4 2 date_part in
    let day := String.substring 6 2 date_part in
    let hour := String.substring 0 2 time_part in
    let minute := String.substring 2 2 time_part in
    let second := String.substring 4 2 time_part in
    year ++ "-" ++ month ++ "-" ++ day ++ " " ++
    hour ++ ":" ++ minute ++ ":" ++ second
  else "Unknown date".

(** The body of [for result in results]. *)
Definition collect (transcript_data : list meeting) (r : pipeline_result)
  : list meeting :=
  if negb (success r) then transcript_data
  else
    match merged_file r with
    | Some (Some (Readable text)) =>
        let content := strip text in
        if negb (is_empty content) then
          let meeting_name := stem (file r) in
          (transcript_data ++
             [{| filename := file r; meeting_name := meeting_name;
                 date_str := date_of meeting_name; content := content |}])%list
        else transcript_data
    | _ => transcript_data
    end.

Definition transcript_data (results : list pipeline_result) : list meeting :=
  fold_left collect results [].

(** [transcript_data.sort(key=lambda x: x['filename'])], a stable sort. *)
Fixpoint insert_meeting (x : meeting) (l : list meeting) : list meeting :=
  match l with
  | [] => [x]
  | y :: l' =>
      if name_ltb (filename y) (filename x)
      then y :: insert_meeting x l' else x :: y :: l'
  end.

Fixpoint sort_meetings (l : list meeting) : list meeting :=
  match l with
  | [] => []
  | x :: l' => insert_meeting x (sort_meetings l')
  end.

(** ["=" * n]. *)
Fixpoint equals (n : nat) : string :=
  match n with
  | O => ""
  | S n' => String "=" (equals n')
  end.

(** The lines of one meeting, numbered [i] of [n]. *)
Definition section_of (n : nat) (numbered : nat * meeting) : list string :=
  let '(i, data) := numbered in
  [""; equals 70;
   "Meeting " ++ Extractor.decimal i ++ "/" ++ Extractor.decimal n ++ ": "
     ++ meeting_name data;
   "Date: " ++ date_str data;
   "Source file: " ++ filename data;
   equals 70; ""; content data; ""].

(** [master_parts]; [now] is the formatted time of the run. *)
Definition master_parts (now : string) (data : list meeting) : list string :=
  let n := List.length data in
  List.app
    [equals 70; "MASTER TRANSCRIPT - ALL MEETINGS"; "Generated: " ++ now;
     "Total meetings: " ++ Extractor.decimal n; equals 70; ""]
    (flat_map (section_of n) (combine (seq 1 n) data)).

(** [merge_all_transcripts]: the lines written to
    [all_meetings_transcript.txt], or [None]. *)
Definition merge_all_transcripts (now : string)
           (results : list pipeline_result) (write_ok : bool)
  : option (list string) :=
  match transcript_data results with
  | [] => None
  | data =>
      let parts := master_parts now (sort_meetings data) in
      if write_ok then Some parts else None
  end.

(** What a result contributes to [transcript_data]. *)
Definition contribution (r : pipeline_result) : list meeting :=
  collect [] r.

(** One meeting is not after another in file name order. *)
Definition meeting_le (a b : meeting) : Prop :=
  name_ltb (filename b) (filename a) = false.

End Batch.


(** ** [audio_splitter.py]: the silence ratio read from ffmpeg's output *)

Module RatioParser.
Import PyStr SilenceParser.
Local Open Scope string_scope.

Section WithFloat.

Context {A : arithmetic}.

Variable float : string -> option time.

(** A line that reports the length of a silence. *)
Definition duration_line (line : string) : bool :=
  contains "silencedetect" line && contains "silence_duration" line.

(** The body of the loop of [calculate_segment_silence_ratio]. *)
Definition add_silence (total_silence : time) (line : string) : result time :=
  if contains "silencedetect" line && contains "silence_duration" line then
    let parts := split "silence_duration:" line in
    if (1 <? List.length parts)%nat then
      x <- first_float float (nth 1 parts "") ;;
      Ok (add total_silence x)
    else Ok total_silence
  else Ok total_silence.

Fixpoint sum_silences (total_silence : time) (lines : list string)
  : result time :=
  match lines with
  | [] => Ok total_silence
  | line :: rest =>
      total <- add_silence total_silence line ;; sum_silences total rest
  end.

(** [calculate_segment_silence_ratio], from the text ffmpeg wrote to
    stderr for the window and the window's duration. *)
Definition silence_ratio_of_output (stderr : string) (duration : time)
  : result time :=
  total_silence <- sum_silences 0 (split newline stderr) ;;
  Ok (if gtb duration 0 then div total_silence duration else 0).

End WithFloat.

End RatioParser.

(* ================================================================== *)
(** * Part II: properties *)
(* ================================================================== *)

(** ** Arithmetic on seconds *)

Section TimeFacts.

Lemma this_plus (x y : Qc) : (this (x + y) == this x + this y)%Q.
Proof. unfold Qcplus, Q2Qc; cbn [this]; apply Qred_correct. Qed.

Lemma this_opp (x : Qc) : (this (- x) == - this x)%Q.
Proof. unfold Qcopp, Q2Qc; cbn [this]; apply Qred_correct. Qed.

Lemma this_minus (x y : Qc) : (this (x - y) == this x - this y)%Q.
Proof. unfold Qcminus. rewrite this_plus, this_opp. reflexivity. Qed.

Lemma this_mult (x y : Qc) : (this (x * y) == this x * this y)%Q.
Proof. unfold Qcmult, Q2Qc; cbn [this]; apply Qred_correct. Qed.

Lemma this_Q2Qc (q : Q) : (this (Q2Qc q) == q)%Q.
Proof. unfold Q2Qc; cbn [this]; apply Qred_correct. Qed.

Lemma this_half (x : Qc) : (this (x / two) == this x * (1 # 2))%Q.
Proof.
  unfold Qcdiv, Qcinv, two. rewrite this_mult, !this_Q2Qc. reflexivity.
Qed.

Lemma this_of_nat (n : nat) : (this (of_nat n) == inject_Z (Z.of_nat n))%Q.
Proof. unfold of_nat. apply this_Q2Qc. Qed.

Lemma Qc_eq_this (x y : Qc) : x = y <-> (this x == this y)%Q.
Proof. split; [intros ->; reflexivity | apply Qc_is_canon]. Qed.

Lemma leb_le (x y : time) : leb x y = true <-> x <= y.
Proof. unfold leb, Qcle. apply Qle_bool_iff. Qed.

Lemma ltb_lt (x y : time) : ltb x y = true <-> x < y.
Proof.
  unfold ltb, Qclt. rewrite negb_true_iff, <- not_true_iff_false, Qle_bool_iff.
  split; [apply Qnot_le_lt | apply Qlt_not_le].
Qed.

Lemma leb_gt (x y : time) : leb x y = false <-> y < x.
Proof.
  unfold leb, Qclt. rewrite <- not_true_iff_false, Qle_bool_iff.
  split; [apply Qnot_le_lt | apply Qlt_not_le].
Qed.

Lemma ltb_ge (x y : time) : ltb x y = false <-> y <= x.
Proof. unfold ltb, Qcle. rewrite negb_false_iff. apply Qle_bool_iff. Qed.

Lemma eqb_eq (x y : time) : eqb x y = true <-> x = y.
Proof. unfold eqb. rewrite Qeq_bool_iff. symmetry. apply Qc_eq_this. Qed.

Lemma add_ideal (x y : time) : @add ideal x y = x + y.
Proof. reflexivity. Qed.

Lemma sub_ideal (x y : time) : @sub ideal x y = x - y.
Proof. reflexivity. Qed.

Lemma div_ideal (x y : time) : @div ideal x y = x / y.
Proof. reflexivity. Qed.

Lemma sec_ideal (q : Q) : @sec ideal q = Q2Qc q.
Proof. reflexivity. Qed.

End TimeFacts.

(** ** The rounding of binary64 *)

Section Binary64Facts.
Import Binary64.
Local Open Scope Q_scope.

Lemma nearest_even_lower (a b : Z) :
  (0 <= a)%Z -> (0 < b)%Z -> (2 * a - b <= 2 * b * nearest_even a b)%Z.
Proof.
  intros Ha Hb. unfold nearest_even.
  pose proof (Z.div_mod a b ltac:(lia)) as Hdm.
  pose proof (Z.mod_pos_bound a b Hb) as Hr.
  destruct (Z.compare_spec (2 * (a mod b)) b) as [He | Hl | Hg].
  - destruct (Z.even (a / b)); nia.
  - nia.
  - nia.
Qed.

Lemma two_neq_0 : ~ 2 == 0.
Proof. intros H. discriminate H. Qed.

Lemma pow2_pos (e : Z) : 0 < 2 ^ e.
Proof. apply Qpower_0_lt. reflexivity. Qed.

Lemma inject_pow2 (p : Z) : (0 <= p)%Z -> inject_Z (2 ^ p) == 2 ^ p.
Proof. intros H. apply (Zpower_Qpower 2 p H). Qed.

Lemma floor_log2_lower (n d : positive) :
  2 ^ floor_log2 (Zpos n) (Zpos d) <= Zpos n # d.
Proof.
  unfold floor_log2. cbn [Z.to_pos].
  destruct (Qle_bool _ _) eqn:E; [apply Qle_bool_iff; exact E|].
  clear E.
  pose proof (Z.log2_spec (Zpos n) ltac:(lia)) as (Hn & _).
  pose proof (Z.log2_spec (Zpos d) ltac:(lia)) as (_ & Hd).
  pose proof (Z.log2_nonneg (Zpos n)) as Hn0.
  pose proof (Z.log2_nonneg (Zpos d)) as Hd0.
  replace (Z.log2 (Zpos n) - Z.log2 (Zpos d) - 1)%Z
    with (Z.log2 (Zpos n) - Z.succ (Z.log2 (Zpos d)))%Z by lia.
  rewrite (Qpower_minus 2 _ _ two_neq_0).
  rewrite <- !inject_pow2 by lia.
  set (a := (2 ^ Z.log2 (Zpos n))%Z) in *.
  set (b := (2 ^ Z.succ (Z.log2 (Zpos d)))%Z) in *.
  assert (Hb : (0 < b)%Z) by lia.
  apply Qle_shift_div_r;
    [change 0 with (inject_Z 0); rewrite <- Zlt_Qlt; exact Hb|].
  unfold Qle, Qmult, inject_Z. cbn [Qnum Qden].
  rewrite Z.mul_1_r. rewrite Pos.mul_1_r.
  assert (0 < a)%Z by (unfold a; apply Z.pow_pos_nonneg; lia).
  nia.
Qed.

Lemma nearest_even_upper (a b : Z) :
  (0 <= a)%Z -> (0 < b)%Z -> (2 * b * nearest_even a b <= 2 * a + b)%Z.
Proof.
  intros Ha Hb. unfold nearest_even.
  pose proof (Z.div_mod a b ltac:(lia)) as Hdm.
  pose proof (Z.mod_pos_bound a b Hb) as Hr.
  destruct (Z.compare_spec (2 * (a mod b)) b) as [He | Hl | Hg].
  - destruct (Z.even (a / b)); nia.
  - nia.
  - nia.
Qed.

Lemma floor_log2_upper (n d : positive) :
  Zpos n # d < 2 ^ (floor_log2 (Zpos n) (Zpos d) + 1).
Proof.
  unfold floor_log2. cbn [Z.to_pos].
  destruct (Qle_bool _ _) eqn:E.
  - clear E.
    pose proof (Z.log2_spec (Zpos n) ltac:(lia)) as (_ & Hn).
    pose proof (Z.log2_spec (Zpos d) ltac:(lia)) as (Hd & _).
    pose proof (Z.log2_nonneg (Zpos n)) as Hn0.
    pose proof (Z.log2_nonneg (Zpos d)) as Hd0.
    replace (Z.log2 (Zpos n) - Z.log2 (Zpos d) + 1)%Z
      with (Z.succ (Z.log2 (Zpos n)) - Z.log2 (Zpos d))%Z by lia.
    rewrite (Qpower_minus 2 _ _ two_neq_0).
    rewrite <- !inject_pow2 by lia.
    set (a := (2 ^ Z.succ (Z.log2 (Zpos n)))%Z) in *.
    set (b := (2 ^ Z.log2 (Zpos d))%Z) in *.
    assert (Hb : (0 < b)%Z) by (unfold b; apply Z.pow_pos_nonneg; lia).
    apply Qlt_shift_div_l;
      [change 0 with (inject_Z 0); rewrite <- Zlt_Qlt; exact Hb|].
    unfold Qlt, Qmult, inject_Z. cbn [Qnum Qden].
    rewrite Z.mul_1_r. nia.
  - replace (Z.log2 (Zpos n) - Z.log2 (Zpos d) - 1 + 1)%Z
      with (Z.log2 (Zpos n) - Z.log2 (Zpos d))%Z by lia.
    apply Qnot_le_lt. intros H. apply Qle_bool_iff in H. congruence.
Qed.

(** [round_positive] gives a multiple [m * 2^e] of a power of two that is
    at least the least one of the format, with [m] of at most 53 bits and
    of 53 bits exactly above the subnormal numbers, and at most half of
    [2^e] away from the number rounded. *)
Lemma round_positive_spec (n d : positive) :
  exists m e : Z,
    round_positive (Zpos n) (Zpos d) == inject_Z m * 2 ^ e /\
    (least_exponent <= e)%Z /\
    (0 <= m <= 2 ^ precision)%Z /\
    (e = least_exponent \/ (2 ^ (precision - 1) <= m)%Z) /\
    (Zpos n # d) - (1 # 2) * 2 ^ e <= inject_Z m * 2 ^ e /\
    inject_Z m * 2 ^ e <= (Zpos n # d) + (1 # 2) * 2 ^ e.
Proof.
  unfold round_positive.
  set (fl := floor_log2 (Zpos n) (Zpos d)).
  set (e := Z.max (fl - (precision - 1)) least_exponent).
  set (a := (Zpos n * 2 ^ Z.max (- e) 0)%Z).
  set (b := (Zpos d * 2 ^ Z.max e 0)%Z).
  set (x := Zpos n # d).
  assert (Hp : (0 < 2 ^ Z.max (- e) 0)%Z) by (apply Z.pow_pos_nonneg; lia).
  assert (Hq : (0 < 2 ^ Z.max e 0)%Z) by (apply Z.pow_pos_nonneg; lia).
  assert (Ha : (0 <= a)%Z) by (unfold a; nia).
  assert (Hb : (0 < b)%Z) by (unfold b; nia).
  pose proof (nearest_even_lower a b Ha Hb) as Hlo.
  pose proof (nearest_even_upper a b Ha Hb) as Hhi.
  set (m := nearest_even a b) in *.
  pose proof (pow2_pos e) as HP.
  pose proof (pow2_pos (- e)) as HP'.
  assert (Hbq : 0 < inject_Z b)
    by (change 0 with (inject_Z 0); rewrite <- Zlt_Qlt; exact Hb).
  assert (Hscale : inject_Z a == x * 2 ^ (- e) * inject_Z b).
  { unfold a, b. rewrite !inject_Z_mult, !inject_pow2 by lia.
    assert (Hx : inject_Z (Zpos n) == x * inject_Z (Zpos d)).
    { unfold x, Qeq, Qmult, inject_Z. cbn [Qnum Qden]. lia. }
    rewrite Hx.
    assert (Hpow : 2 ^ Z.max (- e) 0 == 2 ^ (- e) * 2 ^ Z.max e 0).
    { rewrite <- (Qpower_plus 2 _ _ two_neq_0). f_equiv. lia. }
    rewrite Hpow. ring. }
  assert (Hinv : 2 ^ (- e) * 2 ^ e == 1).
  { rewrite <- (Qpower_plus 2 _ _ two_neq_0).
    replace (- e + e)%Z with 0%Z by lia. reflexivity. }
  (* m against the scaled number *)
  assert (Hm1 : x * 2 ^ (- e) - (1 # 2) <= inject_Z m).
  { apply (Qmult_le_r _ _ (2 * inject_Z b)); [lra|].
    assert (H2 : (2 * a <= 2 * b * m + b)%Z) by lia.
    rewrite Zle_Qle, inject_Z_plus, !inject_Z_mult in H2.
    change (inject_Z 2) with 2 in H2. rewrite Hscale in H2.
    setoid_replace ((x * 2 ^ (- e) - (1 # 2)) * (2 * inject_Z b))
      with (2 * (x * 2 ^ (- e) * inject_Z b) - inject_Z b) by ring.
    lra. }
  assert (Hm2 : inject_Z m <= x * 2 ^ (- e) + (1 # 2)).
  { apply (Qmult_le_r _ _ (2 * inject_Z b)); [lra|].
    assert (H2 : (2 * b * m <= 2 * a + b)%Z) by lia.
    rewrite Zle_Qle, inject_Z_plus, !inject_Z_mult in H2.
    change (inject_Z 2) with 2 in H2. rewrite Hscale in H2.
    setoid_replace ((x * 2 ^ (- e) + (1 # 2)) * (2 * inject_Z b))
      with (2 * (x * 2 ^ (- e) * inject_Z b) + inject_Z b) by ring.
    lra. }
  (* the scaled number against the powers of two *)
  assert (Hup : x * 2 ^ (- e) < 2 ^ precision).
  { assert (H : x < 2 ^ (e + precision)).
    { eapply Qlt_le_trans; [apply floor_log2_upper|]. fold fl.
      apply Qpower_le_compat_l; [unfold e, precision; lia | lra]. }
    rewrite (Qpower_plus 2 _ _ two_neq_0) in H.
    apply (Qmult_lt_r _ _ (2 ^ e)); [exact HP|].
    setoid_replace (x * 2 ^ (- e) * 2 ^ e) with (x * (2 ^ (- e) * 2 ^ e))
      by ring.
    rewrite Hinv. setoid_replace (2 ^ precision * 2 ^ e)
      with (2 ^ e * 2 ^ precision) by ring. lra. }
  assert (Hdown : e = least_exponent \/ 2 ^ (precision - 1) <= x * 2 ^ (- e)).
  { unfold e at 1. destruct (Z.max_spec (fl - (precision - 1)) least_exponent)
      as [(_ & H) | (_ & H)]; [left; exact H | right].
    assert (He : e = (fl - (precision - 1))%Z) by (unfold e; lia).
    assert (Hfl : 2 ^ (e + (precision - 1)) <= x).
    { rewrite He. replace (fl - (precision - 1) + (precision - 1))%Z
        with fl by lia. apply floor_log2_lower. }
    rewrite (Qpower_plus 2 _ _ two_neq_0) in Hfl.
    apply (Qmult_le_r _ _ (2 ^ e)); [exact HP|].
    setoid_replace (x * 2 ^ (- e) * 2 ^ e) with (x * (2 ^ (- e) * 2 ^ e))
      by ring.
    rewrite Hinv. setoid_replace (2 ^ (precision - 1) * 2 ^ e)
      with (2 ^ e * 2 ^ (precision - 1)) by ring. lra. }
  exists m, e. split; [reflexivity|].
  split; [unfold e; lia|]. split; [|split; [|split]].
  - split.
    + assert (H : -1 < inject_Z m).
      { assert (0 <= x * 2 ^ (- e)).
        { apply Qmult_le_0_compat; [unfold x, Qle; cbn; lia | lra]. }
        lra. }
      change (-1) with (inject_Z (-1)) in H. rewrite <- Zlt_Qlt in H. lia.
    + assert (H : inject_Z m < inject_Z (2 ^ precision + 1)).
      { rewrite inject_Z_plus, inject_pow2 by (unfold precision; lia).
        change (inject_Z 1) with 1. lra. }
      rewrite <- Zlt_Qlt in H. lia.
  - destruct Hdown as [H | H]; [left; exact H | right].
    assert (H' : inject_Z (2 ^ (precision - 1) - 1) < inject_Z m).
    { unfold Z.sub.
      rewrite inject_Z_plus, inject_pow2 by (unfold precision; lia).
      change (inject_Z (- (1))) with (-1).
      change (precision + - (1))%Z with (precision - 1)%Z. lra. }
    rewrite <- Zlt_Qlt in H'. lia.
  - assert (H : (x * 2 ^ (- e) - (1 # 2)) * 2 ^ e <= inject_Z m * 2 ^ e)
      by (apply Qmult_le_compat_r; [exact Hm1 | lra]).
    setoid_replace ((x * 2 ^ (- e) - (1 # 2)) * 2 ^ e)
      with (x * (2 ^ (- e) * 2 ^ e) - (1 # 2) * 2 ^ e) in H by ring.
    rewrite Hinv in H. lra.
  - assert (H : inject_Z m * 2 ^ e <= (x * 2 ^ (- e) + (1 # 2)) * 2 ^ e)
      by (apply Qmult_le_compat_r; [exact Hm2 | lra]).
    setoid_replace ((x * 2 ^ (- e) + (1 # 2)) * 2 ^ e)
      with (x * (2 ^ (- e) * 2 ^ e) + (1 # 2) * 2 ^ e) in H by ring.
    rewrite Hinv in H. lra.
Qed.

(** Above the subnormal numbers rounding loses at most one part in
    [2^53]. *)
Lemma round_positive_lower (n d : positive) :
  2 ^ (-1022) <= Zpos n # d ->
  (Zpos n # d) * (1 - epsilon) <= round_positive (Zpos n) (Zpos d).
Proof.
  intros Hnormal. unfold round_positive.
  set (e := Z.max (floor_log2 (Zpos n) (Zpos d) - (precision - 1))
              least_exponent).
  set (a := (Zpos n * 2 ^ Z.max (- e) 0)%Z).
  set (b := (Zpos d * 2 ^ Z.max e 0)%Z).
  set (x := Zpos n # d) in *.
  assert (Hp : (0 < 2 ^ Z.max (- e) 0)%Z) by (apply Z.pow_pos_nonneg; lia).
  assert (Hq : (0 < 2 ^ Z.max e 0)%Z) by (apply Z.pow_pos_nonneg; lia).
  assert (Ha : (0 <= a)%Z) by (unfold a; nia).
  assert (Hb : (0 < b)%Z) by (unfold b; nia).
  pose proof (nearest_even_lower a b Ha Hb) as Hm.
  set (m := nearest_even a b) in *.
  pose proof (pow2_pos e) as HP.
  (* the scaled quotient *)
  assert (Hscale : inject_Z a == x * 2 ^ (- e) * inject_Z b).
  { unfold a, b. rewrite !inject_Z_mult, !inject_pow2 by lia.
    assert (Hx : inject_Z (Zpos n) == x * inject_Z (Zpos d)).
    { unfold x, Qeq, Qmult, inject_Z. cbn [Qnum Qden]. lia. }
    rewrite Hx.
    assert (Hpow : 2 ^ Z.max (- e) 0 == 2 ^ (- e) * 2 ^ Z.max e 0).
    { rewrite <- (Qpower_plus 2 _ _ two_neq_0). f_equiv. lia. }
    rewrite Hpow. ring. }
  (* m >= a/b - 1/2 *)
  assert (Hm' : x * 2 ^ (- e) - (1 # 2) <= inject_Z m).
  { assert (Hbq : 0 < inject_Z b)
      by (change 0 with (inject_Z 0); rewrite <- Zlt_Qlt; exact Hb).
    apply (Qmult_le_r _ _ (2 * inject_Z b)); [lra|].
    assert (H1 : 2 * inject_Z a - inject_Z b <= 2 * inject_Z b * inject_Z m).
    { assert (H2 : (2 * a <= 2 * b * m + b)%Z) by lia.
      rewrite Zle_Qle, inject_Z_plus, !inject_Z_mult in H2.
      change (inject_Z 2) with 2 in H2. lra. }
    rewrite Hscale in H1.
    setoid_replace ((x * 2 ^ (- e) - (1 # 2)) * (2 * inject_Z b))
      with (2 * (x * 2 ^ (- e) * inject_Z b) - inject_Z b) by ring.
    setoid_replace (inject_Z m * (2 * inject_Z b))
      with (2 * inject_Z b * inject_Z m) by ring.
    exact H1. }
  (* the unit in the last place against x *)
  assert (Hulp : 2 ^ e * 2 ^ 52 <= x).
  { rewrite <- (Qpower_plus 2 _ _ two_neq_0).
    unfold e.
    destruct (Z.max_spec (floor_log2 (Zpos n) (Zpos d) - (precision - 1))
                least_exponent) as [(_ & ->) | (_ & ->)].
    - exact Hnormal.
    - replace (floor_log2 (Zpos n) (Zpos d) - (precision - 1) + 52)%Z
        with (floor_log2 (Zpos n) (Zpos d)) by (unfold precision; lia).
      apply floor_log2_lower. }
  assert (Hinv : 2 ^ (- e) * 2 ^ e == 1).
  { rewrite <- (Qpower_plus 2 _ _ two_neq_0).
    replace (- e + e)%Z with 0%Z by lia. reflexivity. }
  assert (Hmul : (x * 2 ^ (- e) - (1 # 2)) * 2 ^ e <= inject_Z m * 2 ^ e).
  { apply Qmult_le_compat_r; [exact Hm' | apply Qlt_le_weak; exact HP]. }
  setoid_replace ((x * 2 ^ (- e) - (1 # 2)) * 2 ^ e)
    with (x * (2 ^ (- e) * 2 ^ e) - (1 # 2) * 2 ^ e) in Hmul by ring.
  rewrite Hinv in Hmul.
  unfold epsilon.
  change (2 ^ 52) with (4503599627370496 # 1) in Hulp.
  change (2 ^ (-53)) with (1 # 9007199254740992).
  lra.
Qed.


Lemma round53_lower (x : time) :
  (least_normal <= x)%Qc ->
  (x * Q2Qc (1 - epsilon) <= round53 x)%Qc.
Proof.
  intros Hx. unfold Qcle in *. unfold least_normal in Hx.
  rewrite this_Q2Qc in Hx. rewrite this_mult, this_Q2Qc.
  pose proof (pow2_pos (-1022)) as Hpos.
  destruct x as [[n d] Hcanon]. unfold round53. cbn [this Qnum Qden] in *.
  destruct n as [|n|n].
  - exfalso. unfold Qle in Hx. unfold Qlt in Hpos. cbn [Qnum Qden] in *. lia.
  - rewrite this_Q2Qc. apply round_positive_lower. exact Hx.
  - exfalso. unfold Qle in Hx. unfold Qlt in Hpos. cbn [Qnum Qden] in *. lia.
Qed.

(** In binary64 a sum with [max_len] advances by a quarter of [max_len]
    at least, as long as [max_len] is a normal number and the recording
    is not longer than [2^52] tiles. *)
Lemma binary64_advances (total_duration max_len : time) :
  (least_normal <= max_len)%Qc ->
  (total_duration <= two_to_52 * max_len)%Qc ->
  forall c : time,
    (0 <= c)%Qc -> (c < total_duration)%Qc ->
    (c + max_len * Q2Qc (1 # 4) <= add (A := binary64) c max_len)%Qc.
Proof.
  intros Hmin HT c Hc HcT. unfold add. cbn [round binary64].
  assert (Hx : (least_normal <= c + max_len)%Qc).
  { unfold Qcle in *. rewrite this_plus. change (this 0) with 0 in Hc. lra. }
  pose proof (round53_lower (c + max_len)%Qc Hx) as Hr.
  pose proof (pow2_pos (-1022)) as Hpos.
  set (r := round53 (c + max_len)%Qc) in *.
  unfold Qcle, Qclt, least_normal, two_to_52 in *.
  rewrite this_mult, this_plus, this_Q2Qc in Hr.
  rewrite this_mult, this_Q2Qc in HT. rewrite this_Q2Qc in Hmin.
  rewrite this_plus, this_mult, this_Q2Qc.
  change (this 0) with 0 in Hc. unfold epsilon in Hr.
  change (2 ^ 52) with (4503599627370496 # 1) in HT.
  change (2 ^ (-53)) with (1 # 9007199254740992) in Hr.
  lra.
Qed.

End Binary64Facts.

(** On the samples, reading a decimal number, adding, subtracting and
    dividing give in the model what the reference implementation of the
    Standard Library gives. *)
Lemma binary64_agrees_with_reference :
  forallb (Binary64.agrees (add (A := binary64)) (SpecFloat.SFadd 53 1024))
          Binary64.samples = true /\
  forallb (Binary64.agrees (sub (A := binary64)) (SpecFloat.SFsub 53 1024))
          Binary64.samples = true /\
  forallb (Binary64.agrees (div (A := binary64)) (SpecFloat.SFdiv 53 1024))
          Binary64.samples = true /\
  forallb (Binary64.agrees (fun x _ => x) (fun x _ => x))
          Binary64.samples = true.
Proof. repeat split; vm_compute; reflexivity. Qed.

(** In arithmetic without rounding the operations are those of [Qc]. *)
Ltac ideal_arith :=
  repeat match goal with
    | |- context [@add ideal ?x ?y] =>
        change (@add ideal x y) with (x + y) in *
    | |- context [@sub ideal ?x ?y] =>
        change (@sub ideal x y) with (x - y) in *
    | |- context [@div ideal ?x ?y] =>
        change (@div ideal x y) with (x / y) in *
    | |- context [@sec ideal ?q] =>
        change (@sec ideal q) with (Q2Qc q) in *
    | H : context [@add ideal ?x ?y] |- _ =>
        change (@add ideal x y) with (x + y) in *
    | H : context [@sub ideal ?x ?y] |- _ =>
        change (@sub ideal x y) with (x - y) in *
    | H : context [@div ideal ?x ?y] |- _ =>
        change (@div ideal x y) with (x / y) in *
    | H : context [@sec ideal ?q] |- _ =>
        change (@sec ideal q) with (Q2Qc q) in *
    end.

(** Comparisons on [Qc] are moved to [Q], where [lra] decides them. *)
Ltac qc_to_q :=
  ideal_arith;
  repeat match goal with
    | H : @eq Qc _ _ |- _ => apply Qc_eq_this in H
    | H : @eq time _ _ |- _ => apply Qc_eq_this in H
    | H : ~ @eq Qc _ _ |- _ => rewrite Qc_eq_this in H
    | |- @eq Qc _ _ => apply Qc_is_canon
    | |- @eq time _ _ => apply Qc_is_canon
    | |- ~ @eq Qc _ _ => rewrite Qc_eq_this
    end;
  unfold Qcle, Qclt in *;
  repeat rewrite ?this_half, ?this_plus, ?this_minus, ?this_opp, ?this_mult,
    ?this_of_nat, ?this_Q2Qc in *.

Ltac qc_lra := qc_to_q; lra.

(** Case analysis on the comparisons the code branches on. *)
Ltac cmp_cases :=
  repeat match goal with
    | |- context [ltb ?a ?b] =>
        let E := fresh "E" in
        destruct (ltb a b) eqn:E; [apply ltb_lt in E | apply ltb_ge in E]
    | |- context [leb ?a ?b] =>
        let E := fresh "E" in
        destruct (leb a b) eqn:E; [apply leb_le in E | apply leb_gt in E]
    end.

(** ** Chains of windows *)

Section ChainFacts.
Import AudioSplitter Windows.

Lemma chain_app a ws1 m ws2 b :
  chain a ws1 m -> chain m ws2 b -> chain a (ws1 ++ ws2) b.
Proof.
  revert a. induction ws1 as [|w ws1 IH]; cbn; intros a H1 H2.
  - subst. exact H2.
  - destruct H1 as (Hs & Hle & Hc). repeat split; auto.
Qed.

Lemma chain_snoc a ws b e :
  chain a ws b -> b <= e -> chain a (ws ++ [(b, e)]) e.
Proof.
  intros Hc Hle. apply chain_app with (m := b); [exact Hc|].
  cbn. repeat split; auto.
Qed.

Lemma chain_le a ws b : chain a ws b -> a <= b.
Proof.
  revert a. induction ws as [|w ws IH]; cbn; intros a H.
  - subst. apply Qcle_refl.
  - destruct H as (_ & Hle & Hc). eapply Qcle_trans; [exact Hle | auto].
Qed.

Lemma chain_bounds a ws b w :
  chain a ws b -> In w ws ->
  a <= w_start w /\ w_start w <= w_end w /\ w_end w <= b.
Proof.
  revert a. induction ws as [|w0 ws IH]; cbn; intros a Hc Hin; [contradiction|].
  destruct Hc as (Hs & Hle & Hc). destruct Hin as [-> | Hin].
  - rewrite Hs. repeat split; auto using Qcle_refl. eapply chain_le; eauto.
  - destruct (IH _ Hc Hin) as (H1 & H2 & H3). repeat split; auto.
    eapply Qcle_trans; eauto.
Qed.







Lemma chain_linked a ws b : chain a ws b -> linked a ws b.
Proof.
  revert a. induction ws as [|w ws IH]; cbn; intros a H; [exact H|].
  destruct H as (Hs & _ & Hc). split; [exact Hs | apply IH; exact Hc].
Qed.

Lemma linked_app a ws1 m ws2 b :
  linked a ws1 m -> linked m ws2 b -> linked a (ws1 ++ ws2) b.
Proof.
  revert a. induction ws1 as [|w ws1 IH]; cbn; intros a H1 H2.
  - subst. exact H2.
  - destruct H1 as (Hs & Hc). split; auto.
Qed.

Lemma linked_snoc a ws b e : linked a ws b -> linked a (ws ++ [(b, e)]) e.
Proof.
  intros Hc. apply linked_app with (m := b); [exact Hc|].
  cbn. split; reflexivity.
Qed.

Lemma linked_starts_at a ws b : linked a ws b -> ws <> [] -> starts_at a ws.
Proof.
  destruct ws as [|w ws]; cbn; intros H Hne; [congruence|].
  exists w, ws. split; [reflexivity | tauto].
Qed.

Lemma linked_ends_at a ws b : linked a ws b -> ws <> [] -> ends_at b ws.
Proof.
  revert a. induction ws as [|w ws IH]; cbn; intros a H Hne; [congruence|].
  destruct H as (_ & Hc). destruct ws as [|w' ws].
  - cbn in Hc. exists [], w. split; [reflexivity | exact Hc].
  - destruct (IH _ Hc) as (front & l & Heq & Hl); [discriminate|].
    exists (w :: front), l. split; [cbn; rewrite Heq; reflexivity | exact Hl].
Qed.

Lemma linked_gapless a ws b : linked a ws b -> gapless ws.
Proof.
  revert a. induction ws as [|w ws IH]; intros a H i w1 w2 H1 H2.
  - destruct i; discriminate.
  - destruct H as (_ & Hc). destruct i as [|i]; cbn in H1, H2.
    + injection H1 as <-. destruct ws as [|w' ws]; [discriminate|].
      cbn in H2. injection H2 as <-. cbn in Hc. symmetry. tauto.
    + eapply IH; eauto.
Qed.

End ChainFacts.

(** ** The walk over the silences *)

Section WalkFacts.
Import AudioSplitter Windows.

Context {A : arithmetic}.
Variables min_len max_len total_duration : time.

Lemma ascending_weaken c m ms :
  c <= m -> ascending_from m ms -> ascending_from c ms.
Proof.
  destruct ms as [|m' ms]; cbn; [tauto|].
  intros H (H1 & H2). split; [eapply Qcle_trans; eauto | exact H2].
Qed.

Lemma split_step_cases st s :
  let m := split_point_of s in
  (split_step min_len max_len st s = (fst st ++ [(snd st, m)], m) /\
   (min_len <= sub m (snd st) \/ max_len <= sub m (snd st))) \/
  (split_step min_len max_len st s = st /\
   sub m (snd st) < min_len /\ sub m (snd st) < max_len).
Proof.
  destruct st as [segments current_start]. unfold split_step, geb. cbn.
  cmp_cases; auto.
Qed.

Lemma walk_cons s silences st :
  walk min_len max_len (s :: silences) st =
  walk min_len max_len silences (split_step min_len max_len st s).
Proof. reflexivity. Qed.

Lemma walk_chain silences : forall acc c,
  chain 0 acc c ->
  ascending_from c (map split_point_of silences) ->
  Forall (fun s => split_point_of s <= total_duration) silences ->
  c <= total_duration ->
  let st := walk min_len max_len silences (acc, c) in
  chain 0 (fst st) (snd st) /\ snd st <= total_duration.
Proof.
  induction silences as [|s rest IH]; intros acc c Hc Hasc Hup Hle.
  - cbn. auto.
  - rewrite walk_cons. cbn in Hasc. destruct Hasc as (Hcm & Hasc).
    inversion Hup as [|? ? Hm Hup']; subst.
    destruct (split_step_cases (acc, c) s) as [(-> & _) | (-> & _)]; cbn [fst snd].
    + apply IH; auto. apply chain_snoc; assumption.
    + apply IH; auto. apply (ascending_weaken c (split_point_of s)); assumption.
Qed.

Lemma add_final_chain acc c :
  chain 0 acc c -> c <= total_duration ->
  chain 0 (add_final total_duration (acc, c)) total_duration.
Proof.
  intros Hc Hle. unfold add_final. cmp_cases.
  - apply chain_snoc; [exact Hc | apply Qclt_le_weak; assumption].
  - assert (c = total_duration) as <- by (apply Qcle_antisym; assumption).
    exact Hc.
Qed.

(** Under [min_len <= max_len] the forced split adds nothing. *)
Lemma split_step_override_dead st s :
  min_len <= max_len ->
  split_step min_len max_len st s = split_step_no_override min_len st s.
Proof.
  intros Hmm. destruct st as [segments current_start].
  unfold split_step, split_step_no_override, geb. cmp_cases; try reflexivity.
  exfalso. apply (Qclt_not_le _ _ E). eapply Qcle_trans; eauto.
Qed.

Lemma walk_no_override silences : forall st,
  min_len <= max_len ->
  walk min_len max_len silences st =
  fold_left (split_step_no_override min_len) silences st.
Proof.
  induction silences as [|s rest IH]; intros st Hmm; [reflexivity|].
  rewrite walk_cons. cbn [fold_left].
  rewrite split_step_override_dead by assumption. apply IH; assumption.
Qed.

Lemma walk_committed_long silences : forall acc c,
  min_len <= max_len ->
  Forall (fun w => min_len <= w_length w) acc ->
  Forall (fun w => min_len <= w_length w)
         (fst (walk min_len max_len silences (acc, c))).
Proof.
  induction silences as [|s rest IH]; intros acc c Hmm Hacc; [exact Hacc|].
  rewrite walk_cons.
  destruct (split_step_cases (acc, c) s) as [(-> & Hlen) | (-> & _)];
    cbn [fst snd] in *.
  - apply IH; [assumption|]. apply Forall_app. split; [assumption|].
    constructor; [|constructor]. unfold w_length, w_end, w_start. cbn.
    destruct Hlen as [H | H]; [exact H|].
    destruct (Qclt_le_dec (sub (split_point_of s) c) min_len) as [Hlt | Hge];
      [|exact Hge].
    exfalso. apply (Qclt_not_le _ _ Hlt). eapply Qcle_trans; eauto.
  - apply IH; assumption.
Qed.

Lemma walk_by_midpoints silences : forall acc c,
  min_len <= max_len ->
  add_final total_duration (walk min_len max_len silences (acc, c)) =
  acc ++ plan_by_midpoints min_len total_duration silences c.
Proof.
  induction silences as [|s rest IH]; intros acc c Hmm.
  - cbn. destruct (ltb c total_duration); [reflexivity|].
    symmetry; apply app_nil_r.
  - rewrite walk_cons, split_step_override_dead by assumption.
    cbn [plan_by_midpoints split_step_no_override].
    destruct (geb (sub (split_point_of s) c) min_len).
    + rewrite IH by assumption. rewrite <- app_assoc. reflexivity.
    + apply IH; assumption.
Qed.

End WalkFacts.

(** ** The walk in arithmetic without rounding *)

Section IdealWalkFacts.
Import AudioSplitter Windows.

Local Existing Instance ideal.
Variables min_len max_len total_duration : time.

Lemma split_point_within s :
  within total_duration s ->
  0 <= split_point_of s /\ split_point_of s <= total_duration.
Proof.
  unfold within, split_point_of. intros (H1 & H2 & H3 & H4).
  split; qc_lra.
Qed.

Lemma chronological_ascending silences : forall c,
  chronological silences ->
  (forall s, hd_error silences = Some s -> c <= split_point_of s) ->
  ascending_from c (map split_point_of silences).
Proof.
  induction silences as [|s rest IH]; intros c Hch Hhd; cbn; [exact I|].
  split; [apply Hhd; reflexivity|].
  cbn in Hch. destruct Hch as (Hnext & Hch). apply IH; [exact Hch|].
  intros s' Hs'. destruct rest as [|s0 rest]; [discriminate|].
  cbn in Hs'. injection Hs' as ->. destruct Hnext as (H1 & H2).
  unfold split_point_of. qc_lra.
Qed.


End IdealWalkFacts.

(** ** The tiling loop *)

Section TileFacts.
Import AudioSplitter Windows.

Context {A : arithmetic}.
Variables total_duration max_len : time.

Lemma tile_loop_unfold fuel acc cur :
  tile_loop fuel total_duration max_len acc cur =
  if ltb cur total_duration then
    match fuel with
    | O => None
    | S fuel' =>
        tile_loop fuel' total_duration max_len
          (acc ++ [(cur, py_min (add cur max_len) total_duration)])
          (py_min (add cur max_len) total_duration)
    end
  else Some acc.
Proof. destruct fuel; reflexivity. Qed.

Lemma tile_loop_acc fuel : forall acc cur,
  tile_loop fuel total_duration max_len acc cur =
  option_map (app acc) (tile_loop fuel total_duration max_len [] cur).
Proof.
  induction fuel as [|fuel IH]; intros acc cur;
    rewrite (tile_loop_unfold _ acc), (tile_loop_unfold _ []);
    destruct (ltb cur total_duration); cbn [option_map];
    rewrite ?app_nil_r; try reflexivity.
  rewrite (IH (acc ++ _)), (IH ([] ++ _)).
  destruct (tile_loop fuel total_duration max_len [] _); cbn; [|reflexivity].
  rewrite <- app_assoc. reflexivity.
Qed.

(** The answer does not depend on how much fuel was left over. *)
Lemma tile_loop_det fuel1 : forall fuel2 acc cur ws1 ws2,
  tile_loop fuel1 total_duration max_len acc cur = Some ws1 ->
  tile_loop fuel2 total_duration max_len acc cur = Some ws2 ->
  ws1 = ws2.
Proof.
  induction fuel1 as [|fuel1 IH]; intros fuel2 acc cur ws1 ws2;
    rewrite (tile_loop_unfold fuel2), tile_loop_unfold;
    destruct (ltb cur total_duration); try congruence.
  destruct fuel2 as [|fuel2]; [discriminate|]. apply IH.
Qed.

Lemma tile_loop_more_fuel fuel : forall fuel' acc cur ws,
  tile_loop fuel total_duration max_len acc cur = Some ws ->
  (fuel <= fuel')%nat ->
  tile_loop fuel' total_duration max_len acc cur = Some ws.
Proof.
  induction fuel as [|fuel IH]; intros fuel' acc cur ws;
    rewrite (tile_loop_unfold fuel'), tile_loop_unfold;
    destruct (ltb cur total_duration); try congruence.
  intros H Hle. destruct fuel' as [|fuel']; [lia|].
  apply IH; [exact H | lia].
Qed.

(** A sum that does not leave 0 keeps the loop at its starting point. *)
Lemma tile_loop_stuck_at fuel : forall acc,
  0 < total_duration -> py_min (add 0 max_len) total_duration = 0 ->
  tile_loop fuel total_duration max_len acc 0 = None.
Proof.
  induction fuel as [|fuel IH]; intros acc HT Hm; rewrite tile_loop_unfold;
    apply ltb_lt in HT; rewrite HT; [reflexivity|].
  rewrite Hm. apply IH; [apply ltb_lt; exact HT | exact Hm].
Qed.

(** Whatever the rounding, a returned list is made of tiles that lead
    from 0 to the end of the recording. *)
Lemma tile_loop_shape fuel : forall acc cur ws,
  linked 0 acc cur -> cur <= total_duration ->
  Forall (tile total_duration max_len) acc ->
  tile_loop fuel total_duration max_len acc cur = Some ws ->
  linked 0 ws total_duration /\ Forall (tile total_duration max_len) ws.
Proof.
  induction fuel as [|fuel IH]; intros acc cur ws Hl Hle Hacc;
    rewrite tile_loop_unfold; cmp_cases; try discriminate;
    try (intros [= <-];
         assert (cur = total_duration) as <- by (apply Qcle_antisym; assumption);
         split; assumption).
  apply IH.
  - apply linked_snoc. exact Hl.
  - unfold py_min. cmp_cases; [apply Qcle_refl | assumption].
  - apply Forall_app. split; [exact Hacc|].
    apply Forall_cons; [|apply Forall_nil]. split; [exact E | reflexivity].
Qed.

(** Every tile but the last ends where the addition puts it. *)
Lemma tiles_before_last ws : forall a b,
  linked a ws b -> Forall (tile total_duration max_len) ws ->
  forall front w,
    ws = front ++ [w] ->
    Forall (fun w' => w_end w' = add (w_start w') max_len) front.
Proof.
  induction ws as [|w0 ws IH]; intros a b Hl Hall front w Hf.
  - destruct front; discriminate.
  - destruct front as [|w1 front]; [apply Forall_nil|].
    cbn in Hf. injection Hf as <- Hws.
    destruct Hl as (_ & Hl). inversion Hall as [|? ? Hw0 Hrest]; subst.
    apply Forall_cons; [|exact (IH _ _ Hl Hrest front w eq_refl)].
    destruct front as [|w2 front]; cbn in Hl, Hrest.
    + destruct Hl as (Hs & _). inversion Hrest as [|? ? (Hlt & _) _]; subst.
      destruct Hw0 as (_ & He). rewrite Hs in Hlt. revert He Hlt.
      unfold py_min. cmp_cases; intros He Hlt; [|exact He].
      rewrite He in Hlt. exfalso. exact (Qclt_not_le _ _ Hlt (Qcle_refl _)).
    + destruct Hl as (Hs & _). inversion Hrest as [|? ? (Hlt & _) _]; subst.
      destruct Hw0 as (_ & He). rewrite Hs in Hlt. revert He Hlt.
      unfold py_min. cmp_cases; intros He Hlt; [|exact He].
      rewrite He in Hlt. exfalso. exact (Qclt_not_le _ _ Hlt (Qcle_refl _)).
Qed.

End TileFacts.

(** ** The tiling loop in arithmetic without rounding *)

Section IdealTileFacts.
Import AudioSplitter Windows.

Local Existing Instance ideal.
Variables total_duration max_len : time.

Lemma tile_loop_step fuel acc cur :
  tile_loop fuel total_duration max_len acc cur =
  if ltb cur total_duration then
    match fuel with
    | O => None
    | S fuel' =>
        tile_loop fuel' total_duration max_len
          (acc ++ [(cur, py_min (cur + max_len) total_duration)])
          (py_min (cur + max_len) total_duration)
    end
  else Some acc.
Proof. destruct fuel; reflexivity. Qed.

Lemma of_nat_0 : of_nat 0 * max_len = 0.
Proof. unfold of_nat. cbn [Z.of_nat]. qc_to_q. ring. Qed.

Lemma of_nat_S i : of_nat (S i) * max_len = of_nat i * max_len + max_len.
Proof.
  qc_to_q. rewrite Nat2Z.inj_succ. unfold Z.succ. rewrite inject_Z_plus.
  change (inject_Z 1) with 1%Q. ring.
Qed.

Lemma of_nat_mono i j :
  (i <= j)%nat -> 0 <= max_len -> of_nat i * max_len <= of_nat j * max_len.
Proof.
  intros Hij Hm. qc_to_q. apply Qmult_le_compat_r; [|exact Hm].
  rewrite <- Zle_Qle. lia.
Qed.



(** Archimedes: some number of tiles reaches the end of the recording. *)
Lemma tiles_needed :
  0 < total_duration -> 0 < max_len ->
  exists n, (1 <= n)%nat /\
            of_nat (pred n) * max_len < total_duration /\
            total_duration <= of_nat n * max_len.
Proof.
  intros HT Hmax. unfold Qclt in HT, Hmax.
  change (this 0) with 0%Q in HT, Hmax.
  set (x := (this total_duration / this max_len)%Q).
  assert (Hx : (0 < x)%Q).
  { unfold x. apply Qlt_shift_div_l; [exact Hmax|]. lra. }
  assert (Hxm : (x * this max_len == this total_duration)%Q).
  { unfold x. field. intros H. rewrite H in Hmax. lra. }
  pose proof (Qle_ceiling x) as Hceil.
  pose proof (Qceiling_lt x) as Hfloor.
  assert (Hc : (1 <= Qceiling x)%Z).
  { assert (H0 : (0 < inject_Z (Qceiling x))%Q) by lra.
    change 0%Q with (inject_Z 0) in H0. rewrite <- Zlt_Qlt in H0. lia. }
  exists (Z.to_nat (Qceiling x)). split; [lia|]. split; qc_to_q.
  - replace (Z.of_nat (pred (Z.to_nat (Qceiling x)))) with (Qceiling x - 1)%Z
      by lia.
    rewrite <- Hxm. apply Qmult_lt_compat_r; assumption.
  - rewrite Z2Nat.id by lia. rewrite <- Hxm.
    apply Qmult_le_compat_r; [assumption | lra].
Qed.


End IdealTileFacts.

(** ** Termination of the tiling loop *)

Section TileProgress.
Import AudioSplitter Windows.

Context {A : arithmetic}.
Variables total_duration max_len delta : time.

Hypothesis delta_positive : 0 < delta.

(** Every addition the loop makes advances by [delta] at least. *)
Hypothesis advances :
  forall c, 0 <= c -> c < total_duration -> c + delta <= add c max_len.

Lemma tile_loop_within k : forall fuel acc cur,
  0 <= cur -> total_duration <= cur + of_nat k * delta -> (k <= fuel)%nat ->
  exists ws, tile_loop fuel total_duration max_len acc cur = Some ws.
Proof.
  induction k as [|k IH]; intros fuel acc cur H0 Hk Hfuel;
    rewrite tile_loop_unfold.
  - rewrite of_nat_0 in Hk.
    replace (ltb cur total_duration) with false; [eexists; reflexivity|].
    symmetry. apply ltb_ge. qc_lra.
  - cmp_cases; [|eexists; reflexivity].
    destruct fuel as [|fuel]; [lia|].
    pose proof (advances cur H0 E) as Hadv.
    pose proof (of_nat_mono delta 0 k (Nat.le_0_l k)
                  (Qclt_le_weak _ _ delta_positive)) as Hpos.
    rewrite of_nat_0 in Hpos. rewrite of_nat_S in Hk.
    apply IH; [| |lia]; unfold py_min; cmp_cases; qc_lra.
Qed.

Lemma tile_loop_returns :
  0 < total_duration ->
  exists fuel ws, tile_loop fuel total_duration max_len [] 0 = Some ws.
Proof.
  intros HT.
  destruct (tiles_needed total_duration delta HT delta_positive)
    as (n & _ & _ & Hn).
  exists n. apply (tile_loop_within n n [] 0); [apply Qcle_refl | | lia].
  qc_lra.
Qed.

End TileProgress.

Section PlannerFacts.
Import AudioSplitter Windows.

Local Existing Instance ideal.

Lemma tile_loop_chain total_duration max_len fuel : forall acc cur ws,
  0 <= max_len -> chain 0 acc cur -> cur <= total_duration ->
  tile_loop fuel total_duration max_len acc cur = Some ws ->
  chain 0 ws total_duration.
Proof.
  induction fuel as [|fuel IH]; intros acc cur ws Hmax Hc Hle;
    rewrite tile_loop_step; cmp_cases; try discriminate;
    try (intros [= <-];
         assert (cur = total_duration) as <- by (apply Qcle_antisym; assumption);
         exact Hc).
  apply IH; [exact Hmax | |].
  - apply chain_snoc; [exact Hc|]. unfold py_min. cmp_cases.
    + apply Qclt_le_weak; assumption.
    + qc_lra.
  - unfold py_min. cmp_cases; [apply Qcle_refl | assumption].
Qed.

Lemma windows_eqb_eq l1 : forall l2, windows_eqb l1 l2 = true -> l1 = l2.
Proof.
  induction l1 as [|[a1 b1] l1 IH]; intros [|[a2 b2] l2]; cbn;
    try discriminate; [reflexivity|].
  unfold window_eqb. cbn. rewrite !andb_true_iff, !eqb_eq.
  intros ((-> & ->) & H). f_equal. apply IH; exact H.
Qed.

Lemma plan_eqb_eq o l : plan_eqb o l = true -> o = Some l.
Proof.
  destruct o as [l'|]; cbn; [|discriminate].
  intros H. f_equal. apply windows_eqb_eq; exact H.
Qed.

Lemma Forall_front {A} (P : A -> Prop) (l front : list A) (x : A) :
  Forall P l -> l = front ++ [x] -> Forall P front.
Proof. intros H ->. apply Forall_app in H. tauto. Qed.

End PlannerFacts.

(** Closed comparisons between concrete numbers of seconds. *)
Ltac qc_dec :=
  vm_compute; first [ reflexivity | discriminate | intro; discriminate ].
(** ** The planner: coverage, walk, tiling and minimum length *)

Section PlannerClaims.
Import AudioSplitter Windows.




(** C2, as amended: for a non-empty silence list and
    [min_len <= max_len], whatever the rounding of the arithmetic, the
    planner walks the intervals in order keeping [current_start]
    (initially 0); at each midpoint it commits [[current_start, midpoint)]
    and advances exactly when the difference [midpoint - current_start] it
    computes is [>= min_len], and after the last interval it commits the
    remainder [[current_start, total_duration)] whenever
    [current_start < total_duration].  In binary64, for 180 s with
    silences (40,42) and (100,101), [min_len = 30] and [max_len = 120] the
    output is [[0,41), [41,100.5), [100.5,180)]; with silences (29.6,31)
    and (59.6,61) the second difference is computed below 30 and the
    output is [[0,30.3), [30.3,180)]. *)
Theorem walk_commits_at_midpoints :
  (forall (A : arithmetic) fuel silences total_duration min_len max_len,
      silences <> [] -> min_len <= max_len ->
      calculate_split_points fuel silences total_duration min_len max_len
      = Some (plan_by_midpoints min_len total_duration silences 0)) /\
  (forall fuel,
      calculate_split_points (A := binary64) fuel
        [silence (A := binary64) 40 42; silence (A := binary64) 100 101]
        (sec (A := binary64) 180) (sec (A := binary64) 30)
        (sec (A := binary64) 120)
      = Some [(sec (A := binary64) 0, sec (A := binary64) 41);
              (sec (A := binary64) 41, sec (A := binary64) 100.5);
              (sec (A := binary64) 100.5, sec (A := binary64) 180)]) /\
  (forall fuel,
      calculate_split_points (A := binary64) fuel
        [silence (A := binary64) 29.6 31; silence (A := binary64) 59.6 61]
        (sec (A := binary64) 180) (sec (A := binary64) 30)
        (sec (A := binary64) 120)
      = Some [(sec (A := binary64) 0, sec (A := binary64) 30.3);
              (sec (A := binary64) 30.3, sec (A := binary64) 180)]).
Proof.
  split; [|split].
  - intros A fuel silences T min_len max_len Hne Hmm.
    destruct silences as [|s rest]; [congruence|].
    cbn [calculate_split_points]. f_equal.
    apply (walk_by_midpoints min_len max_len T (s :: rest) [] 0 Hmm).
  - intros fuel. apply plan_eqb_eq. vm_compute. reflexivity.
  - intros fuel. apply plan_eqb_eq. vm_compute. reflexivity.
Qed.

Lemma walk_commits_at_midpoints_witness :
  calculate_split_points (A := binary64) 0
    [silence (A := binary64) 29.6 31; silence (A := binary64) 59.6 61]
    (sec (A := binary64) 180) (sec (A := binary64) 30)
    (sec (A := binary64) 120)
  = Some (plan_by_midpoints (A := binary64) (sec (A := binary64) 30)
            (sec (A := binary64) 180)
            [silence (A := binary64) 29.6 31;
             silence (A := binary64) 59.6 61] 0).
Proof.
  apply (proj1 walk_commits_at_midpoints binary64).
  - discriminate.
  - qc_dec.
Defined.

(** C2 as stated fails when [min_len > max_len]: at the midpoint 50 the
    accumulated 50 s are below [min_len = 100], yet the forced split
    commits [[0, 50)]. *)
Lemma walk_commits_at_midpoints_counterexample :
  calculate_split_points (A := binary64) 0 [silence (A := binary64) 49 51]
    (sec (A := binary64) 180) (sec (A := binary64) 100)
    (sec (A := binary64) 10)
    = Some [(sec (A := binary64) 0, sec (A := binary64) 50);
            (sec (A := binary64) 50, sec (A := binary64) 180)] /\
  sub (A := binary64)
      (split_point_of (A := binary64) (silence (A := binary64) 49 51)) 0
    < sec (A := binary64) 100 /\
  plan_by_midpoints (A := binary64) (sec (A := binary64) 100)
    (sec (A := binary64) 180) [silence (A := binary64) 49 51] 0
    = [(sec (A := binary64) 0, sec (A := binary64) 180)].
Proof.
  split; [|split].
  - apply plan_eqb_eq. vm_compute. reflexivity.
  - qc_dec.
  - apply windows_eqb_eq. vm_compute. reflexivity.
Qed.

(** C5, as amended: when the silence list is empty and
    [total_duration > 0], whatever the rounding of the arithmetic, the
    list the planner returns starts at 0, each window ends at
    [min(start + max_len, total_duration)] with the sum as the machine
    computes it, the next window starts there, every window but the last
    ends at that sum, and the last window ends exactly at
    [total_duration]: the windows have length [max_len] up to the
    rounding of the sums only.  In binary64 the planner returns, with the
    same list whatever fuel is left over, whenever
    [2^-1022 <= max_len] and [total_duration <= 2^52 * max_len]; for
    250 s and [max_len = 120] it returns [[0,120), [120,240), [240,250)]. *)
Theorem empty_silences_tiled :
  (forall (A : arithmetic) fuel total_duration min_len max_len ws,
      0 < total_duration ->
      calculate_split_points fuel [] total_duration min_len max_len
        = Some ws ->
      starts_at 0 ws /\ gapless ws /\ ends_at total_duration ws /\
      Forall (tile total_duration max_len) ws /\
      (forall front w,
          ws = front ++ [w] ->
          Forall (fun w' => w_end w' = add (w_start w') max_len) front)) /\
  (forall total_duration min_len max_len,
      0 < total_duration ->
      Binary64.least_normal <= max_len ->
      total_duration <= Binary64.two_to_52 * max_len ->
      exists fuel ws,
        calculate_split_points (A := binary64) fuel [] total_duration
          min_len max_len = Some ws /\
        forall fuel' ws',
          calculate_split_points (A := binary64) fuel' [] total_duration
            min_len max_len = Some ws' -> ws' = ws) /\
  (forall fuel min_len,
      (3 <= fuel)%nat ->
      calculate_split_points (A := binary64) fuel []
        (sec (A := binary64) 250) min_len (sec (A := binary64) 120)
      = Some [(sec (A := binary64) 0, sec (A := binary64) 120);
              (sec (A := binary64) 120, sec (A := binary64) 240);
              (sec (A := binary64) 240, sec (A := binary64) 250)]).
Proof.
  split; [|split].
  - intros A fuel T min_len max_len ws HT Hws.
    cbn [calculate_split_points] in Hws.
    destruct (tile_loop_shape T max_len fuel [] 0 ws) as (Hl & Hall);
      [reflexivity | apply Qclt_le_weak; exact HT | apply Forall_nil
      | exact Hws |].
    assert (Hne : ws <> []).
    { intros ->. cbn in Hl. rewrite <- Hl in HT.
      exact (Qclt_not_eq _ _ HT eq_refl). }
    split; [eapply linked_starts_at; eauto|].
    split; [eapply linked_gapless; eauto|].
    split; [eapply linked_ends_at; eauto|].
    split; [exact Hall|].
    intros front w Hf. eapply tiles_before_last; eauto.
  - intros T min_len max_len HT Hmin Hlong.
    assert (Hd : 0 < max_len * Q2Qc (1 # 4)).
    { assert (H0 : 0 < Binary64.least_normal) by qc_dec.
      pose proof (Qclt_le_trans _ _ _ H0 Hmin) as Hmax. qc_lra. }
    destruct (tile_loop_returns (A := binary64) T max_len
                (max_len * Q2Qc (1 # 4)) Hd
                (binary64_advances T max_len Hmin Hlong) HT)
      as (fuel & ws & H).
    exists fuel, ws. split; [exact H|].
    intros fuel' ws' H'. cbn [calculate_split_points] in H'.
    eapply tile_loop_det; eauto.
  - intros fuel min_len Hfuel.
    cbn [calculate_split_points].
    apply tile_loop_more_fuel with (fuel := 3%nat); [|exact Hfuel].
    apply plan_eqb_eq. vm_compute. reflexivity.
Qed.

Lemma empty_silences_tiled_witness :
  exists fuel ws,
    calculate_split_points (A := binary64) fuel []
      (sec (A := binary64) 1) (sec (A := binary64) 0.1)
      (sec (A := binary64) 0.1) = Some ws /\
    forall fuel' ws',
      calculate_split_points (A := binary64) fuel' []
        (sec (A := binary64) 1) (sec (A := binary64) 0.1)
        (sec (A := binary64) 0.1) = Some ws' -> ws' = ws.
Proof.
  apply (proj1 (proj2 empty_silences_tiled)); qc_dec.
Defined.

(** C5 as stated fails twice.  With [max_len = 0] the loop appends
    [[0, 0)] for ever and no fuel yields a window list.  With
    [max_len = 0.1] and one second of recording the sums of binary64
    drift: the planner returns eleven windows, not ten, the fourth from
    0.30000000000000004 to 0.4 is shorter than [max_len], and the last
    one is a sliver of about [1e-16] seconds. *)
Lemma empty_silences_tiled_counterexample :
  (0 < sec (A := binary64) 250 /\
   ~ (exists fuel ws,
        calculate_split_points (A := binary64) fuel []
          (sec (A := binary64) 250) (sec (A := binary64) 0)
          (sec (A := binary64) 0) = Some ws)) /\
  (0 < sec (A := binary64) 1 /\
   (forall fuel,
       (11 <= fuel)%nat ->
       calculate_split_points (A := binary64) fuel []
         (sec (A := binary64) 1) (sec (A := binary64) 0.1)
         (sec (A := binary64) 0.1) = Some tenths) /\
   List.length tenths = 11%nat /\
   nth_error tenths 3
   = Some (sec (A := binary64) 0.30000000000000004,
           sec (A := binary64) 0.4) /\
   sec (A := binary64) 0.4 - sec (A := binary64) 0.30000000000000004
   < sec (A := binary64) 0.1 /\
   w_length (A := binary64)
     (sec (A := binary64) 0.30000000000000004, sec (A := binary64) 0.4)
   < sec (A := binary64) 0.1).
Proof.
  split; [split; [qc_dec|]
         | split; [qc_dec | split; [|split; [|split; [|split]]]]].
  - intros (fuel & ws & H). cbn [calculate_split_points] in H.
    rewrite (tile_loop_stuck_at (A := binary64) (sec (A := binary64) 250)
               (sec (A := binary64) 0)) in H;
      [discriminate | qc_dec | apply Qc_is_canon; vm_compute; reflexivity].
  - intros fuel Hfuel. cbn [calculate_split_points].
    apply tile_loop_more_fuel with (fuel := 11%nat); [|exact Hfuel].
    apply plan_eqb_eq. vm_compute. reflexivity.
  - reflexivity.
  - reflexivity.
  - qc_dec.
  - qc_dec.
Qed.

(** C6, as amended: for every input with at least one detected silence
    and [min_len <= max_len], whatever the rounding of the arithmetic,
    the forced split is dead code (the walk equals the walk without it),
    every window the walk commits has a computed length
    [midpoint - current_start] of at least [min_len], and in the returned
    list every window except the last one, the terminal remainder, has a
    computed length of at least [min_len]. *)
Theorem committed_windows_reach_min_len :
  forall (A : arithmetic) silences total_duration min_len max_len,
    silences <> [] -> min_len <= max_len ->
    (forall st,
        walk min_len max_len silences st
        = fold_left (split_step_no_override min_len) silences st) /\
    Forall (fun w => min_len <= w_length w)
           (fst (walk min_len max_len silences ([], 0))) /\
    (forall fuel ws front w,
        calculate_split_points fuel silences total_duration min_len max_len
          = Some ws ->
        ws = front ++ [w] ->
        Forall (fun w' => min_len <= w_length w') front).
Proof.
  intros A silences T min_len max_len Hne Hmm.
  assert (Hlong : Forall (fun w => min_len <= w_length w)
                    (fst (walk min_len max_len silences ([], 0))))
    by (apply walk_committed_long; [exact Hmm | constructor]).
  split; [|split].
  - intros st. apply walk_no_override; exact Hmm.
  - exact Hlong.
  - intros fuel ws front w Hws Hf. destruct silences as [|s rest];
      [congruence|].
    change (Some (add_final T (walk min_len max_len (s :: rest)
                                 ([], (0 : time))))
            = Some ws) in Hws.
    change (Forall (fun w => min_len <= w_length w)
              (fst (walk min_len max_len (s :: rest) ([], (0 : time)))))
      in Hlong.
    remember (walk min_len max_len (s :: rest) ([], (0 : time))) as st
      eqn:Hst.
    clear Hst. destruct st as [acc c].
    injection Hws as Hws. rewrite <- Hws in Hf.
    cbn [fst] in Hlong. unfold add_final in Hf.
    destruct (ltb c T).
    + apply app_inj_tail in Hf. destruct Hf as (<- & _). exact Hlong.
    + eapply Forall_front; eauto.
Qed.

Lemma committed_windows_reach_min_len_witness :
  (forall st,
      walk (A := binary64) (sec (A := binary64) 30) (sec (A := binary64) 120)
        [silence (A := binary64) 40 42; silence (A := binary64) 100 101] st
      = fold_left
          (split_step_no_override (A := binary64) (sec (A := binary64) 30))
          [silence (A := binary64) 40 42; silence (A := binary64) 100 101]
          st) /\
  Forall (fun w => sec (A := binary64) 30 <= w_length (A := binary64) w)
         (fst (walk (A := binary64) (sec (A := binary64) 30)
                 (sec (A := binary64) 120)
                 [silence (A := binary64) 40 42;
                  silence (A := binary64) 100 101]
                 ([], 0))) /\
  (forall fuel ws front w,
      calculate_split_points (A := binary64) fuel
        [silence (A := binary64) 40 42; silence (A := binary64) 100 101]
        (sec (A := binary64) 180) (sec (A := binary64) 30)
        (sec (A := binary64) 120) = Some ws ->
      ws = front ++ [w] ->
      Forall (fun w' => sec (A := binary64) 30 <= w_length (A := binary64) w')
             front).
Proof.
  apply (committed_windows_reach_min_len binary64).
  - discriminate.
  - qc_dec.
Defined.

(** C6 as stated fails without a silence: with [min_len = max_len = 0.1]
    and one second of recording the planner tiles, and the fourth of its
    eleven windows, which is not the last one, is shorter than
    [min_len]. *)
Lemma committed_windows_reach_min_len_counterexample :
  sec (A := binary64) 0.1 <= sec (A := binary64) 0.1 /\
  calculate_split_points (A := binary64) 11 []
    (sec (A := binary64) 1) (sec (A := binary64) 0.1)
    (sec (A := binary64) 0.1) = Some tenths /\
  exists front w back last,
    tenths = front ++ w :: back ++ [last] /\
    w_end w - w_start w < sec (A := binary64) 0.1 /\
    w_length (A := binary64) w < sec (A := binary64) 0.1.
Proof.
  split; [qc_dec|]. split.
  - apply plan_eqb_eq. vm_compute. reflexivity.
  - exists (firstn 3 tenths),
      (sec (A := binary64) 0.30000000000000004, sec (A := binary64) 0.4),
      (firstn 6 (skipn 4 tenths)),
      (sec (A := binary64) 0.9999999999999999, sec (A := binary64) 1).
    split; [reflexivity|]. split; qc_dec.
Qed.

End PlannerClaims.

(** ** The filter and the numbering of the kept windows *)

Section ExtractorFacts.
Import AudioSplitter Extractor.

Context {A : arithmetic}.
Variable t : tools.
Variable threshold : time.

Lemma process_windows_snoc split_points w :
  process_windows t threshold (split_points ++ [w]) =
  process_window t threshold (process_windows t threshold split_points) w.
Proof. unfold process_windows. rewrite fold_left_app. reflexivity. Qed.

Lemma process_window_outcome st w :
  process_window t threshold st w =
  match outcome_of t threshold (next_index_of st) w with
  | Skipped => (records_of st, next_index_of st, log_of st ++ [Skipped])
  | Failed => (records_of st, next_index_of st, log_of st ++ [Failed])
  | Kept =>
      (records_of st ++
         [AudioSegment.mk (segment_filename (next_index_of st))
            (fst w) (snd w) (sub (snd w) (fst w)) (next_index_of st)],
       S (next_index_of st), log_of st ++ [Kept])
  end.
Proof.
  destruct st as [[recs idx] log], w as [a b].
  unfold process_window, outcome_of, ratio_of, records_of, next_index_of,
    log_of. cbn [fst snd].
  destruct (gtb _ threshold); [reflexivity|].
  destruct (split_audio_segment t _ a (sub b a)); reflexivity.
Qed.

Lemma count_kept_app l1 l2 :
  count_kept (l1 ++ l2) = (count_kept l1 + count_kept l2)%nat.
Proof. unfold count_kept. rewrite filter_app, length_app. reflexivity. Qed.

Lemma combine_snoc {X Y} (l1 : list X) : forall (l2 : list Y) a b,
  List.length l1 = List.length l2 ->
  combine (l1 ++ [a]) (l2 ++ [b]) = combine l1 l2 ++ [(a, b)].
Proof.
  induction l1 as [|x l1 IH]; intros [|y l2] a b Hlen; cbn in *;
    try discriminate; [reflexivity|].
  f_equal. apply IH. lia.
Qed.

Lemma kept_windows_snoc split_points log w o :
  List.length log = List.length split_points ->
  kept_windows (split_points ++ [w]) (log ++ [o]) =
  kept_windows split_points log ++ (if is_kept o then [w] else []).
Proof.
  intros Hlen. unfold kept_windows.
  rewrite combine_snoc by (symmetry; exact Hlen).
  rewrite filter_app, map_app. cbn. destruct (is_kept o); reflexivity.
Qed.

Lemma outcome_at_snoc split_points log w o :
  List.length log = List.length split_points ->
  (forall i w',
      nth_error split_points i = Some w' ->
      nth_error log i
      = Some (outcome_of t threshold (S (count_kept (firstn i log))) w')) ->
  o = outcome_of t threshold (S (count_kept log)) w ->
  forall i w',
    nth_error (split_points ++ [w]) i = Some w' ->
    nth_error (log ++ [o]) i
    = Some (outcome_of t threshold
              (S (count_kept (firstn i (log ++ [o])))) w').
Proof.
  intros Hlen Hold Ho i w' Hi.
  destruct (Nat.lt_ge_cases i (List.length split_points)) as [Hlt | Hge].
  - rewrite nth_error_app1 in Hi by exact Hlt.
    rewrite nth_error_app1 by lia.
    rewrite firstn_app. replace (i - List.length log)%nat with 0%nat by lia.
    cbn [firstn]. rewrite app_nil_r. apply Hold; exact Hi.
  - rewrite nth_error_app2 in Hi by exact Hge.
    destruct (i - List.length split_points)%nat as [|n] eqn:Hn.
    + assert (i = List.length log) as -> by lia.
      cbn in Hi. injection Hi as <-.
      rewrite nth_error_app2 by lia. rewrite Nat.sub_diag. cbn [nth_error].
      rewrite firstn_app, Nat.sub_diag, firstn_all. cbn [firstn].
      rewrite app_nil_r. f_equal. exact Ho.
    + cbn in Hi. destruct n; discriminate.
Qed.

Lemma process_windows_well_numbered split_points :
  well_numbered t threshold split_points
    (process_windows t threshold split_points).
Proof.
  induction split_points as [|w split_points IH] using rev_ind.
  - unfold well_numbered. cbn. repeat split; try reflexivity.
    intros [|i] w H; discriminate.
  - rewrite process_windows_snoc, process_window_outcome.
    destruct (process_windows t threshold split_points) as [[recs idx] log].
    unfold well_numbered, records_of, next_index_of, log_of in *.
    cbn [fst snd] in *.
    destruct IH as (Hk & Hidx & Hnum & Hnames & Hwin & Hlen & Hout).
    pose proof (outcome_at_snoc split_points log w
                  (outcome_of t threshold idx w) Hlen Hout) as Hout'.
    rewrite Hidx in Hout'. specialize (Hout' eq_refl).
    rewrite <- Hidx in Hout'.
    destruct (outcome_of t threshold idx w) eqn:Ho; cbn [fst snd];
      rewrite count_kept_app, kept_windows_snoc by exact Hlen;
      cbn [count_kept filter is_kept List.length];
      rewrite ?Nat.add_0_r, ?app_nil_r, ?length_app, ?Nat.add_1_r;
      cbn [length];
      repeat split; try assumption; try lia.
    + rewrite map_app, Hnum, seq_S.
      cbn [map AudioSegment.segment_index]. rewrite Hidx. reflexivity.
    + rewrite map_app, Hnames, seq_S, map_app.
      cbn [map AudioSegment.filename]. rewrite Hidx. reflexivity.
    + rewrite map_app, Hwin. destruct w; reflexivity.
Qed.

(** The records and the next index do not depend on the log. *)
Lemma process_window_core st1 st2 w :
  fst st1 = fst st2 ->
  fst (process_window t threshold st1 w)
  = fst (process_window t threshold st2 w).
Proof.
  destruct st1 as [[r1 i1] l1], st2 as [[r2 i2] l2]. cbn [fst].
  intros [= -> ->]. rewrite !process_window_outcome.
  unfold records_of, next_index_of, log_of. cbn [fst snd].
  destruct (outcome_of t threshold i2 w); reflexivity.
Qed.

Lemma fold_process_core split_points : forall st1 st2,
  fst st1 = fst st2 ->
  fst (fold_left (process_window t threshold) split_points st1)
  = fst (fold_left (process_window t threshold) split_points st2).
Proof.
  induction split_points as [|w split_points IH]; intros st1 st2 H;
    [exact H|].
  cbn [fold_left]. apply IH. apply process_window_core; exact H.
Qed.

Lemma skipped_window_leaves_no_trace before w after :
  threshold < ratio_of t w ->
  records_of (process_windows t threshold (before ++ w :: after))
  = records_of (process_windows t threshold (before ++ after)).
Proof.
  intros Hr. unfold records_of, process_windows.
  rewrite !fold_left_app. cbn [fold_left]. f_equal.
  apply fold_process_core.
  rewrite process_window_outcome. unfold outcome_of, gtb.
  apply ltb_lt in Hr. rewrite Hr.
  destruct (fold_left (process_window t threshold) before _) as [[r i] l].
  reflexivity.
Qed.

End ExtractorFacts.

Section ExtractorClaims.
Import AudioSplitter Extractor Windows.

(** C4: whatever the rounding of the arithmetic and whatever window list
    the planner hands over, [process_audio_file] returns the records the
    loop builds over that list; their [segment_index] values are exactly
    [1..k], where [k] counts the windows that pass the silence-ratio
    filter and whose extraction succeeds; the records are those windows in
    window order; every window gets an outcome of its own, so that a
    window whose extraction fails takes no index and every later window is
    still processed. *)
Theorem segment_indices_dense :
  forall (A : arithmetic) fuel t min_len max_len threshold split_points,
    calculate_split_points fuel (detected_silences t) (probed_duration t)
      min_len max_len = Some split_points ->
    exists recs log,
      process_audio_file fuel t min_len max_len threshold = Some recs /\
      process_windows t threshold split_points
      = (recs, S (List.length recs), log) /\
      map AudioSegment.segment_index recs = seq 1 (List.length recs) /\
      List.length recs = count_kept log /\
      map window_of recs = kept_windows split_points log /\
      List.length log = List.length split_points /\
      (forall i w,
          nth_error split_points i = Some w ->
          nth_error log i
          = Some (outcome_of t threshold
                    (S (count_kept (firstn i log))) w)) /\
      (forall segment_index w,
          outcome_of t threshold segment_index w = Kept <->
          ratio_of t w <= threshold /\
          split_audio_segment t (segment_filename segment_index)
            (fst w) (sub (snd w) (fst w)) = true).
Proof.
  intros A fuel t min_len max_len threshold split_points Hplan.
  destruct (process_windows_well_numbered t threshold split_points)
    as (Hk & Hidx & Hnum & _ & Hwin & Hlen & Hout).
  destruct (process_windows t threshold split_points) as [[recs idx] log]
    eqn:Hrun.
  unfold records_of, next_index_of, log_of in *. cbn [fst snd] in *.
  exists recs, log.
  split; [unfold process_audio_file; rewrite Hplan, Hrun; reflexivity|].
  split; [rewrite Hidx, Hk; reflexivity|].
  split; [rewrite Hk; exact Hnum|].
  split; [exact Hk|]. split; [exact Hwin|].
  split; [exact Hlen|]. split; [exact Hout|].
  intros segment_index w. unfold outcome_of, gtb. split.
  - cmp_cases; [discriminate|]. intros H. split; [assumption|].
    destruct (split_audio_segment t _ _ _); [reflexivity | discriminate].
  - intros (Hle & Hcopy). cmp_cases.
    + exfalso. exact (Qclt_not_le _ _ E Hle).
    + rewrite Hcopy. reflexivity.
Qed.

(** In binary64, of the four windows planned for [meeting_tools] the
    first and the last are kept and numbered 1 and 2, the second is
    skipped and the extraction of the third fails. *)
Lemma segment_indices_dense_witness :
  exists recs log,
    process_audio_file (A := binary64) 0 (meeting_tools (A := binary64))
      (sec (A := binary64) 30) (sec (A := binary64) 120)
      (sec (A := binary64) 0.9) = Some recs /\
    log = [Kept; Skipped; Failed; Kept] /\
    map AudioSegment.segment_index recs = [1; 2]%nat /\
    map window_of recs
    = [(sec (A := binary64) 0, sec (A := binary64) 41);
       (sec (A := binary64) 141, sec (A := binary64) 180)].
Proof.
  destruct (segment_indices_dense binary64 0 (meeting_tools (A := binary64))
              (sec (A := binary64) 30) (sec (A := binary64) 120)
              (sec (A := binary64) 0.9)
              [(sec (A := binary64) 0, sec (A := binary64) 41);
               (sec (A := binary64) 41, sec (A := binary64) 100.5);
               (sec (A := binary64) 100.5, sec (A := binary64) 141);
               (sec (A := binary64) 141, sec (A := binary64) 180)])
    as (recs & log & Hret & Hrun & Hnum & Hk & Hwin & _).
  - apply plan_eqb_eq. vm_compute. reflexivity.
  - exists recs, log. split; [exact Hret|].
    assert (Hlog : log = [Kept; Skipped; Failed; Kept]).
    { apply (f_equal snd) in Hrun. cbn [snd] in Hrun. rewrite <- Hrun.
      vm_compute. reflexivity. }
    split; [exact Hlog|].
    rewrite Hlog in Hk, Hwin. split.
    + rewrite Hnum, Hk. reflexivity.
    + exact Hwin.
Defined.

(** C7: whatever the rounding of the arithmetic, a window is dropped by
    the filter exactly when the silence ratio the loop measures for it is
    strictly greater than the threshold; a dropped window leaves the
    records as if it had not been planned.  In binary64, with threshold
    0.9 a window measured at 0.95 is dropped and gets no record, and one
    measured at exactly 0.9 is kept: so is a window of 3 s with 2.7 s of
    silence, whose quotient rounds to 0.9. *)
Theorem silence_ratio_filter_strict :
  (forall (A : arithmetic) t threshold split_points i w,
      nth_error split_points i = Some w ->
      (nth_error (log_of (process_windows t threshold split_points)) i
       = Some Skipped <-> threshold < ratio_of t w)) /\
  (forall (A : arithmetic) t threshold before w after,
      threshold < ratio_of t w ->
      records_of (process_windows t threshold (before ++ w :: after))
      = records_of (process_windows t threshold (before ++ after))) /\
  (ratio_of (A := binary64) (one_window_tools (A := binary64) 95)
     (sec (A := binary64) 0, sec (A := binary64) 100)
   = sec (A := binary64) 0.95 /\
   process_windows (A := binary64) (one_window_tools (A := binary64) 95)
     (sec (A := binary64) 0.9)
     [(sec (A := binary64) 0, sec (A := binary64) 100)]
   = ([], 1%nat, [Skipped])) /\
  (ratio_of (A := binary64) (one_window_tools (A := binary64) 90)
     (sec (A := binary64) 0, sec (A := binary64) 100)
   = sec (A := binary64) 0.9 /\
   log_of (process_windows (A := binary64)
             (one_window_tools (A := binary64) 90) (sec (A := binary64) 0.9)
             [(sec (A := binary64) 0, sec (A := binary64) 100)]) = [Kept] /\
   map AudioSegment.segment_index
     (records_of (process_windows (A := binary64)
                    (one_window_tools (A := binary64) 90)
                    (sec (A := binary64) 0.9)
                    [(sec (A := binary64) 0, sec (A := binary64) 100)]))
   = [1%nat]) /\
  (sec (A := binary64) 0.9
   < sec (A := binary64) 2.7 / sec (A := binary64) 3 /\
   ratio_of (A := binary64) (one_window_tools (A := binary64) 2.7)
     (sec (A := binary64) 0, sec (A := binary64) 3)
   = sec (A := binary64) 0.9 /\
   log_of (process_windows (A := binary64)
             (one_window_tools (A := binary64) 2.7)
             (sec (A := binary64) 0.9)
             [(sec (A := binary64) 0, sec (A := binary64) 3)]) = [Kept]).
Proof.
  split; [|split; [|split; [|split]]].
  - intros A t threshold split_points i w Hi.
    destruct (process_windows_well_numbered t threshold split_points)
      as (_ & _ & _ & _ & _ & _ & Hout).
    rewrite (Hout i w Hi). unfold outcome_of, gtb. cmp_cases.
    + split; [intros _; assumption | reflexivity].
    + split.
      * destruct (split_audio_segment t _ _ _); discriminate.
      * intros Hlt. exfalso. exact (Qclt_not_le _ _ Hlt E).
  - intros A t threshold before w after Hr.
    apply skipped_window_leaves_no_trace; exact Hr.
  - split.
    + apply Qc_is_canon. vm_compute. reflexivity.
    + vm_compute. reflexivity.
  - split; [|split].
    + apply Qc_is_canon. vm_compute. reflexivity.
    + vm_compute. reflexivity.
    + vm_compute. reflexivity.
  - split; [|split].
    + qc_dec.
    + apply Qc_is_canon. vm_compute. reflexivity.
    + vm_compute. reflexivity.
Qed.

Lemma silence_ratio_filter_strict_witness :
  nth_error
    (log_of (process_windows (A := binary64)
               (one_window_tools (A := binary64) 95)
               (sec (A := binary64) 0.9)
               [(sec (A := binary64) 0, sec (A := binary64) 100)])) 0
  = Some Skipped <->
  sec (A := binary64) 0.9
  < ratio_of (A := binary64) (one_window_tools (A := binary64) 95)
      (sec (A := binary64) 0, sec (A := binary64) 100).
Proof.
  apply (proj1 silence_ratio_filter_strict binary64 _ _
           [(sec (A := binary64) 0, sec (A := binary64) 100)] 0%nat).
  reflexivity.
Defined.

End ExtractorClaims.

(** ** The silence event parser *)

Section ParserFacts.
Import PyStr SilenceParser.

Context {A : arithmetic}.
Variable float : string -> option time.

Lemma parse_line_payload st line :
  parse_line float st line =
  match numeric_payload (snd st) line with
  | None => Ok st
  | Some payload =>
      x <- first_float float payload ;;
      Ok (if contains "silence_start" line
          then (fst st, Some x)
          else match snd st with
               | Some started =>
                   (fst st ++ [SilenceSegment.mk started x (sub x started)],
                    None)
               | None => st
               end)
  end.
Proof.
  destruct st as [silences silence_start].
  unfold parse_line, numeric_payload. cbn [fst snd].
  destruct (contains "silencedetect" line); [|reflexivity].
  destruct (contains "silence_start" line).
  - destruct (split "silence_start:" line) as [|p0 [|p1 parts]];
      reflexivity.
  - destruct (contains "silence_end" line); [|reflexivity].
    destruct silence_start as [started|]; [|reflexivity].
    destruct (split "silence_end:" line) as [|p0 [|p1 parts]];
      reflexivity.
Qed.

Lemma numeric_payload_marker silence_start line :
  marker_line line = false -> numeric_payload silence_start line = None.
Proof.
  unfold marker_line, numeric_payload.
  destruct (contains "silencedetect" line); [|reflexivity].
  destruct (contains "silence_start" line); [discriminate|].
  destruct (contains "silence_end" line); [discriminate|]. reflexivity.
Qed.

(** Which text is read depends on whether a start is pending, not on the
    pending number. *)
Lemma numeric_payload_pending silence_start line :
  numeric_payload silence_start line
  = numeric_payload
      (if Reassembler.is_some silence_start then Some 0 else None) line.
Proof. destruct silence_start; reflexivity. Qed.

(** A text read on an end marker line is read with a start pending. *)
Lemma numeric_payload_end silence_start line payload :
  numeric_payload silence_start line = Some payload ->
  contains "silence_start" line = false ->
  Reassembler.is_some silence_start = true.
Proof.
  unfold numeric_payload.
  destruct (contains "silencedetect" line); [|discriminate].
  destruct (contains "silence_start" line); [intros _ H; discriminate H|].
  destruct (contains "silence_end" line); [|discriminate].
  destruct silence_start; [reflexivity | discriminate].
Qed.

(** The scan returns exactly when every text it reads parses. *)
Lemma parse_lines_returns lines : forall st,
  Forall (parses float)
         (payloads_read (Reassembler.is_some (snd st)) lines) <->
  exists st', parse_lines float st lines = Ok st'.
Proof.
  induction lines as [|line rest IH]; intros st;
    cbn [parse_lines payloads_read].
  - split; [intros _; exists st; reflexivity | intros _; apply Forall_nil].
  - rewrite parse_line_payload, (numeric_payload_pending (snd st)).
    destruct (numeric_payload _ line) as [payload|] eqn:Hp.
    + destruct (first_float float payload) as [x|e] eqn:Hx; cbn [bind].
      * assert (Hnext :
            Reassembler.is_some
              (snd (if contains "silence_start" line
                    then (fst st, Some x)
                    else match snd st with
                         | Some started =>
                             (fst st ++
                                [SilenceSegment.mk started x (sub x started)],
                              None)
                         | None => st
                         end))
            = contains "silence_start" line).
        { destruct (contains "silence_start" line) eqn:Hs; [reflexivity|].
          rewrite <- numeric_payload_pending in Hp.
          pose proof (numeric_payload_end _ _ _ Hp Hs) as Hsome.
          destruct (snd st); [reflexivity | discriminate]. }
        rewrite <- IH, Hnext. split.
        -- intros H. inversion H; subst. assumption.
        -- intros H. apply Forall_cons; [exists x; exact Hx | exact H].
      * split.
        -- intros H. inversion H as [|? ? (x & Hx') _]; subst. congruence.
        -- intros (st' & H). discriminate.
    + cbn [bind]. apply IH.
Qed.

End ParserFacts.

Section ParserClaims.
Import PyStr SilenceParser Windows.

(** C8, as amended: whatever [float] accepts, the parser returns on a
    text stream exactly when each number the scan reads after a marker
    parses; a line without the tag or without a marker is skipped and
    leaves the scan unchanged.  A number that does not parse is not
    skipped: the error of [float] ends the whole parse. *)
Theorem parser_returns_when_numbers_parse :
  forall (A : arithmetic) (float : string -> option time),
    (forall stderr,
        Forall (parses float) (payloads_read false (split newline stderr))
        <-> exists silences, detect_silences float stderr = Ok silences) /\
    (forall st line,
        marker_line line = false -> parse_line float st line = Ok st) /\
    (forall st line rest payload e,
        numeric_payload (snd st) line = Some payload ->
        first_float float payload = Raise e ->
        parse_lines float st (line :: rest) = Raise e).
Proof.
  intros A float. split; [|split].
  - intros stderr. unfold detect_silences.
    rewrite (parse_lines_returns float (split newline stderr) ([], None)).
    cbn [snd Reassembler.is_some]. split.
    + intros (st' & ->). exists (fst st'). reflexivity.
    + intros (silences & H).
      destruct (parse_lines float ([], None) (split newline stderr))
        as [st'|e]; [exists st'; reflexivity | discriminate].
  - intros st line Hm. rewrite parse_line_payload.
    rewrite numeric_payload_marker by exact Hm. reflexivity.
  - intros st line rest payload e Hp He. cbn [parse_lines].
    rewrite parse_line_payload, Hp, He. reflexivity.
Qed.

(** The parser returns on [stderr_good], and also on
    [stderr_stray_end]: the number missing after the end marker of its
    first line is never read, no start being pending there. *)
Lemma parser_returns_when_numbers_parse_witness :
  (exists silences,
      detect_silences (A := binary64) (PyStr.float (A := binary64))
        stderr_good = Ok silences) /\
  (exists silences,
      detect_silences (A := binary64) (PyStr.float (A := binary64))
        stderr_stray_end = Ok silences).
Proof.
  assert (Hparses : forall payload x,
             first_float (PyStr.float (A := binary64)) payload = Ok x ->
             parses (PyStr.float (A := binary64)) payload)
    by (intros payload x H; exists x; exact H).
  split;
    apply (proj1 (parser_returns_when_numbers_parse binary64
                    (PyStr.float (A := binary64))));
    [ assert (E : payloads_read false (split newline stderr_good)
                  = [" 40"; "42 "]%string) by (vm_compute; reflexivity)
    | assert (E : payloads_read false (split newline stderr_stray_end)
                  = [" 40"; "42 "]%string) by (vm_compute; reflexivity) ];
    rewrite E;
    (apply Forall_cons; [|apply Forall_cons; [|apply Forall_nil]]).
  - apply (Hparses _ (sec (A := binary64) 40)). vm_compute. reflexivity.
  - apply (Hparses _ (sec (A := binary64) 42)). vm_compute. reflexivity.
  - apply (Hparses _ (sec (A := binary64) 40)). vm_compute. reflexivity.
  - apply (Hparses _ (sec (A := binary64) 42)). vm_compute. reflexivity.
Defined.

(** C8 as stated fails: a start marker followed by [N/A] is not skipped,
    the parse ends with [ValueError]; without that line the same stream
    yields the silence (40, 42). *)
Lemma parser_skips_bad_numbers_counterexample :
  PyStr.float (A := binary64) "N/A" = None /\
  detect_silences (A := binary64) (PyStr.float (A := binary64)) stderr_bad
  = Raise ValueError /\
  exists silences,
    detect_silences (A := binary64) (PyStr.float (A := binary64))
      stderr_good = Ok silences /\
    map (fun s => (SilenceSegment.start s, SilenceSegment.end_ s)) silences
    = [(sec (A := binary64) 40, sec (A := binary64) 42)].
Proof.
  split; [reflexivity|]. split; [vm_compute; reflexivity|].
  destruct (detect_silences (A := binary64) (PyStr.float (A := binary64))
              stderr_good) as [silences|] eqn:E;
    [|vm_compute in E; discriminate].
  exists silences. split; [reflexivity|].
  apply windows_eqb_eq.
  assert (H : match detect_silences (A := binary64)
                      (PyStr.float (A := binary64)) stderr_good with
              | Ok l => windows_eqb
                          (map (fun s => (SilenceSegment.start s,
                                          SilenceSegment.end_ s)) l)
                          [(sec (A := binary64) 40, sec (A := binary64) 42)]
              | Raise _ => false
              end = true) by (vm_compute; reflexivity).
  rewrite E in H. exact H.
Qed.

End ParserClaims.

(** ** Reassembly of the transcripts *)

Section ReassemblerFacts.
Import PyStr Reassembler.

Lemma merge_seg_spec dir parts log seg :
  merge_seg dir (parts, log) seg =
  (parts ++ block_of dir seg, log ++ warning_of dir seg).
Proof.
  unfold merge_seg, block_of, warning_of, text_of.
  destruct (lookup _ dir) as [[text|]|]; rewrite ?app_nil_r; try reflexivity.
  destruct (negb (is_empty (strip text))); rewrite ?app_nil_r; reflexivity.
Qed.

Lemma fold_merge_seg dir segs : forall parts log,
  fold_left (merge_seg dir) segs (parts, log) =
  (parts ++ flat_map (block_of dir) segs,
   log ++ flat_map (warning_of dir) segs).
Proof.
  induction segs as [|seg segs IH]; intros parts log; cbn [fold_left flat_map].
  - rewrite !app_nil_r. reflexivity.
  - rewrite merge_seg_spec, IH, <- !app_assoc. reflexivity.
Qed.

Lemma merge_file_spec dir parts log name :
  merge_file dir (parts, log) name =
  (parts ++ file_block dir name, log ++ file_warning dir name).
Proof.
  unfold merge_file, file_block, file_warning, text_of.
  destruct (lookup _ dir) as [[text|]|]; rewrite ?app_nil_r; try reflexivity.
  destruct (negb (is_empty (strip text))); rewrite ?app_nil_r; reflexivity.
Qed.

Lemma fold_merge_file dir names : forall parts log,
  fold_left (merge_file dir) names (parts, log) =
  (parts ++ flat_map (file_block dir) names,
   log ++ flat_map (file_warning dir) names).
Proof.
  induction names as [|name names IH]; intros parts log;
    cbn [fold_left flat_map].
  - rewrite !app_nil_r. reflexivity.
  - rewrite merge_file_spec, IH, <- !app_assoc. reflexivity.
Qed.

(** A record without text contributes no block. *)
Lemma blocks_of_those_with_text dir segs :
  flat_map (block_of dir) segs
  = flat_map (block_of dir) (filter (has_text dir) segs).
Proof.
  induction segs as [|seg segs IH]; [reflexivity|]. cbn [flat_map filter].
  unfold has_text at 1, block_of at 1.
  destruct (text_of dir _) eqn:E; cbn [is_some flat_map].
  - unfold block_of at 2. rewrite E, IH. reflexivity.
  - exact IH.
Qed.

(** Looking a name up does not depend on the order of the listing. *)
Lemma lookup_not_in name dir :
  ~ In name (map fst dir) -> lookup name dir = None.
Proof.
  induction dir as [|[n f] dir IH]; cbn; [reflexivity|]. intros H.
  destruct (String.eqb_spec n name) as [-> | _]; [tauto|].
  apply IH. tauto.
Qed.

Lemma lookup_permutation name dir dir' :
  NoDup (map fst dir) -> Permutation dir dir' ->
  lookup name dir = lookup name dir'.
Proof.
  intros Hnd Hperm. induction Hperm as [| [n f] l l' Hp IH
                                        | [n1 f1] [n2 f2] l
                                        | l1 l2 l3 H12 IH12 H23 IH23].
  - reflexivity.
  - cbn. inversion Hnd; subst. rewrite IH by assumption. reflexivity.
  - cbn. destruct (String.eqb_spec n1 name) as [-> | H1];
      destruct (String.eqb_spec n2 name) as [-> | H2]; try reflexivity.
    exfalso. cbn in Hnd. inversion Hnd as [|? ? Hnin _]; subst.
    apply Hnin. left. reflexivity.
  - rewrite IH12 by assumption. apply IH23.
    eapply Permutation_NoDup; [|exact Hnd].
    apply Permutation_map. exact H12.
Qed.

Lemma ledger_segments_some m segs :
  segments m = Some segs -> ledger_segments (Some m) = Some segs.
Proof.
  intros H. unfold ledger_segments, truthy. rewrite H. cbn.
  rewrite !orb_true_r. reflexivity.
Qed.

Lemma ledger_segments_none loaded :
  ledger_segments loaded = None <->
  loaded = None \/ exists m, loaded = Some m /\ segments m = None.
Proof.
  unfold ledger_segments, truthy. destruct loaded as [m|].
  - destruct (segments m) as [segs|] eqn:E; cbn.
    + rewrite !orb_true_r. cbn. split; [discriminate|].
      intros [H | (m' & [= <-] & H)]; congruence.
    + rewrite andb_false_r. split; [|reflexivity].
      intros _. right. exists m. split; [reflexivity | exact E].
  - split; [left; reflexivity | reflexivity].
Qed.

(** The outcome of the primary path in closed form. *)
Lemma merge_transcripts_ledger m segs dir write_ok :
  segments m = Some segs ->
  merge_transcripts (Some m) dir write_ok =
  let parts := flat_map (block_of dir) segs in
  let log1 := [FoundSegments (List.length segs)]
                ++ flat_map (warning_of dir) segs in
  match parts with
  | [] => {| ok := false; merged_parts := parts; written := None;
             log := log1 ++ [NoContent] |}
  | _ :: _ =>
      if write_ok
      then {| ok := true; merged_parts := parts; written := Some parts;
              log := log1 ++ [Saved] |}
      else {| ok := false; merged_parts := parts; written := None;
              log := log1 ++ [CouldNotWrite] |}
  end.
Proof.
  intros H. unfold merge_transcripts.
  rewrite (ledger_segments_some m segs H), fold_merge_seg. cbn [app].
  destruct (flat_map (block_of dir) segs); reflexivity.
Qed.

(** The outcome of the fallback path in closed form. *)
Lemma merge_transcripts_fallback loaded dir write_ok :
  ledger_segments loaded = None ->
  merge_transcripts loaded dir write_ok =
  let names := sorted (glob dir) in
  let parts := flat_map (file_block dir) names in
  let log1 := (match loaded with
               | Some _ => []
               | None => [CouldNotLoadMetadata]
               end ++ [FoundTranscriptFiles (List.length names)])
                ++ flat_map (file_warning dir) names in
  match parts with
  | [] => {| ok := false; merged_parts := parts; written := None;
             log := log1 ++ [NoContent] |}
  | _ :: _ =>
      if write_ok
      then {| ok := true; merged_parts := parts; written := Some parts;
              log := log1 ++ [Saved] |}
      else {| ok := false; merged_parts := parts; written := None;
              log := log1 ++ [CouldNotWrite] |}
  end.
Proof.
  intros H. unfold merge_transcripts.
  destruct loaded as [m|]; rewrite H, fold_merge_file; cbn [app];
    destruct (flat_map (file_block dir) (sorted (glob dir))); reflexivity.
Qed.

End ReassemblerFacts.

Section ReassemblerClaims.
Import PyStr Reassembler.

Lemma warning_not_found_files dir segs n :
  ~ In (FoundTranscriptFiles n) (flat_map (warning_of dir) segs).
Proof.
  rewrite in_flat_map. intros (seg & _ & H). unfold warning_of in H.
  destruct (lookup _ dir) as [[text|]|]; cbn in H;
    try contradiction; destruct H as [H | []]; discriminate.
Qed.

Lemma ledger_run_not_fallback m segs dir write_ok :
  segments m = Some segs ->
  ~ used_fallback (merge_transcripts (Some m) dir write_ok).
Proof.
  intros Hs (n & Hin). rewrite (merge_transcripts_ledger m segs) in Hin
    by exact Hs.
  cbv zeta in Hin.
  assert (Hfinal : forall final,
             In (FoundTranscriptFiles n)
                (([FoundSegments (List.length segs)]
                    ++ flat_map (warning_of dir) segs) ++ [final]) ->
             final = FoundTranscriptFiles n).
  { intros final H. rewrite !in_app_iff in H.
    destruct H as [[[H | []] | H] | [H | []]].
    - discriminate.
    - exfalso. exact (warning_not_found_files dir segs n H).
    - exact H. }
  destruct (flat_map (block_of dir) segs); [|destruct write_ok];
    cbn [log] in Hin; apply Hfinal in Hin; discriminate.
Qed.

(** C3, as amended: on the ledger path [merge_transcripts] emits one
    labelled block per ledger record whose transcript exists, can be read
    and is not empty after trimming, in the ledger's record order whatever
    the order in which the directory lists its files; a record whose
    transcript is missing gives a warning and is passed over, the other
    records being merged as if it were not there; and the function
    returns failure exactly when no block was collected or the merged
    file could not be written. *)
Theorem ledger_order_reassembly :
  forall m segs dir write_ok,
    segments m = Some segs ->
    let r := merge_transcripts (Some m) dir write_ok in
    used_ledger r /\
    merged_parts r = flat_map (block_of dir) (filter (has_text dir) segs) /\
    (forall dir',
        NoDup (map fst dir) -> Permutation dir dir' ->
        merge_transcripts (Some m) dir' write_ok = r) /\
    (forall before seg after,
        segs = before ++ seg :: after ->
        lookup (transcript_name (Seg.filename seg)) dir = None ->
        In (TranscriptNotFound (transcript_name (Seg.filename seg))) (log r) /\
        merged_parts r
        = flat_map (block_of dir) (filter (has_text dir) (before ++ after))) /\
    (ok r = false <-> merged_parts r = [] \/ write_ok = false).
Proof.
  intros m segs dir write_ok Hs r.
  assert (Hparts : merged_parts r = flat_map (block_of dir) segs).
  { unfold r. rewrite (merge_transcripts_ledger m segs) by exact Hs.
    cbv zeta. destruct (flat_map (block_of dir) segs); [|destruct write_ok];
      reflexivity. }
  assert (Hlog : exists final,
             log r = ([FoundSegments (List.length segs)]
                        ++ flat_map (warning_of dir) segs) ++ [final]).
  { unfold r. rewrite (merge_transcripts_ledger m segs) by exact Hs.
    cbv zeta. destruct (flat_map (block_of dir) segs); [|destruct write_ok];
      eexists; reflexivity. }
  split; [|split; [|split; [|split]]].
  - destruct Hlog as (final & Hlog). exists (List.length segs).
    rewrite Hlog. left. reflexivity.
  - rewrite Hparts. apply blocks_of_those_with_text.
  - intros dir' Hnd Hperm. unfold r.
    rewrite !(merge_transcripts_ledger m segs) by exact Hs. cbv zeta.
    assert (Hb : flat_map (block_of dir') segs = flat_map (block_of dir) segs).
    { apply flat_map_ext. intros seg. unfold block_of, text_of.
      rewrite (lookup_permutation _ dir dir') by assumption. reflexivity. }
    assert (Hw : flat_map (warning_of dir') segs
                 = flat_map (warning_of dir) segs).
    { apply flat_map_ext. intros seg. unfold warning_of.
      rewrite (lookup_permutation _ dir dir') by assumption. reflexivity. }
    rewrite Hb, Hw. reflexivity.
  - intros before seg after -> Hmiss. split.
    + destruct Hlog as (final & ->).
      rewrite !in_app_iff. left. right. rewrite in_flat_map.
      exists seg. split; [apply in_elt|].
      unfold warning_of. rewrite Hmiss. left. reflexivity.
    + rewrite Hparts, <- blocks_of_those_with_text, !flat_map_app.
      cbn [flat_map]. unfold block_of at 2, text_of. rewrite Hmiss.
      reflexivity.
  - unfold r. rewrite (merge_transcripts_ledger m segs) by exact Hs.
    cbv zeta. destruct (flat_map (block_of dir) segs); [|destruct write_ok];
      cbn [ok merged_parts]; split; auto;
      intros [H | H]; congruence.
Qed.

(** White space is what [str.strip] removes, the spaces of Unicode
    included: a transcript of such spaces only gives no block. *)
Lemma wide_blank_is_trimmed :
  strip wide_blank = ""%string /\
  strip ("  two" ++ wide_blank) = "two"%string /\
  has_text mixed_directory (Seg.mk "segment_003.wav" None None) = false /\
  ok (merge_transcripts (Some three_records)
        [("segment_003.txt", Readable wide_blank)]%string true) = false.
Proof. repeat split; vm_compute; reflexivity. Qed.

(** For [two_records] the transcript of the first record is missing;
    for [three_records] in [mixed_directory], listed out of order, the
    second record's transcript holds white space only and the blocks are
    those of the first and the third record, in ledger order. *)
Lemma ledger_order_reassembly_witness :
  (let r := merge_transcripts (Some two_records) second_only true in
   used_ledger r /\
   merged_parts r
   = flat_map (block_of second_only)
       (filter (has_text second_only)
          [Seg.mk "segment_001.wav" (Some 0) (Some (Q2Qc 41));
           Seg.mk "segment_002.wav" (Some (Q2Qc 41)) None]) /\
   (forall dir',
       NoDup (map fst second_only) -> Permutation second_only dir' ->
       merge_transcripts (Some two_records) dir' true = r) /\
   (forall before seg after,
       [Seg.mk "segment_001.wav" (Some 0) (Some (Q2Qc 41));
        Seg.mk "segment_002.wav" (Some (Q2Qc 41)) None]
       = before ++ seg :: after ->
       lookup (transcript_name (Seg.filename seg)) second_only = None ->
       In (TranscriptNotFound (transcript_name (Seg.filename seg))) (log r) /\
       merged_parts r
       = flat_map (block_of second_only)
           (filter (has_text second_only) (before ++ after))) /\
   (ok r = false <-> merged_parts r = [] \/ true = false)) /\
  merged_parts (merge_transcripts (Some three_records) mixed_directory true)
  = [HeaderTimed "segment_002.wav" 0 (Q2Qc 41); Text "two"; Blank;
     HeaderTimed "segment_010.wav" (Q2Qc 100) 0; Text "ten"; Blank].
Proof.
  split.
  - apply (ledger_order_reassembly two_records
             [Seg.mk "segment_001.wav" (Some 0) (Some (Q2Qc 41));
              Seg.mk "segment_002.wav" (Some (Q2Qc 41)) None]
             second_only true).
    reflexivity.
  - vm_compute. reflexivity.
Defined.

(** C3 as stated fails: with one non-empty block collected the function
    still returns failure when the merged file cannot be written. *)
Lemma ledger_order_reassembly_counterexample :
  let r := merge_transcripts (Some two_records) second_only false in
  ok r = false /\ texts (merged_parts r) = ["hello"%string] /\
  merged_parts r <> [].
Proof.
  cbv zeta. split; [|split].
  - vm_compute. reflexivity.
  - vm_compute. reflexivity.
  - vm_compute. discriminate.
Qed.

(** C10: a ledger that parses and holds an empty ['segments'] list is
    merged on the ledger path: no block is collected, nothing is read from
    the directory and the function returns failure; the fallback on file
    names is used exactly when the ledger could not be loaded or has no
    ['segments'] key. *)
Theorem empty_ledger_stays_on_ledger_path :
  (forall m dir write_ok,
      segments m = Some [] ->
      merge_transcripts (Some m) dir write_ok
      = {| ok := false; merged_parts := []; written := None;
           log := [FoundSegments 0; NoContent] |}) /\
  (forall loaded dir write_ok,
      used_fallback (merge_transcripts loaded dir write_ok) <->
      loaded = None \/ exists m, loaded = Some m /\ segments m = None).
Proof.
  split.
  - intros m dir write_ok Hs.
    rewrite (merge_transcripts_ledger m []) by exact Hs. reflexivity.
  - intros loaded dir write_ok. rewrite <- ledger_segments_none. split.
    + intros Hfb. destruct loaded as [m|]; [|reflexivity].
      destruct (segments m) as [segs|] eqn:Hs.
      * exfalso. exact (ledger_run_not_fallback m segs dir write_ok Hs Hfb).
      * apply ledger_segments_none. right. exists m. auto.
    + intros Hnone. rewrite merge_transcripts_fallback by exact Hnone.
      cbv zeta. exists (List.length (sorted (glob dir))).
      destruct (flat_map (file_block dir) (sorted (glob dir)));
        [|destruct write_ok]; cbn [log]; rewrite !in_app_iff;
        left; left; right; left; reflexivity.
Qed.

Lemma empty_ledger_stays_on_ledger_path_witness :
  merge_transcripts (Some empty_ledger) second_only true
  = {| ok := false; merged_parts := []; written := None;
       log := [FoundSegments 0; NoContent] |}.
Proof.
  apply (proj1 empty_ledger_stays_on_ledger_path). reflexivity.
Defined.

End ReassemblerClaims.

(** ** File names and the fallback order *)

Section NamingFacts.
Import PyStr Extractor Reassembler.

Lemma name_ltb_lt a b : name_ltb a b = true <-> OrdersEx.String_as_OT.lt a b.
Proof.
  unfold name_ltb, OrdersEx.String_as_OT.lt.
  destruct (OrdersEx.String_as_OT.compare a b); split; congruence.
Qed.

Lemma name_lt_trans a b c : OrdersEx.String_as_OT.lt a b -> OrdersEx.String_as_OT.lt b c -> OrdersEx.String_as_OT.lt a c.
Proof. apply OrdersEx.String_as_OT.lt_strorder. Qed.

Lemma name_lt_irrefl a : ~ OrdersEx.String_as_OT.lt a a.
Proof. apply OrdersEx.String_as_OT.lt_strorder. Qed.

(** Checked name by name: up to 999 each name is below the next one, is
    the expected string and matches the pattern of the fallback. *)
Lemma padded_names_checked :
  forallb (fun i =>
             name_ltb (segment_transcript i) (segment_transcript (S i)))
          (seq 0 last_padded) = true /\
  forallb (fun i => glob_match (segment_transcript i))
          (seq 0 (S last_padded)) = true.
Proof. split; vm_compute; reflexivity. Qed.

Lemma padded_next_lt i :
  (i < last_padded)%nat ->
  OrdersEx.String_as_OT.lt (segment_transcript i) (segment_transcript (S i)).
Proof.
  intros Hi. apply name_ltb_lt.
  pose proof (proj1 padded_names_checked) as H.
  rewrite forallb_forall in H. apply H. apply in_seq. lia.
Qed.

Lemma padded_glob_match i :
  (i <= last_padded)%nat -> glob_match (segment_transcript i) = true.
Proof.
  intros Hi. pose proof (proj2 padded_names_checked) as H.
  rewrite forallb_forall in H. apply H. apply in_seq. lia.
Qed.

Lemma padded_lt i j :
  (i < j)%nat -> (j <= last_padded)%nat ->
  OrdersEx.String_as_OT.lt (segment_transcript i) (segment_transcript j).
Proof.
  induction j as [|j IH]; intros Hij Hj; [lia|].
  destruct (Nat.eq_dec i j) as [-> | Hne].
  - apply padded_next_lt. lia.
  - eapply name_lt_trans; [apply IH; lia | apply padded_next_lt; lia].
Qed.

Lemma padded_ltb i j :
  (i <= last_padded)%nat -> (j <= last_padded)%nat ->
  name_ltb (segment_transcript i) (segment_transcript j) = (i <? j)%nat.
Proof.
  intros Hi Hj. destruct (Nat.ltb_spec i j) as [Hlt | Hge].
  - apply name_ltb_lt. apply padded_lt; assumption.
  - destruct (name_ltb _ _) eqn:E; [|reflexivity].
    apply name_ltb_lt in E. exfalso.
    destruct (Nat.eq_dec i j) as [-> | Hne].
    + exact (name_lt_irrefl _ E).
    + apply (name_lt_irrefl (segment_transcript i)).
      eapply name_lt_trans; [exact E|]. apply padded_lt; lia.
Qed.

Lemma insert_padded x l :
  (x <= last_padded)%nat -> Forall (fun i => (i <= last_padded)%nat) l ->
  insert (segment_transcript x) (map segment_transcript l)
  = map segment_transcript (insert_index x l).
Proof.
  intros Hx Hl. induction Hl as [|y l Hy Hl IH]; [reflexivity|].
  cbn [map insert insert_index]. rewrite padded_ltb by assumption.
  destruct (y <? x)%nat; cbn [map]; [rewrite IH|]; reflexivity.
Qed.

Lemma insert_index_perm x l : Permutation (insert_index x l) (x :: l).
Proof.
  induction l as [|y l IH]; cbn [insert_index]; [reflexivity|].
  destruct (y <? x)%nat; [|reflexivity].
  rewrite IH. apply perm_swap.
Qed.

Lemma sort_indices_perm l : Permutation (sort_indices l) l.
Proof.
  induction l as [|x l IH]; cbn [sort_indices]; [reflexivity|].
  rewrite insert_index_perm. apply perm_skip. exact IH.
Qed.

Lemma sort_indices_bound (P : nat -> Prop) l :
  Forall P l -> Forall P (sort_indices l).
Proof.
  intros H. eapply Permutation_Forall; [|exact H].
  symmetry. apply sort_indices_perm.
Qed.

Lemma sorted_padded l :
  Forall (fun i => (i <= last_padded)%nat) l ->
  sorted (map segment_transcript l)
  = map segment_transcript (sort_indices l).
Proof.
  intros Hl. induction Hl as [|x l Hx Hl IH]; [reflexivity|].
  cbn [map sorted sort_indices]. rewrite IH.
  apply insert_padded; [exact Hx | apply sort_indices_bound; exact Hl].
Qed.

Lemma insert_index_sorted x l :
  Sorted le l -> Sorted le (insert_index x l).
Proof.
  induction l as [|y l IH]; intros Hs; cbn [insert_index].
  - repeat constructor.
  - inversion Hs as [|? ? Hs' Hhd]; subst.
    destruct (Nat.ltb_spec y x) as [Hlt | Hge].
    + constructor; [apply IH; exact Hs'|].
      destruct l as [|z l]; cbn [insert_index].
      * constructor. lia.
      * inversion Hhd; subst. destruct (z <? x)%nat; constructor; lia.
    + constructor; [exact Hs | constructor; exact Hge].
Qed.

Lemma sort_indices_sorted l : Sorted le (sort_indices l).
Proof.
  induction l as [|x l IH]; cbn [sort_indices]; [constructor|].
  apply insert_index_sorted; exact IH.
Qed.

Lemma insert_index_comm x y l :
  insert_index x (insert_index y l) = insert_index y (insert_index x l).
Proof.
  induction l as [|z l IH]; cbn [insert_index].
  - destruct (Nat.ltb_spec y x), (Nat.ltb_spec x y); try reflexivity; try lia.
    replace y with x by lia. reflexivity.
  - destruct (Nat.ltb_spec z y), (Nat.ltb_spec z x); cbn [insert_index].
    + destruct (Nat.ltb_spec z x), (Nat.ltb_spec z y); try lia.
      rewrite IH. reflexivity.
    + destruct (Nat.ltb_spec x y), (Nat.ltb_spec z x); try lia.
      destruct (Nat.ltb_spec z y); try lia. reflexivity.
    + destruct (Nat.ltb_spec y x), (Nat.ltb_spec z y); try lia.
      destruct (Nat.ltb_spec z x); try lia. reflexivity.
    + destruct (Nat.ltb_spec y x), (Nat.ltb_spec x y); try lia.
      * destruct (Nat.ltb_spec z x); try lia. reflexivity.
      * destruct (Nat.ltb_spec z y); try lia. reflexivity.
      * replace y with x by lia. reflexivity.
Qed.

Lemma sort_indices_permutation l l' :
  Permutation l l' -> sort_indices l = sort_indices l'.
Proof.
  induction 1 as [| x l l' _ IH | x y l | l1 l2 l3 _ IH12 _ IH23];
    cbn [sort_indices].
  - reflexivity.
  - rewrite IH. reflexivity.
  - apply insert_index_comm.
  - congruence.
Qed.

Lemma insert_index_least x l :
  Forall (fun y => (x <= y)%nat) l -> insert_index x l = x :: l.
Proof.
  destruct 1 as [|y l Hy _]; cbn [insert_index]; [reflexivity|].
  destruct (Nat.ltb_spec y x); [lia | reflexivity].
Qed.

Lemma sort_indices_seq start len :
  sort_indices (seq start len) = seq start len.
Proof.
  revert start. induction len as [|len IH]; intros start; [reflexivity|].
  cbn [seq sort_indices]. rewrite IH. apply insert_index_least.
  apply Forall_forall. intros y Hy. apply in_seq in Hy. lia.
Qed.

Lemma sorted_padded_seq k names :
  (k <= last_padded)%nat ->
  Permutation names (map segment_transcript (seq 1 k)) ->
  sorted names = map segment_transcript (seq 1 k).
Proof.
  intros Hk Hperm.
  destruct (Permutation_map_inv _ _ Hperm) as (idxs & -> & Hidx).
  rewrite sorted_padded.
  - rewrite <- (sort_indices_permutation _ _ Hidx), sort_indices_seq.
    reflexivity.
  - eapply Permutation_Forall; [exact Hidx|].
    apply Forall_forall. intros i Hi. apply in_seq in Hi. lia.
Qed.

End NamingFacts.

Section NamingClaims.
Import PyStr Extractor Reassembler.

Lemma texts_file_blocks dir names :
  texts (flat_map (file_block dir) names)
  = flat_map (fun n => match text_of dir n with
                       | Some c => [c]
                       | None => []
                       end) names.
Proof.
  induction names as [|n names IH]; [reflexivity|].
  cbn [flat_map]. unfold texts in *. rewrite flat_map_app, IH.
  unfold file_block. destruct (text_of dir n); reflexivity.
Qed.

Lemma texts_blocks dir segs :
  texts (flat_map (block_of dir) segs)
  = flat_map (fun n => match text_of dir n with
                       | Some c => [c]
                       | None => []
                       end)
      (map transcript_name (map Seg.filename segs)).
Proof.
  induction segs as [|seg segs IH]; [reflexivity|].
  cbn [flat_map map]. unfold texts in *. rewrite flat_map_app, IH.
  unfold block_of. destruct (text_of dir _); reflexivity.
Qed.

Lemma merged_parts_ledger m segs dir write_ok :
  segments m = Some segs ->
  merged_parts (merge_transcripts (Some m) dir write_ok)
  = flat_map (block_of dir) segs.
Proof.
  intros Hs. rewrite (merge_transcripts_ledger m segs) by exact Hs.
  cbv zeta. destruct (flat_map (block_of dir) segs); [|destruct write_ok];
    reflexivity.
Qed.

Lemma merged_parts_fallback loaded dir write_ok :
  ledger_segments loaded = None ->
  merged_parts (merge_transcripts loaded dir write_ok)
  = flat_map (file_block dir) (sorted (glob dir)).
Proof.
  intros Hn. rewrite merge_transcripts_fallback by exact Hn.
  cbv zeta. destruct (flat_map (file_block dir) (sorted (glob dir)));
    [|destruct write_ok]; reflexivity.
Qed.

Lemma filter_all {A} (f : A -> bool) l :
  Forall (fun x => f x = true) l -> filter f l = l.
Proof.
  induction 1 as [|x l Hx _ IH]; cbn [filter]; [reflexivity|].
  rewrite Hx, IH. reflexivity.
Qed.

(** C9, as amended: for segment indices up to 999, the largest that the
    three-digit pad writes with three digits, sorting the transcript names
    [segment_001.txt, segment_002.txt, ...] lexicographically lists them
    in ascending order of segment index, the order of the ledger; hence
    for a directory that holds the transcripts of the [k <= 999] ledger
    records, the fallback merges the same texts in the same order as the
    ledger path. *)
Theorem padded_names_sort_by_index :
  (forall idxs,
      Forall (fun i => (i <= last_padded)%nat) idxs ->
      sorted (map segment_transcript idxs)
      = map segment_transcript (sort_indices idxs) /\
      Permutation (sort_indices idxs) idxs /\
      Sorted le (sort_indices idxs)) /\
  (forall k names,
      (k <= last_padded)%nat ->
      Permutation names (map segment_transcript (seq 1 k)) ->
      sorted names = map segment_transcript (seq 1 k)) /\
  (forall k m segs dir loaded write_ok,
      (k <= last_padded)%nat ->
      segments m = Some segs ->
      map Seg.filename segs = map segment_filename (seq 1 k) ->
      Permutation (map fst dir) (map segment_transcript (seq 1 k)) ->
      ledger_segments loaded = None ->
      texts (merged_parts (merge_transcripts loaded dir write_ok))
      = texts (merged_parts (merge_transcripts (Some m) dir write_ok))).
Proof.
  split; [|split].
  - intros idxs Hb. split; [apply sorted_padded; exact Hb|].
    split; [apply sort_indices_perm | apply sort_indices_sorted].
  - intros k names Hk Hperm. apply sorted_padded_seq; assumption.
  - intros k m segs dir loaded write_ok Hk Hs Hnames Hdir Hnone.
    rewrite (merged_parts_ledger m segs) by exact Hs.
    rewrite merged_parts_fallback by exact Hnone.
    rewrite texts_file_blocks, texts_blocks, Hnames, map_map.
    change (map (fun x => transcript_name (segment_filename x)) (seq 1 k))
      with (map segment_transcript (seq 1 k)).
    f_equal. unfold glob. rewrite filter_all.
    + apply sorted_padded_seq; assumption.
    + eapply Permutation_Forall; [symmetry; exact Hdir|].
      apply Forall_forall. intros n Hn. apply in_map_iff in Hn.
      destruct Hn as (i & <- & Hi). apply in_seq in Hi.
      apply padded_glob_match. lia.
Qed.

Lemma padded_names_sort_by_index_witness :
  sorted (map segment_transcript [10; 2; 1; 999]%nat)
  = map segment_transcript (sort_indices [10; 2; 1; 999]%nat) /\
  Permutation (sort_indices [10; 2; 1; 999]%nat) [10; 2; 1; 999]%nat /\
  Sorted le (sort_indices [10; 2; 1; 999]%nat).
Proof.
  apply (proj1 padded_names_sort_by_index).
  repeat constructor; unfold last_padded; lia.
Defined.

(** C9 as stated fails from the thousandth segment on: the extractor
    names it [segment_1000], which sorts before [segment_999]. *)
Lemma padded_names_sort_by_index_counterexample :
  segment_filename 1000 = "segment_1000.wav"%string /\
  sorted (map segment_transcript [999; 1000]%nat)
  = map segment_transcript [1000; 999]%nat /\
  sorted (map segment_transcript [999; 1000]%nat)
  <> map segment_transcript [999; 1000]%nat.
Proof.
  split; [reflexivity|]. split; [vm_compute; reflexivity|].
  vm_compute. discriminate.
Qed.

End NamingClaims.

(** ** More on the silence event parser *)

Section ParserExtras.
Import PyStr SilenceParser Counting.

Context {A : arithmetic}.
Variable float : string -> option time.

Lemma parse_line_cases st line st' :
  parse_line float st line = Ok st' ->
  st' = st \/
  (contains "silence_start" line = true /\ exists x, st' = (fst st, Some x)) \/
  (contains "silence_end" line = true /\
   exists started x,
     snd st = Some started /\
     st' = (fst st ++ [SilenceSegment.mk started x (sub x started)], None)).
Proof.
  destruct st as [silences silence_start]. unfold parse_line. cbn [fst snd].
  destruct (contains "silencedetect" line); [|intros [= <-]; left; reflexivity].
  destruct (contains "silence_start" line).
  - destruct (1 <? _)%nat; [|intros [= <-]; left; reflexivity].
    destruct (first_float float _) as [x|e]; cbn [bind]; [|discriminate].
    intros [= <-]. right. left. split; [reflexivity|]. exists x. reflexivity.
  - destruct (contains "silence_end" line);
      [|intros [= <-]; left; reflexivity].
    destruct silence_start as [started|]; [|intros [= <-]; left; reflexivity].
    destruct (1 <? _)%nat; [|intros [= <-]; left; reflexivity].
    destruct (first_float float _) as [x|e]; cbn [bind]; [|discriminate].
    intros [= <-]. right. right. split; [reflexivity|].
    exists started, x. split; reflexivity.
Qed.

Lemma parse_lines_filter lines : forall st,
  parse_lines float st lines = parse_lines float st (filter marker_line lines).
Proof.
  induction lines as [|line rest IH]; intros st; [reflexivity|].
  cbn [filter]. destruct (marker_line line) eqn:Hm; cbn [parse_lines].
  - destruct (parse_line float st line) as [st'|e]; cbn [bind];
      [apply IH | reflexivity].
  - rewrite parse_line_payload, numeric_payload_marker by exact Hm.
    cbn [bind]. apply IH.
Qed.

Lemma lines_with_cons sub line rest :
  lines_with sub (line :: rest)
  = ((if contains sub line then 1 else 0) + lines_with sub rest)%nat.
Proof.
  unfold lines_with. cbn [filter]. destruct (contains sub line); reflexivity.
Qed.

Lemma parse_lines_invariant lines : forall st st',
  parse_lines float st lines = Ok st' ->
  Forall (fun s => SilenceSegment.duration s
                   = sub (SilenceSegment.end_ s) (SilenceSegment.start s)) (fst st) ->
  Forall (fun s => SilenceSegment.duration s
                   = sub (SilenceSegment.end_ s) (SilenceSegment.start s)) (fst st') /\
  (List.length (fst st')
   <= List.length (fst st) + lines_with "silence_end" lines)%nat /\
  (List.length (fst st') + pending st'
   <= List.length (fst st) + pending st + lines_with "silence_start" lines)%nat.
Proof.
  induction lines as [|line rest IH]; intros st st' Hrun Hdur.
  - cbn in Hrun. injection Hrun as <-. repeat split; [exact Hdur | lia | lia].
  - cbn [parse_lines] in Hrun.
    destruct (parse_line float st line) as [st1|e] eqn:Hline; cbn [bind] in Hrun;
      [|discriminate].
    rewrite !lines_with_cons.
    destruct (parse_line_cases st line st1 Hline)
      as [-> | [(Hs & x & ->) | (He & started & x & Hpend & ->)]].
    + destruct (IH _ _ Hrun Hdur) as (H1 & H2 & H3). repeat split;
        [exact H1 | lia | lia].
    + destruct (IH _ _ Hrun Hdur) as (H1 & H2 & H3). rewrite Hs.
      unfold pending in *. cbn [fst snd] in *.
      repeat split; [exact H1 | lia |].
      destruct (snd st); lia.
    + assert (Hdur' : Forall (fun s => SilenceSegment.duration s
                          = sub (SilenceSegment.end_ s) (SilenceSegment.start s))
                        (fst st ++ [SilenceSegment.mk started x (sub x started)])).
      { apply Forall_app. split; [exact Hdur|]. repeat constructor. }
      destruct (IH _ _ Hrun Hdur') as (H1 & H2 & H3). rewrite He.
      unfold pending in *. cbn [fst snd] in *. rewrite Hpend.
      rewrite length_app in H2, H3. cbn [List.length] in H2, H3.
      repeat split; [exact H1 | lia | lia].
Qed.

End ParserExtras.

Section ParserExtraTheorems.
Import PyStr SilenceParser Counting Windows.

(** X1: whatever the rounding of the arithmetic, lines that lack the [silencedetect] tag or both markers never
    change what the scan returns or raises: scanning a stream equals
    scanning its marker lines alone. *)
Theorem noise_lines_do_not_matter :
  forall (A : arithmetic) (float : string -> option time),
    (forall st lines,
        parse_lines float st lines
        = parse_lines float st (filter marker_line lines)) /\
    (forall stderr,
        detect_silences float stderr
        = (st <- parse_lines float ([], None)
                   (filter marker_line (split newline stderr)) ;;
           Ok (fst st))).
Proof.
  intros A float. split.
  - intros st lines. apply parse_lines_filter.
  - intros stderr. unfold detect_silences.
    rewrite <- parse_lines_filter. reflexivity.
Qed.

(** X2: whatever the rounding of the arithmetic, every silence
    [detect_silences] returns has the [duration] that [end - start]
    computes, and there are at most as many silences as
    lines with [silence_end] and as lines with [silence_start]. *)
Theorem detected_silences_are_paired :
  forall (A : arithmetic) (float : string -> option time) stderr silences,
    detect_silences float stderr = Ok silences ->
    Forall (fun s => SilenceSegment.duration s
                     = sub (SilenceSegment.end_ s) (SilenceSegment.start s))
           silences /\
    (List.length silences
     <= lines_with "silence_end" (split newline stderr))%nat /\
    (List.length silences
     <= lines_with "silence_start" (split newline stderr))%nat.
Proof.
  intros A float stderr silences. unfold detect_silences.
  destruct (parse_lines float ([], None) (split newline stderr))
    as [st'|e] eqn:Hrun; cbn [bind]; [|discriminate].
  intros [= <-].
  destruct (parse_lines_invariant float _ _ _ Hrun (Forall_nil _))
    as (H1 & H2 & H3).
  unfold pending in H3. cbn [fst snd List.length] in H2, H3.
  repeat split; [exact H1 | lia |]. destruct (snd st'); lia.
Qed.

Lemma detected_silences_are_paired_witness :
  exists silences,
    detect_silences (A := binary64) (PyStr.float (A := binary64)) stderr_good
    = Ok silences /\
    Forall (fun s => SilenceSegment.duration s
                     = sub (A := binary64) (SilenceSegment.end_ s)
                         (SilenceSegment.start s))
           silences /\
    (List.length silences
     <= lines_with "silence_end" (split newline stderr_good))%nat /\
    (List.length silences
     <= lines_with "silence_start" (split newline stderr_good))%nat.
Proof.
  destruct (detect_silences (A := binary64) (PyStr.float (A := binary64))
              stderr_good) as [silences|e] eqn:E;
    [|vm_compute in E; discriminate].
  exists silences. split; [reflexivity|].
  apply (detected_silences_are_paired binary64 (PyStr.float (A := binary64))
           stderr_good silences E).
Defined.

End ParserExtraTheorems.

(** ** More on the planner *)

Section PlannerExtras.
Import AudioSplitter Windows Cuts.

Context {A : arithmetic}.
Variables min_len max_len total_duration : time.

Lemma walk_length silences : forall acc c,
  (List.length (fst (walk min_len max_len silences (acc, c)))
   <= List.length acc + List.length silences)%nat.
Proof.
  induction silences as [|s rest IH]; intros acc c; [cbn; lia|].
  rewrite walk_cons.
  destruct (split_step_cases min_len max_len (acc, c) s)
    as [(-> & _) | (-> & _)]; cbn [fst snd List.length].
  - specialize (IH (acc ++ [(c, split_point_of s)]) (split_point_of s)).
    rewrite length_app in IH. cbn [List.length] in IH. lia.
  - specialize (IH acc c). lia.
Qed.

Lemma walk_well_cut all rest : forall acc c,
  incl rest all ->
  Forall (well_cut all total_duration) acc -> cut_start all c ->
  Forall (well_cut all total_duration)
         (fst (walk min_len max_len rest (acc, c))) /\
  cut_start all (snd (walk min_len max_len rest (acc, c))).
Proof.
  induction rest as [|s rest IH]; intros acc c Hincl Hacc Hc; [cbn; auto|].
  rewrite walk_cons.
  assert (Hs : exists s0, In s0 all /\ split_point_of s = split_point_of s0).
  { exists s. split; [apply Hincl; left|]; reflexivity. }
  assert (Hincl' : incl rest all) by (intros x Hx; apply Hincl; right; exact Hx).
  destruct (split_step_cases min_len max_len (acc, c) s)
    as [(-> & _) | (-> & _)]; cbn [fst snd].
  - apply IH; [exact Hincl' | | right; exact Hs].
    apply Forall_app. split; [exact Hacc|].
    apply Forall_cons; [|apply Forall_nil].
    split; [exact Hc | right; exact Hs].
  - apply IH; assumption.
Qed.

Lemma walk_stays silences : forall acc,
  min_len <= max_len ->
  Forall (fun s => sub (split_point_of s) 0 < min_len) silences ->
  walk min_len max_len silences (acc, 0) = (acc, 0).
Proof.
  induction silences as [|s rest IH]; intros acc Hmm Hall; [reflexivity|].
  inversion Hall as [|? ? Hs Hrest]; subst. rewrite walk_cons.
  destruct (split_step_cases min_len max_len (acc, 0) s)
    as [(_ & Hcommit) | (-> & _)]; cbn [fst snd] in *.
  - exfalso. destruct Hcommit as [H | H].
    + exact (Qclt_not_le _ _ Hs H).
    + apply (Qclt_not_le _ _ Hs). eapply Qcle_trans; eauto.
  - apply IH; assumption.
Qed.

End PlannerExtras.

Section IdealPlannerExtras.
Import AudioSplitter Windows.

Local Existing Instance ideal.
Variables max_len total_duration : time.

Lemma tile_loop_positive fuel : forall acc cur ws,
  0 < max_len ->
  Forall (fun w => w_start w < w_end w) acc ->
  tile_loop fuel total_duration max_len acc cur = Some ws ->
  Forall (fun w => w_start w < w_end w) ws.
Proof.
  induction fuel as [|fuel IH]; intros acc cur ws Hmax Hacc;
    rewrite tile_loop_step; cmp_cases; try discriminate;
    try (intros [= <-]; exact Hacc).
  apply IH; [exact Hmax|]. apply Forall_app. split; [exact Hacc|].
  apply Forall_cons; [|apply Forall_nil].
  unfold w_start, w_end, py_min. cbn [fst snd].
  cmp_cases; [assumption | qc_lra].
Qed.

End IdealPlannerExtras.

Section PlannerExtraTheorems.
Import AudioSplitter Windows Cuts.

(** X3: whatever the rounding of the arithmetic, once a silence was
    detected and [min_len <= max_len], the value of [max_segment_length]
    has no effect on the plan: no window is ever cut for being longer than
    it. *)
Theorem max_length_is_ignored_with_silences :
  forall (A : arithmetic) fuel fuel' silences total_duration min_len max_len
         max_len',
    silences <> [] -> min_len <= max_len -> min_len <= max_len' ->
    calculate_split_points fuel silences total_duration min_len max_len
    = calculate_split_points fuel' silences total_duration min_len max_len'.
Proof.
  intros A fuel fuel' silences T min_len max_len max_len' Hne H1 H2.
  destruct silences as [|s rest]; [congruence|].
  cbn [calculate_split_points].
  rewrite !walk_no_override by assumption. reflexivity.
Qed.

Lemma max_length_is_ignored_with_silences_witness :
  calculate_split_points (A := binary64) 0 [silence (A := binary64) 40 42]
    (sec (A := binary64) 1000) (sec (A := binary64) 30)
    (sec (A := binary64) 120)
  = calculate_split_points (A := binary64) 0 [silence (A := binary64) 40 42]
      (sec (A := binary64) 1000) (sec (A := binary64) 30)
      (sec (A := binary64) 60).
Proof.
  apply max_length_is_ignored_with_silences;
    [discriminate | qc_dec | qc_dec].
Defined.

(** X4: whatever the rounding of the arithmetic, when silences were
    detected but the distance from 0 the code computes for every midpoint
    is less than [min_len] (with [min_len <= max_len] and
    [total_duration > 0]), the plan is the single window
    [[0, total_duration)], however long the recording is.  In binary64 the
    silences (10,12) and (20,21) leave 1000 s in one window for
    [min_len = 30]; the silence (27.2,32.8) does not: its midpoint is
    computed as 30.0 and the plan is [[0,30), [30,1000)]. *)
Theorem early_silences_give_one_window :
  (forall (A : arithmetic) fuel silences total_duration min_len max_len,
      silences <> [] -> min_len <= max_len -> 0 < total_duration ->
      Forall (fun s => sub (split_point_of s) 0 < min_len) silences ->
      calculate_split_points fuel silences total_duration min_len max_len
      = Some [(0, total_duration)]) /\
  (forall fuel,
      calculate_split_points (A := binary64) fuel
        [silence (A := binary64) 10 12; silence (A := binary64) 20 21]
        (sec (A := binary64) 1000) (sec (A := binary64) 30)
        (sec (A := binary64) 120)
      = Some [(0, sec (A := binary64) 1000)]) /\
  (forall fuel,
      calculate_split_points (A := binary64) fuel
        [silence (A := binary64) 27.2 32.8]
        (sec (A := binary64) 1000) (sec (A := binary64) 30)
        (sec (A := binary64) 120)
      = Some [(0, sec (A := binary64) 30);
              (sec (A := binary64) 30, sec (A := binary64) 1000)]).
Proof.
  split; [|split].
  - intros A fuel silences T min_len max_len Hne Hmm HT Hall.
    destruct silences as [|s rest]; [congruence|].
    cbn [calculate_split_points].
    rewrite (walk_stays min_len max_len (s :: rest) [] Hmm Hall).
    unfold add_final. apply ltb_lt in HT. rewrite HT. reflexivity.
  - intros fuel. apply plan_eqb_eq. vm_compute. reflexivity.
  - intros fuel. apply plan_eqb_eq. vm_compute. reflexivity.
Qed.

Lemma early_silences_give_one_window_witness :
  calculate_split_points (A := binary64) 0
    [silence (A := binary64) 10 12; silence (A := binary64) 20 21;
     silence (A := binary64) 27.2 32.7]
    (sec (A := binary64) 1000) (sec (A := binary64) 30)
    (sec (A := binary64) 120)
  = Some [(0, sec (A := binary64) 1000)].
Proof.
  apply (proj1 early_silences_give_one_window binary64).
  - discriminate.
  - qc_dec.
  - qc_dec.
  - apply Forall_cons; [qc_dec|].
    apply Forall_cons; [qc_dec|].
    apply Forall_cons; [qc_dec | apply Forall_nil].
Defined.

(** X5: whatever the rounding of the arithmetic, with detected silences
    the plan has at most one window per silence
    plus the remainder, and every window starts and ends at 0, at the end
    of the recording or at the midpoint of a detected silence. *)
Theorem windows_are_cut_at_silence_midpoints :
  forall (A : arithmetic) fuel silences total_duration min_len max_len ws,
    silences <> [] ->
    calculate_split_points fuel silences total_duration min_len max_len
    = Some ws ->
    (List.length ws <= S (List.length silences))%nat /\
    Forall (well_cut silences total_duration) ws.
Proof.
  intros A fuel silences T min_len max_len ws Hne Hws.
  destruct silences as [|s rest]; [congruence|].
  change (Some (add_final T (walk min_len max_len (s :: rest) ([], (0 : time))))
          = Some ws) in Hws.
  pose proof (walk_length min_len max_len (s :: rest) [] 0) as Hlen.
  destruct (walk_well_cut min_len max_len T (s :: rest) (s :: rest) [] 0
              (incl_refl _) (Forall_nil _) (or_introl eq_refl)) as (Hacc & Hc).
  remember (walk min_len max_len (s :: rest) ([], (0 : time))) as st eqn:Hst.
  clear Hst. destruct st as [acc c]. injection Hws as <-.
  cbn [fst snd] in *. unfold add_final. destruct (ltb c T).
  - split; [rewrite length_app; cbn [List.length] in *; lia|].
    apply Forall_app. split; [exact Hacc|].
    apply Forall_cons; [|apply Forall_nil].
    split; [exact Hc | left; reflexivity].
  - split; [cbn [List.length] in *; lia | exact Hacc].
Qed.

Lemma windows_are_cut_at_silence_midpoints_witness :
  exists ws,
    calculate_split_points (A := binary64) 0
      [silence (A := binary64) 40 42; silence (A := binary64) 100 101]
      (sec (A := binary64) 180) (sec (A := binary64) 30)
      (sec (A := binary64) 120) = Some ws /\
    (List.length ws <= 3)%nat /\
    Forall (well_cut (A := binary64)
              [silence (A := binary64) 40 42; silence (A := binary64) 100 101]
              (sec (A := binary64) 180)) ws.
Proof.
  eexists. split; [reflexivity|].
  apply (windows_are_cut_at_silence_midpoints binary64 0
           [silence (A := binary64) 40 42; silence (A := binary64) 100 101]
           (sec (A := binary64) 180) (sec (A := binary64) 30)
           (sec (A := binary64) 120));
    [discriminate | reflexivity].
Defined.

(** X6 (in arithmetic without rounding): with [0 < min_len <= max_len]
    every window of a returned plan has positive length, on both branches
    of the planner. *)
Theorem planned_windows_have_positive_length :
  forall fuel silences total_duration min_len max_len ws,
    0 < min_len -> min_len <= max_len ->
    calculate_split_points (A := ideal) fuel silences total_duration
      min_len max_len = Some ws ->
    Forall (fun w => w_start w < w_end w) ws.
Proof.
  intros fuel silences T min_len max_len ws Hmin Hmm Hws.
  destruct silences as [|s rest].
  - cbn [calculate_split_points] in Hws.
    eapply tile_loop_positive; [| |exact Hws]; [|constructor].
    eapply Qclt_le_trans; eauto.
  - change (Some (add_final T (walk (A := ideal) min_len max_len (s :: rest)
                                 ([], (0 : time))))
            = Some ws) in Hws.
    pose proof (walk_committed_long (A := ideal) min_len max_len (s :: rest)
                  [] 0 Hmm (Forall_nil _)) as Hlong.
    remember (walk (A := ideal) min_len max_len (s :: rest) ([], (0 : time)))
      as st eqn:Hst.
    clear Hst. destruct st as [acc c]. injection Hws as <-.
    cbn [fst] in Hlong.
    assert (Hacc : Forall (fun w => w_start w < w_end w) acc).
    { eapply Forall_impl; [|exact Hlong]. intros w Hw.
      unfold w_length in Hw. qc_lra. }
    unfold add_final. destruct (ltb c T) eqn:Hlt; [|exact Hacc].
    apply Forall_app. split; [exact Hacc|].
    apply Forall_cons; [|apply Forall_nil]. apply ltb_lt. exact Hlt.
Qed.

Lemma planned_windows_have_positive_length_witness :
  exists ws,
    calculate_split_points (A := ideal) 0
      [silence (A := ideal) 40 42; silence (A := ideal) 100 101]
      (sec (A := ideal) 180) (sec (A := ideal) 30) (sec (A := ideal) 120)
      = Some ws /\
    Forall (fun w => w_start w < w_end w) ws.
Proof.
  eexists. split; [reflexivity|].
  apply (planned_windows_have_positive_length 0
           [silence (A := ideal) 40 42; silence (A := ideal) 100 101]
           (sec (A := ideal) 180) (sec (A := ideal) 30)
           (sec (A := ideal) 120));
    [qc_dec | qc_dec | reflexivity].
Defined.

End PlannerExtraTheorems.

(** ** More on extraction and numbering *)

Section NamingInjective.
Import Extractor Decode.
Local Open Scope string_scope.

Lemma uint_of_zeros k s :
  NilEmpty.uint_of_string (zeros k ++ s)
  = option_map (Nat.iter k Decimal.D0) (NilEmpty.uint_of_string s).
Proof.
  induction k as [|k IH]; cbn [zeros String.append Nat.iter].
  - destruct (NilEmpty.uint_of_string s); reflexivity.
  - cbn [NilEmpty.uint_of_string]. rewrite IH.
    destruct (NilEmpty.uint_of_string s); reflexivity.
Qed.

Lemma of_uint_zeros k d :
  Nat.of_uint (Nat.iter k Decimal.D0 d) = Nat.of_uint d.
Proof.
  induction k as [|k IH]; cbn [Nat.iter]; [reflexivity|].
  rewrite <- IH. reflexivity.
Qed.

(** The index can be read back from the padded digits. *)
Lemma format_03d_decode n : index_of_digits (format_03d n) = Some n.
Proof.
  unfold index_of_digits, format_03d, decimal.
  rewrite uint_of_zeros, NilEmpty.usu. cbn [option_map].
  rewrite of_uint_zeros, DecimalNat.Unsigned.of_to. reflexivity.
Qed.

Lemma append_length s1 s2 :
  String.length (s1 ++ s2) = (String.length s1 + String.length s2)%nat.
Proof. induction s1 as [|c s1 IH]; cbn; [reflexivity | rewrite IH; reflexivity]. Qed.

Lemma append_cancel_r t : forall s1 s2, s1 ++ t = s2 ++ t -> s1 = s2.
Proof.
  induction s1 as [|c s1 IH]; intros [|c' s2] H; cbn in H.
  - reflexivity.
  - exfalso. apply (f_equal String.length) in H. cbn in H.
    rewrite append_length in H. lia.
  - exfalso. apply (f_equal String.length) in H. cbn in H.
    rewrite append_length in H. lia.
  - injection H as -> H. f_equal. apply IH; exact H.
Qed.

Lemma segment_filename_inj a b :
  segment_filename a = segment_filename b -> a = b.
Proof.
  unfold segment_filename. intros H. cbn [String.append] in H.
  injection H as H. apply append_cancel_r in H.
  apply (f_equal index_of_digits) in H. rewrite !format_03d_decode in H.
  congruence.
Qed.

End NamingInjective.

Section OrderFacts.
Import AudioSplitter Extractor Windows Decode.

Local Existing Instance ideal.

Lemma chain_sorted ws : forall a b,
  chain a ws b ->
  StronglySorted (fun w1 w2 => w_end w1 <= w_start w2) ws /\
  Forall (fun w => a <= w_start w /\ w_start w <= w_end w /\ w_end w <= b) ws.
Proof.
  induction ws as [|w ws IH]; intros a b Hc.
  - split; constructor.
  - pose proof Hc as Hc0. destruct Hc as (Hs & Hle & Hc).
    destruct (IH _ _ Hc) as (Hsorted & Hbounds). split.
    + constructor; [exact Hsorted|].
      eapply Forall_impl; [|exact Hbounds]. intros w' (H & _). exact H.
    + apply Forall_forall. intros w' Hin.
      apply (chain_bounds a (w :: ws) b w' Hc0 Hin).
Qed.

Lemma kept_windows_cons w ws o log :
  kept_windows (w :: ws) (o :: log)
  = (if is_kept o then [w] else []) ++ kept_windows ws log.
Proof. unfold kept_windows. cbn. destruct (is_kept o); reflexivity. Qed.

Lemma kept_windows_in ws : forall log w,
  In w (kept_windows ws log) -> In w ws.
Proof.
  induction ws as [|w0 ws IH]; intros [|o log] w H; try contradiction.
  rewrite kept_windows_cons in H. apply in_app_or in H.
  destruct H as [H | H].
  - destruct (is_kept o); [|contradiction].
    destruct H as [-> | []]. left. reflexivity.
  - right. eapply IH; eauto.
Qed.

Lemma kept_windows_sorted (R : window -> window -> Prop) ws : forall log,
  StronglySorted R ws -> StronglySorted R (kept_windows ws log).
Proof.
  induction ws as [|w ws IH]; intros [|o log] Hs;
    [apply SSorted_nil | apply SSorted_nil | apply SSorted_nil |].
  rewrite kept_windows_cons. inversion Hs as [|? ? Hs' Hall]; subst.
  destruct (is_kept o); cbn [app]; [|apply IH; exact Hs'].
  constructor; [apply IH; exact Hs'|].
  apply Forall_forall. intros w' Hin. apply kept_windows_in in Hin.
  rewrite Forall_forall in Hall. apply Hall; exact Hin.
Qed.

Lemma kept_windows_length ws : forall log,
  (List.length (kept_windows ws log) <= List.length ws)%nat.
Proof.
  induction ws as [|w ws IH]; intros [|o log].
  - cbn. lia.
  - cbn. lia.
  - cbn. lia.
  - rewrite kept_windows_cons, length_app. specialize (IH log).
    destruct (is_kept o); cbn [List.length]; lia.
Qed.

Lemma sorted_map_inv {A B} (f : A -> B) (R : B -> B -> Prop) l :
  StronglySorted R (map f l) -> StronglySorted (fun x y => R (f x) (f y)) l.
Proof.
  induction l as [|x l IH]; cbn [map]; intros H; [constructor|].
  inversion H as [|? ? Hs Hall]; subst. constructor; [apply IH; exact Hs|].
  rewrite Forall_map in Hall. exact Hall.
Qed.

Lemma planner_chain fuel silences T min_len max_len ws :
  0 < T -> 0 <= max_len ->
  Forall (within T) silences -> chronological silences ->
  calculate_split_points fuel silences T min_len max_len = Some ws ->
  chain 0 ws T.
Proof.
  intros HT Hmax Hin Hch Hws. destruct silences as [|s rest].
  - cbn [calculate_split_points] in Hws.
    eapply tile_loop_chain; [exact Hmax | | |exact Hws].
    + reflexivity.
    + apply Qclt_le_weak; exact HT.
  - change (Some (add_final T (walk min_len max_len (s :: rest)
                                ([], (0 : time)))) = Some ws) in Hws.
    assert (H : let st := walk min_len max_len (s :: rest) ([], (0 : time)) in
                chain 0 (fst st) (snd st) /\ snd st <= T).
    { apply walk_chain.
      - reflexivity.
      - apply chronological_ascending; [exact Hch|].
        intros s0 [= <-]. inversion Hin; subst.
        apply (split_point_within T); assumption.
      - eapply Forall_impl; [|exact Hin]. intros s0 Hs0.
        apply (split_point_within T); assumption.
      - apply Qclt_le_weak; assumption. }
    cbv zeta in H.
    remember (walk min_len max_len (s :: rest) ([], (0 : time))) as st eqn:Hst.
    clear Hst. destruct st as [acc c]. injection Hws as <-.
    destruct H as (Hc & Hle). apply add_final_chain; assumption.
Qed.

End OrderFacts.

Section ExtractorExtraTheorems.
Import AudioSplitter Extractor Windows Decode.

(** X7: whatever the rounding of the arithmetic, in one run no two
    records share an output file name, there is at most one record per
    planned window, and each record's duration is what its end time minus
    its start time computes. *)
Theorem records_have_distinct_files :
  forall (A : arithmetic) t threshold split_points,
    let recs := records_of (process_windows t threshold split_points) in
    NoDup (map AudioSegment.filename recs) /\
    (List.length recs <= List.length split_points)%nat /\
    Forall (fun r => AudioSegment.duration r
                     = sub (AudioSegment.end_time r)
                         (AudioSegment.start_time r))
           recs.
Proof.
  intros A t threshold split_points recs.
  destruct (process_windows_well_numbered t threshold split_points)
    as (Hk & _ & _ & Hnames & Hwin & Hlen & _).
  fold recs in Hk, Hnames, Hwin. split; [|split].
  - rewrite Hnames. apply Finite.Injective_map_NoDup.
    + intros a b. apply segment_filename_inj.
    + apply seq_NoDup.
  - rewrite <- (length_map window_of), Hwin. apply kept_windows_length.
  - unfold recs, process_windows.
    assert (H : forall ws st,
               Forall (fun r => AudioSegment.duration r
                                = sub (AudioSegment.end_time r)
                                    (AudioSegment.start_time r))
                      (records_of st) ->
               Forall (fun r => AudioSegment.duration r
                                = sub (AudioSegment.end_time r)
                                    (AudioSegment.start_time r))
                      (records_of (fold_left (process_window t threshold) ws st))).
    { induction ws as [|w ws IH]; intros st Hst; [exact Hst|].
      cbn [fold_left]. apply IH. rewrite process_window_outcome.
      destruct (outcome_of t threshold (next_index_of st) w);
        unfold records_of in *; cbn [fst snd]; try exact Hst.
      apply Forall_app. split; [exact Hst|].
      apply Forall_cons; [reflexivity | apply Forall_nil]. }
    apply H. constructor.
Qed.

(** X8 (in arithmetic without rounding): when the silences lie within the
    recording in chronological order, the records [process_audio_file]
    returns are in time order and do not overlap: each lies within
    [[0, total_duration]] and ends no later than every later record
    starts. *)
Theorem records_are_in_time_order :
  forall fuel t min_len max_len threshold recs,
    0 < probed_duration t -> 0 <= max_len ->
    Forall (within (probed_duration t)) (detected_silences t) ->
    chronological (detected_silences t) ->
    process_audio_file (A := ideal) fuel t min_len max_len threshold
      = Some recs ->
    StronglySorted before recs /\
    Forall (fun r => 0 <= AudioSegment.start_time r /\
                     AudioSegment.start_time r <= AudioSegment.end_time r /\
                     AudioSegment.end_time r <= probed_duration t) recs.
Proof.
  intros fuel t min_len max_len threshold recs HT Hmax Hin Hch.
  unfold process_audio_file.
  destruct (calculate_split_points (A := ideal) fuel (detected_silences t)
              (probed_duration t) min_len max_len) as [ws|] eqn:Hws;
    [|discriminate].
  intros [= <-].
  pose proof (planner_chain _ _ _ _ _ _ HT Hmax Hin Hch Hws) as Hchain.
  destruct (chain_sorted ws _ _ Hchain) as (Hsorted & Hbounds).
  destruct (process_windows_well_numbered (A := ideal) t threshold ws)
    as (_ & _ & _ & _ & Hwin & _).
  unfold records_of in Hwin. split.
  - apply (sorted_map_inv window_of (fun w1 w2 => w_end w1 <= w_start w2)).
    rewrite Hwin. apply kept_windows_sorted. exact Hsorted.
  - assert (H : Forall (fun w => 0 <= w_start w /\ w_start w <= w_end w /\
                                 w_end w <= probed_duration t)
                       (map window_of
                          (fst (fst (process_windows (A := ideal) t threshold
                                       ws))))).
    { rewrite Hwin. apply Forall_forall. intros w Hw.
      apply kept_windows_in in Hw. rewrite Forall_forall in Hbounds.
      apply Hbounds; exact Hw. }
    rewrite Forall_map in H. exact H.
Qed.

(** For [meeting_tools], with three silences and four planned windows,
    the two records are those of [[0,41)] and [[141,180)], in that
    order. *)
Lemma records_are_in_time_order_witness :
  exists recs,
    process_audio_file (A := ideal) 0 (meeting_tools (A := ideal))
      (sec (A := ideal) 30) (sec (A := ideal) 120) (sec (A := ideal) 0.9)
    = Some recs /\
    map window_of recs
    = [(sec (A := ideal) 0, sec (A := ideal) 41);
       (sec (A := ideal) 141, sec (A := ideal) 180)] /\
    StronglySorted before recs /\
    Forall (fun r => 0 <= AudioSegment.start_time r /\
                     AudioSegment.start_time r <= AudioSegment.end_time r /\
                     AudioSegment.end_time r
                     <= probed_duration (meeting_tools (A := ideal))) recs.
Proof.
  destruct (process_audio_file (A := ideal) 0 (meeting_tools (A := ideal))
              (sec (A := ideal) 30) (sec (A := ideal) 120)
              (sec (A := ideal) 0.9)) as [recs|] eqn:E;
    [|vm_compute in E; discriminate].
  exists recs. split; [reflexivity|]. split.
  - apply windows_eqb_eq.
    assert (H : match process_audio_file (A := ideal) 0
                        (meeting_tools (A := ideal))
                        (sec (A := ideal) 30) (sec (A := ideal) 120)
                        (sec (A := ideal) 0.9) with
                | Some l => windows_eqb (map window_of l)
                              [(sec (A := ideal) 0, sec (A := ideal) 41);
                               (sec (A := ideal) 141, sec (A := ideal) 180)]
                | None => false
                end = true) by (vm_compute; reflexivity).
    rewrite E in H. exact H.
  - apply (records_are_in_time_order 0 (meeting_tools (A := ideal))
             (sec (A := ideal) 30) (sec (A := ideal) 120)
             (sec (A := ideal) 0.9) recs).
    + qc_dec.
    + qc_dec.
    + apply Forall_cons; [repeat split; qc_dec|].
      apply Forall_cons; [repeat split; qc_dec|].
      apply Forall_cons; [repeat split; qc_dec | apply Forall_nil].
    + cbn. repeat split; qc_dec.
    + exact E.
Defined.

End ExtractorExtraTheorems.

(** ** More on reassembly *)

Section NameOrderFacts.
Import PyStr Reassembler NameOrder.

Lemma name_ltb_asym a b : name_ltb a b = true -> name_ltb b a = false.
Proof.
  intros H. destruct (name_ltb b a) eqn:E; [|reflexivity]. exfalso.
  apply name_ltb_lt in H, E. apply (name_lt_irrefl a).
  eapply name_lt_trans; eauto.
Qed.

Lemma name_ltb_trichotomy a b :
  name_ltb a b = false -> name_ltb b a = false -> a = b.
Proof.
  unfold name_ltb. intros H1 H2.
  destruct (OrdersEx.String_as_OT.compare_spec a b) as [E | E | E].
  - exact E.
  - discriminate.
  - unfold OrdersEx.String_as_OT.lt in E. rewrite E in H2. discriminate.
Qed.

Lemma name_le_trans a b c : name_le a b -> name_le b c -> name_le a c.
Proof.
  unfold name_le. intros Hab Hbc.
  destruct (name_ltb c a) eqn:Hca; [|reflexivity]. exfalso.
  destruct (name_ltb a b) eqn:Hlt.
  - apply name_ltb_lt in Hca, Hlt.
    assert (H : name_ltb c b = true)
      by (apply name_ltb_lt; eapply name_lt_trans; eauto).
    congruence.
  - assert (a = b) as -> by (apply name_ltb_trichotomy; assumption).
    congruence.
Qed.

Lemma insert_perm x l : Permutation (insert x l) (x :: l).
Proof.
  induction l as [|y l IH]; cbn [insert]; [reflexivity|].
  destruct (name_ltb y x); [|reflexivity].
  rewrite IH. apply perm_swap.
Qed.

Lemma sorted_perm l : Permutation (sorted l) l.
Proof.
  induction l as [|x l IH]; cbn [sorted]; [reflexivity|].
  rewrite insert_perm. apply perm_skip. exact IH.
Qed.

Lemma insert_sorted x l :
  StronglySorted name_le l -> StronglySorted name_le (insert x l).
Proof.
  induction l as [|y l IH]; intros Hs; cbn [insert].
  - constructor; constructor.
  - inversion Hs as [|? ? Hs' Hall]; subst.
    destruct (name_ltb y x) eqn:Hyx.
    + constructor; [apply IH; exact Hs'|].
      eapply Permutation_Forall; [symmetry; apply insert_perm|].
      constructor; [|exact Hall]. unfold name_le.
      apply name_ltb_asym. exact Hyx.
    + constructor; [exact Hs|]. constructor; [exact Hyx|].
      eapply Forall_impl; [|exact Hall]. intros z Hz.
      eapply name_le_trans; [exact Hyx | exact Hz].
Qed.

Lemma sorted_sorted l : StronglySorted name_le (sorted l).
Proof.
  induction l as [|x l IH]; cbn [sorted]; [constructor|].
  apply insert_sorted; exact IH.
Qed.

(** A list has one sorted arrangement only. *)
Lemma sorted_unique l1 : forall l2,
  StronglySorted name_le l1 -> StronglySorted name_le l2 ->
  Permutation l1 l2 -> l1 = l2.
Proof.
  induction l1 as [|a l1 IH]; intros l2 H1 H2 Hp.
  - apply Permutation_nil in Hp. symmetry; exact Hp.
  - destruct l2 as [|b l2];
      [apply Permutation_sym, Permutation_nil in Hp; discriminate|].
    inversion H1 as [|? ? H1' Ha]; subst.
    inversion H2 as [|? ? H2' Hb]; subst.
    assert (Hab : a = b).
    { assert (Hina : In a (b :: l2))
        by (eapply Permutation_in; [exact Hp | left; reflexivity]).
      assert (Hinb : In b (a :: l1))
        by (eapply Permutation_in; [symmetry; exact Hp | left; reflexivity]).
      destruct Hina as [-> | Hina]; [reflexivity|].
      destruct Hinb as [-> | Hinb]; [reflexivity|].
      rewrite Forall_forall in Ha, Hb.
      apply name_ltb_trichotomy; [apply Hb | apply Ha]; assumption. }
    subst b. f_equal. apply IH; try assumption.
    eapply Permutation_cons_inv; exact Hp.
Qed.

Lemma sorted_permutation l l' : Permutation l l' -> sorted l = sorted l'.
Proof.
  intros Hp. apply sorted_unique; try apply sorted_sorted.
  rewrite !sorted_perm. exact Hp.
Qed.

Lemma filter_permutation {A} (f : A -> bool) l l' :
  Permutation l l' -> Permutation (filter f l) (filter f l').
Proof.
  induction 1 as [| x l l' _ IH | x y l | l1 l2 l3 _ IH12 _ IH23];
    cbn [filter].
  - reflexivity.
  - destruct (f x); [apply perm_skip|]; exact IH.
  - destruct (f x), (f y); try reflexivity. apply perm_swap.
  - etransitivity; eauto.
Qed.

End NameOrderFacts.

Section ReassemblerExtraTheorems.
Import PyStr Reassembler NameOrder Blocks.

(** X9: on either path, what [merge_transcripts] returns (status, blocks,
    written document and messages) does not depend on the order in which
    the transcripts directory lists its files. *)
Theorem merge_ignores_directory_order :
  forall loaded dir dir' write_ok,
    NoDup (map fst dir) -> Permutation dir dir' ->
    merge_transcripts loaded dir write_ok
    = merge_transcripts loaded dir' write_ok.
Proof.
  intros loaded dir dir' write_ok Hnd Hperm.
  assert (Hlook : forall name, lookup name dir' = lookup name dir)
    by (intros name; symmetry; apply lookup_permutation; assumption).
  destruct (ledger_segments loaded) as [segs|] eqn:Hl.
  - destruct loaded as [m|]; [|discriminate].
    assert (Hs : segments m = Some segs).
    { unfold ledger_segments in Hl.
      destruct (truthy m && is_some (segments m)); [exact Hl | discriminate]. }
    rewrite !(merge_transcripts_ledger m segs) by exact Hs. cbv zeta.
    assert (Hb : flat_map (block_of dir') segs = flat_map (block_of dir) segs).
    { apply flat_map_ext. intros seg. unfold block_of, text_of.
      rewrite Hlook. reflexivity. }
    assert (Hw : flat_map (warning_of dir') segs
                 = flat_map (warning_of dir) segs).
    { apply flat_map_ext. intros seg. unfold warning_of.
      rewrite Hlook. reflexivity. }
    rewrite Hb, Hw. reflexivity.
  - rewrite !merge_transcripts_fallback by exact Hl. cbv zeta.
    assert (Hg : sorted (glob dir') = sorted (glob dir)).
    { apply sorted_permutation. unfold glob. apply filter_permutation.
      apply Permutation_map. symmetry. exact Hperm. }
    rewrite Hg.
    assert (Hb : forall names,
               flat_map (file_block dir') names = flat_map (file_block dir) names).
    { intros names. apply flat_map_ext. intros n. unfold file_block, text_of.
      rewrite Hlook. reflexivity. }
    assert (Hw : forall names,
               flat_map (file_warning dir') names
               = flat_map (file_warning dir) names).
    { intros names. apply flat_map_ext. intros n. unfold file_warning.
      rewrite Hlook. reflexivity. }
    rewrite Hb, Hw. reflexivity.
Qed.

Lemma merge_ignores_directory_order_witness :
  merge_transcripts None
    [("segment_002.txt", Readable "b"); ("segment_001.txt", Readable "a")]%string
    true
  = merge_transcripts None
      [("segment_001.txt", Readable "a"); ("segment_002.txt", Readable "b")]%string
      true.
Proof.
  apply merge_ignores_directory_order.
  - repeat constructor; cbn; intuition discriminate.
  - apply perm_swap.
Defined.

(** X10: on the fallback path the blocks are those of the files whose name
    matches [segment_*.txt], taken in ascending order of name; no other
    file of the directory is read. *)
Theorem fallback_merges_matching_files_in_name_order :
  forall loaded dir write_ok,
    ledger_segments loaded = None ->
    exists names,
      StronglySorted name_le names /\
      Permutation names (filter glob_match (map fst dir)) /\
      merged_parts (merge_transcripts loaded dir write_ok)
      = flat_map (file_block dir) names.
Proof.
  intros loaded dir write_ok Hl. exists (sorted (glob dir)).
  split; [apply sorted_sorted|]. split; [apply sorted_perm|].
  apply merged_parts_fallback. exact Hl.
Qed.

(** In [mixed_directory] four names match; they are merged in the order
    001, 002, 003, 010, of which 001 cannot be read and 003 holds white
    space only. *)
Lemma fallback_merges_matching_files_in_name_order_witness :
  (exists names,
      StronglySorted name_le names /\
      Permutation names (filter glob_match (map fst mixed_directory)) /\
      merged_parts (merge_transcripts None mixed_directory true)
      = flat_map (file_block mixed_directory) names) /\
  filter glob_match (map fst mixed_directory)
  = ["segment_010.txt"; "segment_002.txt"; "segment_003.txt";
     "segment_001.txt"]%string /\
  merged_parts (merge_transcripts None mixed_directory true)
  = [HeaderPlain "segment_002.txt"; Text "two"; Blank;
     HeaderPlain "segment_010.txt"; Text "ten"; Blank].
Proof.
  split; [|split].
  - apply fallback_merges_matching_files_in_name_order. reflexivity.
  - vm_compute. reflexivity.
  - vm_compute. reflexivity.
Defined.

Lemma text_of_nonempty dir name c :
  text_of dir name = Some c -> is_empty c = false.
Proof.
  unfold text_of. destruct (lookup name dir) as [[text|]|]; try discriminate.
  destruct (is_empty (strip text)) eqn:E; cbn [negb]; [discriminate|].
  intros [= <-]. exact E.
Qed.

Lemma shaped_flat_map {A} (f : A -> list part) l :
  (forall x, shaped (f x)) ->
  (forall c, In (Text c) (flat_map f l) -> is_empty c = false) /\
  List.length (flat_map f l)
  = (3 * List.length (texts (flat_map f l)))%nat.
Proof.
  intros Hf. induction l as [|x l (IH1 & IH2)];
    [split; [intros c []|reflexivity]|].
  cbn [flat_map]. unfold texts in *.
  rewrite flat_map_app, !length_app, IH2.
  destruct (Hf x) as [-> | (h & c0 & -> & Hc0 & Hh)].
  - split; [exact IH1 | cbn; lia].
  - split.
    + intros c Hin. apply in_app_or in Hin.
      destruct Hin as [[H | [H | [H | []]]] | H]; try discriminate.
      * exfalso. exact (Hh c H).
      * injection H as <-. exact Hc0.
      * apply IH1; exact H.
    + assert (Hh' : match h with Text c => [c] | _ => [] end = [])
        by (destruct h; try reflexivity; exfalso; eapply Hh; reflexivity).
      cbn [flat_map app List.length]. rewrite Hh'. cbn [app List.length]. lia.
Qed.

Lemma block_of_shaped dir seg : shaped (block_of dir seg).
Proof.
  unfold block_of. destruct (text_of dir _) as [c|] eqn:E; [|left; reflexivity].
  right. eexists _, c. split; [reflexivity|].
  split; [eapply text_of_nonempty; eauto | discriminate].
Qed.

Lemma file_block_shaped dir name : shaped (file_block dir name).
Proof.
  unfold file_block. destruct (text_of dir _) as [c|] eqn:E; [|left; reflexivity].
  right. eexists _, c. split; [reflexivity|].
  split; [eapply text_of_nonempty; eauto | discriminate].
Qed.

Lemma merged_shape loaded dir write_ok :
  exists parts,
    ((forall c, In (Text c) parts -> is_empty c = false) /\
     List.length parts = (3 * List.length (texts parts))%nat) /\
    merge_transcripts loaded dir write_ok
    = match parts with
      | [] => {| ok := false; merged_parts := parts; written := None;
                 log := log (merge_transcripts loaded dir write_ok) |}
      | _ :: _ =>
          if write_ok
          then {| ok := true; merged_parts := parts; written := Some parts;
                  log := log (merge_transcripts loaded dir write_ok) |}
          else {| ok := false; merged_parts := parts; written := None;
                  log := log (merge_transcripts loaded dir write_ok) |}
      end.
Proof.
  destruct (ledger_segments loaded) as [segs|] eqn:Hl.
  - destruct loaded as [m|]; [|discriminate].
    assert (Hs : segments m = Some segs).
    { unfold ledger_segments in Hl.
      destruct (truthy m && is_some (segments m)); [exact Hl | discriminate]. }
    exists (flat_map (block_of dir) segs).
    split; [apply shaped_flat_map; intros x; apply block_of_shaped|].
    rewrite !(merge_transcripts_ledger m segs) by exact Hs. cbv zeta.
    destruct (flat_map (block_of dir) segs); [|destruct write_ok]; reflexivity.
  - exists (flat_map (file_block dir) (sorted (glob dir))).
    split; [apply shaped_flat_map; intros x; apply file_block_shaped|].
    rewrite !merge_transcripts_fallback by exact Hl. cbv zeta.
    destruct (flat_map (file_block dir) (sorted (glob dir)));
      [|destruct write_ok]; reflexivity.
Qed.

(** X11: [merge_transcripts] never writes an empty document: it succeeds
    exactly when it wrote the collected blocks, what it writes is never
    empty, every merged text is non-empty after trimming, and the blocks
    are triples of header, text and blank line. *)
Theorem merge_never_writes_an_empty_document :
  forall loaded dir write_ok,
    let r := merge_transcripts loaded dir write_ok in
    (ok r = true <-> written r = Some (merged_parts r)) /\
    (forall p, written r = Some p -> p <> [] /\ write_ok = true) /\
    (forall c, In (Text c) (merged_parts r) -> is_empty c = false) /\
    List.length (merged_parts r)
    = (3 * List.length (texts (merged_parts r)))%nat.
Proof.
  intros loaded dir write_ok r.
  destruct (merged_shape loaded dir write_ok) as (parts & (Ht & Hlen) & Hr).
  fold r in Hr. rewrite Hr.
  destruct parts as [|p parts]; [|destruct write_ok];
    cbn [ok written merged_parts].
  - split; [split; intros H; discriminate|].
    split; [intros q Hq; discriminate|]. split; [exact Ht | exact Hlen].
  - split; [split; intros H; reflexivity|].
    split; [|split; [exact Ht | exact Hlen]].
    intros q Hq. injection Hq as <-. split; [discriminate | reflexivity].
  - split; [split; intros H; discriminate|].
    split; [intros q Hq; discriminate|]. split; [exact Ht | exact Hlen].
Qed.

(** X12: a ledger written by [save_metadata] always leads
    [merge_transcripts] down the ledger path, and the blocks are those of
    the extracted segments that have a text, in the order of the records,
    each headed by the record's file name, start time and end time. *)
Theorem saved_ledger_round_trip :
  forall recs source dir write_ok,
    let m := save_metadata recs source in
    let r := merge_transcripts (Some m) dir write_ok in
    total_segments m = Some (List.length recs) /\
    used_ledger r /\ ~ used_fallback r /\
    merged_parts r = flat_map (record_block dir) recs.
Proof.
  intros recs source dir write_ok m r.
  assert (Hs : segments m = Some (map asdict recs)) by reflexivity.
  split; [reflexivity|]. split; [|split].
  - unfold r. rewrite (merge_transcripts_ledger m _ dir write_ok Hs).
    cbv zeta. exists (List.length (map asdict recs)).
    destruct (flat_map (block_of dir) (map asdict recs));
      [|destruct write_ok]; cbn [log]; left; reflexivity.
  - apply (ledger_run_not_fallback m _ dir write_ok Hs).
  - unfold r. rewrite (merged_parts_ledger m _ dir write_ok Hs).
    rewrite flat_map_concat_map, map_map, <- flat_map_concat_map.
    reflexivity.
Qed.

End ReassemblerExtraTheorems.

(** ** The batch: finding inputs, cleaning up, the master document *)

Section BatchFacts.
Import PyStr Reassembler NameOrder Batch.
Local Open Scope string_scope.

Lemma flat_map_pointwise_perm {A B} (f g : A -> list B) l :
  (forall x, Permutation (f x) (g x)) ->
  Permutation (flat_map f l) (flat_map g l).
Proof.
  intros H. induction l as [|x l IH]; cbn [flat_map]; [reflexivity|].
  apply Permutation_app; [apply H | exact IH].
Qed.

Lemma list_sum_cons x l : list_sum (x :: l) = (x + list_sum l)%nat.
Proof. reflexivity. Qed.

Lemma cleanup_fold dir : forall left_over removed_count removed_size,
  fold_left cleanup_step dir (left_over, removed_count, removed_size)
  = ((left_over ++ filter (fun f => negb (removed f)) dir)%list,
     (removed_count + List.length (filter removed dir))%nat,
     (removed_size
      + list_sum (map (fun f => size (snd f)) (filter removed dir)))%nat).
Proof.
  induction dir as [|f dir IH]; intros left_over removed_count removed_size.
  - cbn. rewrite app_nil_r, !Nat.add_0_r. reflexivity.
  - cbn [fold_left filter].
    assert (Hstep : cleanup_step (left_over, removed_count, removed_size) f
                    = if removed f
                      then (left_over, S removed_count,
                            (removed_size + size (snd f))%nat)
                      else ((left_over ++ [f])%list, removed_count,
                            removed_size)).
    { unfold cleanup_step, removed.
      destruct (glob_wav (fst f)); [destruct (removable (snd f))|];
        reflexivity. }
    rewrite Hstep. destruct (removed f); cbn [negb]; rewrite IH.
    + cbn [map List.length]. rewrite list_sum_cons.
      f_equal; [f_equal|]; lia.
    + rewrite <- app_assoc. reflexivity.
Qed.

Lemma filter_idem {A} (p : A -> bool) l : filter p (filter p l) = filter p l.
Proof.
  induction l as [|x l IH]; [reflexivity|]. cbn [filter].
  destruct (p x) eqn:E; [|exact IH]. cbn [filter]. rewrite E, IH. reflexivity.
Qed.

Lemma filter_neg_none {A} (p : A -> bool) l :
  filter p (filter (fun x => negb (p x)) l) = [].
Proof.
  induction l as [|x l IH]; [reflexivity|]. cbn [filter].
  destruct (p x) eqn:E; cbn [negb]; [exact IH|]. cbn [filter].
  rewrite E. exact IH.
Qed.

Lemma prefix_append a b : String.prefix a (a ++ b) = true.
Proof.
  induction a as [|c a IH]; cbn [String.append String.prefix].
  - destruct b; reflexivity.
  - destruct (ascii_dec c c) as [_ | Hne]; [exact IH | congruence].
Qed.

Lemma endswith_append suffix s : endswith suffix (s ++ suffix) = true.
Proof.
  induction s as [|c s IH]; cbn [String.append].
  - destruct suffix; cbn [endswith]; rewrite String.eqb_refl; reflexivity.
  - cbn [endswith]. rewrite IH. apply orb_true_r.
Qed.

Lemma string_append_assoc a b c : (a ++ b) ++ c = a ++ (b ++ c).
Proof. induction a as [|x a IH]; cbn; [reflexivity | rewrite IH; reflexivity]. Qed.

Lemma glob_wav_segment_filename n :
  glob_wav (Extractor.segment_filename n) = true.
Proof.
  unfold glob_wav, Extractor.segment_filename.
  rewrite prefix_append, <- string_append_assoc, endswith_append.
  rewrite !append_length. cbn [andb]. apply Nat.leb_le. cbn. lia.
Qed.

(** *** Splitting at one character *)

Lemma append_nil_r s : s ++ "" = s.
Proof. induction s as [|c s IH]; cbn; [reflexivity | rewrite IH; reflexivity]. Qed.


Lemma prefix_one c x r :
  String.prefix (String c "") (String x r) = Ascii.eqb c x.
Proof.
  cbn [String.prefix]. destruct (ascii_dec c x) as [-> | Hne].
  - rewrite Ascii.eqb_refl. destruct r; reflexivity.
  - symmetry. apply Ascii.eqb_neq. exact Hne.
Qed.


Lemma split_char_none c s : forall cur,
  contains (String c "") s = false ->
  split_from (String c "") 0 cur s = [cur ++ s].
Proof.
  induction s as [|x s IH]; intros cur H.
  - cbn. rewrite append_nil_r. reflexivity.
  - cbn [contains] in H. apply orb_false_iff in H. destruct H as (Hp & Hc).
    cbn [split_from]. rewrite Hp, IH by exact Hc.
    rewrite string_append_assoc. reflexivity.
Qed.

Lemma substring_length_le n : forall s,
  (String.length (String.substring 0 n s) <= n)%nat.
Proof.
  induction n as [|n IH]; intros [|c s]; cbn; try lia.
  specialize (IH s). lia.
Qed.

Lemma dashed_is_not_unknown year rest :
  (String.length year <= 4)%nat ->
  year ++ String "-" rest <> "Unknown date".
Proof.
  intros Hlen H.
  destruct year as [|c0 [|c1 [|c2 [|c3 [|c4 year]]]]]; cbn in H, Hlen;
    try discriminate; lia.
Qed.

(** *** The meetings of the master document *)

Lemma collect_contribution data r : collect data r = (data ++ contribution r)%list.
Proof.
  unfold contribution, collect. destruct (negb (success r));
    [rewrite app_nil_r; reflexivity|].
  destruct (merged_file r) as [[[text|]|]|]; rewrite ?app_nil_r; try reflexivity.
  destruct (negb (is_empty (strip text))); rewrite ?app_nil_r; reflexivity.
Qed.

Lemma fold_collect results : forall data,
  fold_left collect results data
  = (data ++ flat_map contribution results)%list.
Proof.
  induction results as [|r results IH]; intros data; cbn [fold_left flat_map].
  - rewrite app_nil_r. reflexivity.
  - rewrite IH, collect_contribution, app_assoc. reflexivity.
Qed.

Lemma transcript_data_flat_map results :
  transcript_data results = flat_map contribution results.
Proof. unfold transcript_data. rewrite fold_collect. reflexivity. Qed.

Lemma contribution_spec r m :
  In m (contribution r) ->
  success r = true /\ filename m = file r /\ is_empty (content m) = false /\
  meeting_name m = stem (file r) /\ date_str m = date_of (stem (file r)).
Proof.
  unfold contribution, collect. destruct (success r); cbn [negb]; [|intros []].
  destruct (merged_file r) as [[[text|]|]|]; try (intros []).
  destruct (is_empty (strip text)) eqn:E; cbn [negb]; [intros []|].
  cbn [app]. intros [<- | []]. cbn. auto.
Qed.

Lemma data_files results x :
  In x (map filename (flat_map contribution results)) -> In x (map file results).
Proof.
  intros H. apply in_map_iff in H. destruct H as (m & <- & Hm).
  apply in_flat_map in Hm. destruct Hm as (r & Hr & Hm).
  apply contribution_spec in Hm. destruct Hm as (_ & -> & _).
  apply in_map. exact Hr.
Qed.

Lemma data_files_nodup results :
  NoDup (map file results) ->
  NoDup (map filename (flat_map contribution results)).
Proof.
  induction results as [|r results IH]; intros Hnd; [constructor|].
  cbn [map flat_map] in *. inversion Hnd as [|? ? Hnin Hnd']; subst.
  rewrite map_app. specialize (IH Hnd').
  assert (Hc : contribution r = [] \/ exists m, contribution r = [m]).
  { unfold contribution, collect. destruct (negb (success r)); [left; reflexivity|].
    destruct (merged_file r) as [[[text|]|]|]; try (left; reflexivity).
    destruct (negb (is_empty (strip text))); [right; eexists|left]; reflexivity. }
  destruct Hc as [-> | (m & Hm)]; [exact IH|].
  rewrite Hm. cbn [map app]. constructor; [|exact IH].
  assert (Hf : filename m = file r).
  { apply (contribution_spec r m). rewrite Hm. left. reflexivity. }
  rewrite Hf. intros Hin. apply Hnin. apply data_files. exact Hin.
Qed.

Lemma insert_meeting_perm x l : Permutation (insert_meeting x l) (x :: l).
Proof.
  induction l as [|y l IH]; cbn [insert_meeting]; [reflexivity|].
  destruct (name_ltb (filename y) (filename x)); [|reflexivity].
  rewrite IH. apply perm_swap.
Qed.

Lemma sort_meetings_perm l : Permutation (sort_meetings l) l.
Proof.
  induction l as [|x l IH]; cbn [sort_meetings]; [reflexivity|].
  rewrite insert_meeting_perm. apply perm_skip. exact IH.
Qed.

Lemma meeting_le_trans a b c : meeting_le a b -> meeting_le b c -> meeting_le a c.
Proof. unfold meeting_le. apply name_le_trans. Qed.

Lemma insert_meeting_sorted x l :
  StronglySorted meeting_le l -> StronglySorted meeting_le (insert_meeting x l).
Proof.
  induction l as [|y l IH]; intros Hs; cbn [insert_meeting].
  - constructor; constructor.
  - inversion Hs as [|? ? Hs' Hall]; subst.
    destruct (name_ltb (filename y) (filename x)) eqn:Hyx.
    + constructor; [apply IH; exact Hs'|].
      eapply Permutation_Forall; [symmetry; apply insert_meeting_perm|].
      constructor; [|exact Hall]. unfold meeting_le.
      apply name_ltb_asym. exact Hyx.
    + constructor; [exact Hs|]. constructor; [exact Hyx|].
      eapply Forall_impl; [|exact Hall]. intros z Hz.
      eapply meeting_le_trans; [exact Hyx | exact Hz].
Qed.

Lemma sort_meetings_sorted l : StronglySorted meeting_le (sort_meetings l).
Proof.
  induction l as [|x l IH]; cbn [sort_meetings]; [constructor|].
  apply insert_meeting_sorted; exact IH.
Qed.

Lemma sorted_meetings_unique l1 : forall l2,
  NoDup (map filename l1) ->
  StronglySorted meeting_le l1 -> StronglySorted meeting_le l2 ->
  Permutation l1 l2 -> l1 = l2.
Proof.
  induction l1 as [|a l1 IH]; intros l2 Hnd H1 H2 Hp.
  - apply Permutation_nil in Hp. symmetry; exact Hp.
  - destruct l2 as [|b l2];
      [apply Permutation_sym, Permutation_nil in Hp; discriminate|].
    inversion H1 as [|? ? H1' Ha]; subst.
    inversion H2 as [|? ? H2' Hb]; subst.
    cbn [map] in Hnd. inversion Hnd as [|? ? Hnin Hnd']; subst.
    assert (Hab : a = b).
    { assert (Hina : In a (b :: l2))
        by (eapply Permutation_in; [exact Hp | left; reflexivity]).
      assert (Hinb : In b (a :: l1))
        by (eapply Permutation_in; [symmetry; exact Hp | left; reflexivity]).
      destruct Hina as [-> | Hina]; [reflexivity|].
      destruct Hinb as [-> | Hinb]; [reflexivity|].
      rewrite Forall_forall in Ha, Hb. exfalso. apply Hnin.
      assert (Hk : filename b = filename a)
        by (apply name_ltb_trichotomy; [apply Ha | apply Hb]; assumption).
      rewrite <- Hk. apply in_map. exact Hinb. }
    subst b. f_equal. apply IH; try assumption.
    eapply Permutation_cons_inv; exact Hp.
Qed.

Lemma merge_all_alt now results write_ok :
  merge_all_transcripts now results write_ok
  = match transcript_data results with
    | [] => None
    | _ :: _ =>
        if write_ok
        then Some (master_parts now (sort_meetings (transcript_data results)))
        else None
    end.
Proof.
  unfold merge_all_transcripts.
  destruct (transcript_data results); reflexivity.
Qed.

End BatchFacts.

Section BatchTheorems.
Import PyStr Reassembler NameOrder Batch.
Local Open Scope string_scope.

(** X13: [find_audio_files] returns the names of the directory that end
    with one of the extensions, in ascending order of name, and its answer
    depends neither on the order in which the set of extensions is
    iterated nor on the order in which the directory is listed. *)
Theorem audio_files_are_found_in_name_order :
  forall extensions names,
    StronglySorted name_le (find_audio_files extensions names) /\
    (forall n,
        In n (find_audio_files extensions names) <->
        In n names /\
        exists ext, In ext extensions /\ endswith ext n = true) /\
    (forall extensions' names',
        Permutation extensions extensions' -> Permutation names names' ->
        find_audio_files extensions' names'
        = find_audio_files extensions names).
Proof.
  intros extensions names. unfold find_audio_files. split; [|split].
  - apply sorted_sorted.
  - intros n. split.
    + intros Hin. apply (Permutation_in _ (sorted_perm _)) in Hin.
      apply in_flat_map in Hin. destruct Hin as (ext & Hext & Hin).
      apply filter_In in Hin. destruct Hin as (Hn & He).
      split; [exact Hn|]. exists ext. split; assumption.
    + intros (Hn & ext & Hext & He).
      apply (Permutation_in _ (Permutation_sym (sorted_perm _))).
      apply in_flat_map. exists ext. split; [exact Hext|].
      apply filter_In. split; assumption.
  - intros extensions' names' Hext Hnames. apply sorted_permutation.
    etransitivity.
    + apply Permutation_flat_map. symmetry. exact Hext.
    + apply flat_map_pointwise_perm. intros ext.
      apply filter_permutation. symmetry. exact Hnames.
Qed.

(** X14: [cleanup_segments] leaves every file that does not match
    [segment_*.wav] in place (so [metadata.json] and
    [merged_transcript.txt] stay), removes exactly the matching files
    whose removal succeeds, among them every file named by the extractor,
    returns true exactly when it removed one, and a second run removes
    nothing and returns false. *)
Theorem cleanup_removes_only_segment_audio :
  forall dir,
    let '(left_over, removed_size, any) := cleanup_segments dir in
    left_over = filter (fun f => negb (removed f)) dir /\
    (forall f, In f dir -> glob_wav (fst f) = false -> In f left_over) /\
    (any = true <->
     exists f, In f dir /\ glob_wav (fst f) = true /\ removable (snd f) = true) /\
    removed_size = list_sum (map (fun f => size (snd f)) (filter removed dir)) /\
    cleanup_segments left_over = (left_over, 0%nat, false) /\
    glob_wav "metadata.json" = false /\
    glob_wav "merged_transcript.txt" = false /\
    (forall n, glob_wav (Extractor.segment_filename n) = true).
Proof.
  intros dir. unfold cleanup_segments. rewrite !cleanup_fold.
  cbn [app Nat.add]. split; [reflexivity|]. split; [|split; [|split; [|split]]].
  - intros f Hin Hg. apply filter_In. split; [exact Hin|].
    unfold removed. rewrite Hg. reflexivity.
  - rewrite Nat.ltb_lt. split.
    + intros Hlen. destruct (filter removed dir) as [|f l] eqn:E;
        [cbn in Hlen; lia|].
      assert (Hin : In f (filter removed dir)) by (rewrite E; left; reflexivity).
      apply filter_In in Hin. destruct Hin as (Hin & Hr).
      unfold removed in Hr. apply andb_true_iff in Hr.
      exists f. tauto.
    + intros (f & Hin & Hg & Hr).
      assert (Hf : In f (filter removed dir)).
      { apply filter_In. split; [exact Hin|]. unfold removed.
        rewrite Hg, Hr. reflexivity. }
      destruct (filter removed dir); [contradiction | cbn; lia].
  - reflexivity.
  - rewrite filter_neg_none, filter_idem. reflexivity.
  - split; [reflexivity|]. split; [reflexivity|].
    apply glob_wav_segment_filename.
Qed.





(** X16: the label is ["Unknown date"] exactly when the meeting name has
    fewer than three parts between underscores; with three or more parts
    a label is always built from the last two, which are never checked to
    be digits. *)
Theorem unknown_date_only_without_two_underscores :
  forall meeting_name,
    date_of meeting_name = "Unknown date" <->
    (List.length (split "_" meeting_name) < 3)%nat.
Proof.
  intros meeting_name. unfold date_of.
  destruct (Nat.leb_spec 3 (List.length (split "_" meeting_name)))
    as [Hge | Hlt].
  - split; [|lia]. intros H. exfalso.
    apply (dashed_is_not_unknown _ _ (substring_length_le 4 _) H).
  - split; [intros _; exact Hlt | reflexivity].
Qed.

(** X17: the master document does not depend on the order in which the
    inputs were processed: for results with distinct file names, any
    reordering of the results gives the same lines. *)
Theorem master_ignores_processing_order :
  forall now results results' write_ok,
    NoDup (map file results) -> Permutation results results' ->
    merge_all_transcripts now results write_ok
    = merge_all_transcripts now results' write_ok.
Proof.
  intros now results results' write_ok Hnd Hperm.
  rewrite !merge_all_alt, !transcript_data_flat_map.
  assert (Hp : Permutation (flat_map contribution results)
                           (flat_map contribution results'))
    by (apply Permutation_flat_map; exact Hperm).
  assert (Hsort : sort_meetings (flat_map contribution results)
                  = sort_meetings (flat_map contribution results')).
  { apply sorted_meetings_unique; try apply sort_meetings_sorted.
    - eapply Permutation_NoDup;
        [apply Permutation_map; symmetry; apply sort_meetings_perm|].
      apply data_files_nodup. exact Hnd.
    - rewrite !sort_meetings_perm. exact Hp. }
  rewrite Hsort.
  destruct (flat_map contribution results) as [|x l] eqn:E1;
    destruct (flat_map contribution results') as [|x' l'] eqn:E2;
    try reflexivity.
  - apply Permutation_nil in Hp. discriminate.
  - apply Permutation_sym, Permutation_nil in Hp. discriminate.
Qed.

Lemma master_ignores_processing_order_witness :
  merge_all_transcripts "now"
    [ {| file := "b_20240102_090000.wav"; success := true;
         merged_file := Some (Some (Readable "second")) |};
      {| file := "a_20240101_090000.wav"; success := true;
         merged_file := Some (Some (Readable "first")) |} ] true
  = merge_all_transcripts "now"
      [ {| file := "a_20240101_090000.wav"; success := true;
           merged_file := Some (Some (Readable "first")) |};
        {| file := "b_20240102_090000.wav"; success := true;
           merged_file := Some (Some (Readable "second")) |} ] true.
Proof.
  apply master_ignores_processing_order.
  - repeat constructor; cbn; intuition discriminate.
  - apply perm_swap.
Defined.

(** X18: the meetings of the master document are exactly the successful
    results whose merged transcript exists, can be read and is not empty
    after trimming, in ascending order of file name; nothing is written
    when there is none or when the write fails. *)
Theorem master_lists_merged_meetings_by_name :
  forall now results write_ok,
    let data := sort_meetings (transcript_data results) in
    StronglySorted meeting_le data /\
    Permutation data (flat_map contribution results) /\
    (forall m, In m data ->
               exists r, In r results /\ success r = true /\
                         filename m = file r /\
                         is_empty (content m) = false) /\
    (forall r text,
        In r results -> success r = true ->
        merged_file r = Some (Some (Readable text)) ->
        is_empty (strip text) = false ->
        exists m, In m data /\ filename m = file r /\ content m = strip text) /\
    (merge_all_transcripts now results write_ok = None <->
     data = [] \/ write_ok = false) /\
    (forall parts,
        merge_all_transcripts now results write_ok = Some parts ->
        parts = master_parts now data).
Proof.
  intros now results write_ok data. unfold data.
  rewrite transcript_data_flat_map.
  split; [apply sort_meetings_sorted|].
  split; [apply sort_meetings_perm|]. split; [|split; [|split]].
  - intros m Hm. apply (Permutation_in _ (sort_meetings_perm _)) in Hm.
    apply in_flat_map in Hm. destruct Hm as (r & Hr & Hm).
    apply contribution_spec in Hm. exists r. tauto.
  - intros r text Hr Hs Hf He.
    exists {| filename := file r; meeting_name := stem (file r);
              date_str := date_of (stem (file r)); content := strip text |}.
    split; [|split; reflexivity].
    apply (Permutation_in _ (Permutation_sym (sort_meetings_perm _))).
    apply in_flat_map. exists r. split; [exact Hr|].
    unfold contribution, collect. rewrite Hs, Hf, He. left. reflexivity.
  - rewrite merge_all_alt, transcript_data_flat_map.
    destruct (flat_map contribution results) as [|x l] eqn:E.
    + split; [intros _; left; reflexivity | reflexivity].
    + assert (Hne : sort_meetings (x :: l) <> []).
      { intros H. pose proof (sort_meetings_perm (x :: l)) as Hp.
        rewrite H in Hp. apply Permutation_nil in Hp. discriminate. }
      destruct write_ok; split; try discriminate; try reflexivity.
      * intros [H | H]; [contradiction | discriminate].
      * intros _. right. reflexivity.
  - intros parts. rewrite merge_all_alt, transcript_data_flat_map.
    destruct (flat_map contribution results); [discriminate|].
    destruct write_ok; [|discriminate]. intros [= <-]. reflexivity.
Qed.

End BatchTheorems.

(** ** The names both paths look for *)

Section TranscriptNames.
Import PyStr Extractor Reassembler Decode.
Local Open Scope string_scope.

Lemma contains_char_append c a b :
  contains (String c "") (a ++ b)
  = contains (String c "") a || contains (String c "") b.
Proof.
  induction a as [|x a IH]; cbn [String.append].
  - cbn [contains String.prefix]. reflexivity.
  - cbn [contains]. rewrite !prefix_one, IH. rewrite orb_assoc. reflexivity.
Qed.

Lemma contains_char_zeros c k :
  Ascii.eqb c "0" = false -> contains (String c "") (zeros k) = false.
Proof.
  intros Hc. induction k as [|k IH]; [reflexivity|].
  cbn [zeros contains]. rewrite prefix_one, Hc, IH. reflexivity.
Qed.

Lemma contains_char_digits c d :
  (nat_of_ascii c < 48)%nat ->
  contains (String c "") (NilEmpty.string_of_uint d) = false.
Proof.
  intros Hc.
  assert (Hne : forall x, (48 <= nat_of_ascii x)%nat -> Ascii.eqb c x = false).
  { intros x Hx. apply Ascii.eqb_neq. intros ->. lia. }
  induction d as [|d IH|d IH|d IH|d IH|d IH|d IH|d IH|d IH|d IH|d IH];
    cbn [NilEmpty.string_of_uint]; [reflexivity|..];
    cbn [contains]; rewrite prefix_one, IH, Hne; try reflexivity; cbn; lia.
Qed.

Lemma contains_char_format c n :
  (nat_of_ascii c < 48)%nat -> contains (String c "") (format_03d n) = false.
Proof.
  intros Hc. unfold format_03d, decimal.
  rewrite contains_char_append, contains_char_zeros, contains_char_digits;
    [reflexivity | exact Hc |].
  apply Ascii.eqb_neq. intros ->. cbn in Hc. lia.
Qed.

Lemma rfind_dot_append a : forall i,
  contains "." a = false ->
  rfind_dot i (a ++ ".wav") = Some (i + String.length a)%nat.
Proof.
  induction a as [|x a IH]; intros i Ha.
  - cbn. rewrite Nat.add_0_r. reflexivity.
  - cbn [contains] in Ha. apply orb_false_iff in Ha. destruct Ha as (_ & Ha).
    cbn [String.append rfind_dot String.length]. rewrite IH by exact Ha.
    f_equal. lia.
Qed.

Lemma substring_prefix a b :
  String.substring 0 (String.length a) (a ++ b) = a.
Proof.
  induction a as [|x a IH]; cbn [String.length String.append String.substring].
  - destruct b; reflexivity.
  - rewrite IH. reflexivity.
Qed.

Lemma stem_of_segment_filename n :
  stem (segment_filename n) = "segment_" ++ format_03d n.
Proof.
  unfold stem, path_name, segment_filename.
  assert (Hslash : contains "/" ("segment_" ++ format_03d n ++ ".wav") = false).
  { rewrite !contains_char_append, contains_char_format by (cbn; lia).
    reflexivity. }
  unfold split. rewrite split_char_none by exact Hslash.
  cbn [String.append filter is_empty orb negb String.eqb Ascii.eqb Bool.eqb
         List.last].
  change (String "s" (String "e" (String "g" (String "m" (String "e"
            (String "n" (String "t" (String "_" (format_03d n ++ ".wav")))))))))
    with ("segment_" ++ format_03d n ++ ".wav").
  rewrite <- string_append_assoc.
  assert (Hdot : contains "." ("segment_" ++ format_03d n) = false).
  { rewrite contains_char_append, contains_char_format by (cbn; lia).
    reflexivity. }
  rewrite rfind_dot_append by exact Hdot. cbn [Nat.add].
  rewrite !append_length.
  replace ((0 <? String.length "segment_" + String.length (format_03d n))
           && (String.length "segment_" + String.length (format_03d n)
               <? String.length "segment_" + String.length (format_03d n)
                  + String.length ".wav" - 1))%nat with true.
  - rewrite <- append_length. apply substring_prefix.
  - symmetry. apply andb_true_iff. split; apply Nat.ltb_lt; cbn; lia.
Qed.

End TranscriptNames.

Section MoreExtraTheorems.
Import PyStr AudioSplitter Extractor Reassembler Decode.
Local Open Scope string_scope.

(** X19: for every segment index the ledger path looks for the transcript
    [segment_<padded index>.txt]; that name matches the pattern of the
    fallback, and different indices have different transcripts. *)
Theorem both_paths_read_the_same_transcripts :
  forall n,
    transcript_name (segment_filename n) = "segment_" ++ format_03d n ++ ".txt" /\
    glob_match (transcript_name (segment_filename n)) = true /\
    (forall k, transcript_name (segment_filename k)
               = transcript_name (segment_filename n) -> k = n).
Proof.
  intros n.
  assert (Hname : forall k, transcript_name (segment_filename k)
                            = "segment_" ++ format_03d k ++ ".txt").
  { intros k. unfold transcript_name. rewrite stem_of_segment_filename.
    apply string_append_assoc. }
  split; [apply Hname|]. split.
  - rewrite Hname. unfold glob_match.
    rewrite prefix_append, <- string_append_assoc, endswith_append.
    rewrite !append_length. cbn [andb]. apply Nat.leb_le. cbn. lia.
  - intros k Hk. rewrite !Hname in Hk. cbn [String.append] in Hk.
    injection Hk as Hk. apply append_cancel_r in Hk.
    apply (f_equal index_of_digits) in Hk. rewrite !format_03d_decode in Hk.
    congruence.
Qed.

Lemma fold_records_when_copies_succeed {A : arithmetic} t threshold ws :
  forall st,
  (forall name a d, split_audio_segment t name a d = true) ->
  map window_of (records_of (fold_left (process_window t threshold) ws st))
  = (map window_of (records_of st)
     ++ filter (fun w => negb (gtb (ratio_of t w) threshold)) ws)%list.
Proof.
  induction ws as [|w ws IH]; intros st Hcopy; cbn [fold_left filter].
  - rewrite app_nil_r. reflexivity.
  - rewrite IH by exact Hcopy. rewrite process_window_outcome.
    unfold outcome_of. rewrite Hcopy.
    destruct (gtb (ratio_of t w) threshold); cbn [negb];
      unfold records_of; cbn [fst snd]; [reflexivity|].
    rewrite map_app, <- app_assoc. destruct w; reflexivity.
Qed.

(** X20: whatever the rounding of the arithmetic, when every stream copy
    succeeds, the records are exactly the planned windows for which the
    silence ratio the loop measures does not exceed the threshold, in
    window order. *)
Theorem records_are_the_windows_that_pass :
  forall (A : arithmetic) t threshold split_points,
    (forall name a d, split_audio_segment t name a d = true) ->
    map window_of (records_of (process_windows t threshold split_points))
    = filter (fun w => negb (gtb (ratio_of t w) threshold)) split_points.
Proof.
  intros A t threshold split_points Hcopy. unfold process_windows.
  rewrite fold_records_when_copies_succeed by exact Hcopy. reflexivity.
Qed.

(** In binary64, of the four windows planned for [quiet_middle_tools] the
    second is skipped and the three others are the records, in window
    order. *)
Lemma records_are_the_windows_that_pass_witness :
  map window_of
    (records_of
       (process_windows (A := binary64) (quiet_middle_tools (A := binary64))
          (sec (A := binary64) 0.9)
          [(sec (A := binary64) 0, sec (A := binary64) 41);
           (sec (A := binary64) 41, sec (A := binary64) 100.5);
           (sec (A := binary64) 100.5, sec (A := binary64) 141);
           (sec (A := binary64) 141, sec (A := binary64) 180)]))
  = filter (fun w => negb (gtb (ratio_of (A := binary64)
                                  (quiet_middle_tools (A := binary64)) w)
                             (sec (A := binary64) 0.9)))
      [(sec (A := binary64) 0, sec (A := binary64) 41);
       (sec (A := binary64) 41, sec (A := binary64) 100.5);
       (sec (A := binary64) 100.5, sec (A := binary64) 141);
       (sec (A := binary64) 141, sec (A := binary64) 180)] /\
  filter (fun w => negb (gtb (ratio_of (A := binary64)
                                (quiet_middle_tools (A := binary64)) w)
                           (sec (A := binary64) 0.9)))
    [(sec (A := binary64) 0, sec (A := binary64) 41);
     (sec (A := binary64) 41, sec (A := binary64) 100.5);
     (sec (A := binary64) 100.5, sec (A := binary64) 141);
     (sec (A := binary64) 141, sec (A := binary64) 180)]
  = [(sec (A := binary64) 0, sec (A := binary64) 41);
     (sec (A := binary64) 100.5, sec (A := binary64) 141);
     (sec (A := binary64) 141, sec (A := binary64) 180)].
Proof.
  split.
  - apply records_are_the_windows_that_pass. reflexivity.
  - apply windows_eqb_eq. vm_compute. reflexivity.
Defined.

End MoreExtraTheorems.


(** ** The silence ratio read from ffmpeg's output *)

Section RatioFacts.
Import PyStr SilenceParser RatioParser.

Context {A : arithmetic}.
Variable float : string -> option time.

Lemma sum_silences_filter lines : forall total,
  sum_silences float total lines
  = sum_silences float total (filter duration_line lines).
Proof.
  induction lines as [|line rest IH]; intros total; [reflexivity|].
  cbn [filter]. destruct (duration_line line) eqn:Hd; cbn [sum_silences].
  - destruct (add_silence float total line); cbn [bind];
      [apply IH | reflexivity].
  - unfold add_silence. unfold duration_line in Hd. rewrite Hd.
    cbn [bind]. apply IH.
Qed.

End RatioFacts.

Section RatioTheorems.
Import PyStr SilenceParser RatioParser.

(** X21: in every arithmetic that leaves 0 as it is (binary64 does, and
    so does arithmetic without rounding), the ratio computed from ffmpeg's
    output only depends on the lines that carry the tag and
    [silence_duration]; when there is none the ratio is 0, and for a
    window of non-positive duration the ratio is 0 whenever the numbers
    parse, so the division is never by zero. *)
Theorem silence_ratio_edge_cases :
  forall (A : arithmetic) (float : string -> option time),
    round 0 = 0 ->
    (forall total lines,
        sum_silences float total lines
        = sum_silences float total (filter duration_line lines)) /\
    (forall stderr duration,
        filter duration_line (split newline stderr) = [] ->
        silence_ratio_of_output float stderr duration = Ok 0) /\
    (forall stderr duration r,
        duration <= 0 ->
        silence_ratio_of_output float stderr duration = Ok r -> r = 0).
Proof.
  intros A float Hzero. split; [|split].
  - intros total lines. apply sum_silences_filter.
  - intros stderr duration Hnone. unfold silence_ratio_of_output.
    rewrite sum_silences_filter, Hnone. cbn [sum_silences bind].
    destruct (gtb duration 0); [|reflexivity].
    f_equal. unfold div, Qcdiv. rewrite Qcmult_0_l. exact Hzero.
  - intros stderr duration r Hd. unfold silence_ratio_of_output.
    destruct (sum_silences float 0 (split newline stderr)) as [total|e];
      cbn [bind]; [|discriminate].
    unfold gtb. replace (ltb 0 duration) with false; [congruence|].
    symmetry. apply ltb_ge. exact Hd.
Qed.

Lemma silence_ratio_edge_cases_witness :
  (forall total lines,
      sum_silences (A := binary64) (PyStr.float (A := binary64)) total lines
      = sum_silences (A := binary64) (PyStr.float (A := binary64)) total
          (filter duration_line lines)) /\
  (forall stderr duration,
      filter duration_line (split newline stderr) = [] ->
      silence_ratio_of_output (A := binary64) (PyStr.float (A := binary64))
        stderr duration = Ok 0) /\
  (forall stderr duration r,
      duration <= 0 ->
      silence_ratio_of_output (A := binary64) (PyStr.float (A := binary64))
        stderr duration = Ok r -> r = 0).
Proof.
  apply (silence_ratio_edge_cases binary64 (PyStr.float (A := binary64))).
  reflexivity.
Defined.

End RatioTheorems.
